(** * Voxgig Struct (TypeScript port): accessors, merge, getpath, inject, transform, validate

    A shallow embedding of [ts/src/struct.ts].  JavaScript objects and
    arrays are mutable and shared by reference, and [setprop], [walk],
    [merge], [inject] and the directives all update their arguments in
    place, so nodes live in an explicit store ([heap]) and a node value
    is a reference into it.  Functions that mutate thread the store.
    What the program takes from the engine it runs on is gathered in
    the class [Host]; the functions the program puts into its stores
    are function values called by name. *)

From Stdlib Require Import QArith Qround Ascii.
From stdpp Require Import base list strings pretty sorting.

Set Warnings "-register-all".

Local Open Scope string_scope.
Local Open Scope list_scope.

(** ** Data model *)

(** A JavaScript number, as far as keys need it: [+key], [isNaN],
    [Math.floor] and comparisons against a list length.  Every finite
    double is a rational. *)
Inductive number :=
| NaN
| NegInf
| PosInf
| Fin (q : Q).

Abbreviation loc := nat.

(** A JSON-like value.  Maps and lists are references into the store. *)
Inductive value :=
| VUndef
| VNull
| VBool (b : bool)
| VNum (n : number)
| VStr (s : string)
| VFun (name : string)
| VRef (l : loc).

(** A node.  A map keeps its entries in insertion order (the order
    [Object.keys] reports for keys that are not array indexes). *)
Inductive obj :=
| OMap (m : list (string * value))
| OList (l : list value).

Abbreviation heap := (list obj).

(** Outcome of a computation that may throw or (in the model) run out
    of recursion fuel on a cyclic store. *)
Inductive result (A : Type) :=
| Ret (a : A)
| Throw (msg : string)
| OutOfFuel.
Arguments Ret {A} a.
Arguments Throw {A} msg.
Arguments OutOfFuel {A}.

Definition rbind {A B} (r : result A) (k : A -> result B) : result B :=
  match r with
  | Ret a => k a
  | Throw m => Throw m
  | OutOfFuel => OutOfFuel
  end.

#[global] Instance result_bind : MBind result := fun A B k r => rbind r k.
#[global] Instance result_ret : MRet result := fun A a => Ret a.

(** String constants of the source. *)
Definition S_MKEYPRE := "key:pre".
Definition S_MKEYPOST := "key:post".
Definition S_MVAL := "val".
Definition S_DTOP := "$TOP".
Definition S_DERRS := "$ERRS".
Definition S_MT := "".
Definition S_DS := "$".
Definition S_DT := ".".

(** The double-quote character. *)
Definition S_QUOTE : ascii := ascii_of_nat 34.

Definition num_of_nat (n : nat) : number := Fin (inject_Z (Z.of_nat n)).
Definition num_of_Z (z : Z) : number := Fin (inject_Z z).

Definition is_nan (n : number) : bool :=
  match n with NaN => true | _ => false end.

(** [Math.floor]. *)
Definition Math_floor (n : number) : number :=
  match n with
  | Fin q => Fin (inject_Z (Qfloor q))
  | _ => n
  end.

(** [a <= b] and [a < b] on numbers; false when either side is NaN. *)
Definition num_le (a b : number) : bool :=
  match a, b with
  | NaN, _ | _, NaN => false
  | NegInf, _ => true
  | _, PosInf => true
  | Fin x, Fin y => Qle_bool x y
  | _, _ => false
  end.

Definition num_lt (a b : number) : bool :=
  match a, b with
  | NaN, _ | _, NaN => false
  | PosInf, _ => false
  | _, NegInf => false
  | Fin x, Fin y => negb (Qle_bool y x)
  | _, _ => true
  end.

(** The index a floored, non-negative number addresses. *)
Definition num_index (n : number) : nat :=
  match n with
  | Fin q => Z.to_nat (Qfloor q)
  | _ => 0%nat
  end.

Definition value_eqb (a b : value) : bool :=
  match a, b with
  | VUndef, VUndef => true
  | VNull, VNull => true
  | VBool x, VBool y => Bool.eqb x y
  | VNum (Fin x), VNum (Fin y) => Qeq_bool x y
  | VNum NegInf, VNum NegInf => true
  | VNum PosInf, VNum PosInf => true
  | VStr x, VStr y => String.eqb x y
  | VFun x, VFun y => String.eqb x y
  | VRef x, VRef y => Nat.eqb x y
  | _, _ => false
  end.

Definition is_undef (v : value) : bool :=
  match v with VUndef => true | _ => false end.

(** [null == v]: undefined or null. *)
Definition is_nullish (v : value) : bool :=
  match v with VUndef | VNull => true | _ => false end.

(** ** Decimal strings *)

Definition digit_of (c : ascii) : option N :=
  let n := N_of_ascii c in
  if ((48 <=? n) && (n <=? 57))%N then Some (n - 48)%N else None.

Fixpoint parse_digits (acc : N) (s : string) : option N :=
  match s with
  | EmptyString => Some acc
  | String c s' =>
      match digit_of c with
      | Some d => parse_digits (acc * 10 + d)%N s'
      | None => None
      end
  end.

(** A non-empty run of at most 15 decimal digits (exact as a double). *)
Definition parse_decimal (s : string) : option N :=
  match s with
  | EmptyString => None
  | _ => if (String.length s <=? 15)%nat then parse_digits 0%N s else None
  end.

(** An array index in canonical form: ["0"], or digits without a leading
    zero, below 2^32 - 1. *)
Definition array_index (s : string) : option nat :=
  match parse_decimal s with
  | Some n =>
      if (String.eqb s (pretty n) && (n <? 4294967295)%N)%bool
      then Some (N.to_nat n) else None
  | None => None
  end.

(** ** Sorting and object key order *)

Fixpoint insert_sorted {A} (le : A -> A -> bool) (x : A) (l : list A) : list A :=
  match l with
  | [] => [x]
  | y :: l' => if le x y then x :: l else y :: insert_sorted le x l'
  end.

(** [Array.prototype.sort] with the given order (stable). *)
Definition sort_by {A} (le : A -> A -> bool) (l : list A) : list A :=
  foldr (insert_sorted le) [] l.

(** [.sort()] on strings: ascending by code unit. *)
Definition sort_strings : list string -> list string := sort_by String.leb.

Definition is_array_index (s : string) : bool :=
  match array_index s with Some _ => true | None => false end.

Definition index_le (a b : string) : bool :=
  match array_index a, array_index b with
  | Some x, Some y => (x <=? y)%nat
  | _, _ => true
  end.

(** [Object.keys] of a plain object: array-index keys in ascending numeric
    order, then every other key in insertion order. *)
Definition Object_keys_map (m : list (string * value)) : list string :=
  sort_by index_le (List.filter is_array_index (map fst m))
  ++ List.filter (fun k => negb (is_array_index k)) (map fst m).

Definition index_keys (n : nat) : list string :=
  map (fun i : nat => pretty i) (seq 0 n).

Definition Object_keys_obj (o : obj) : list string :=
  match o with
  | OMap m => Object_keys_map m
  | OList l => index_keys (length l)
  end.

Fixpoint assoc_find (k : string) (m : list (string * value)) : option value :=
  match m with
  | [] => None
  | (k', v) :: m' => if String.eqb k k' then Some v else assoc_find k m'
  end.

(** [m[k] = v]: an existing key keeps its place, a new key goes last. *)
Fixpoint assoc_set (k : string) (v : value) (m : list (string * value))
  : list (string * value) :=
  match m with
  | [] => [(k, v)]
  | (k', v') :: m' =>
      if String.eqb k k' then (k', v) :: m' else (k', v') :: assoc_set k v m'
  end.

(** [delete m[k]]. *)
Definition assoc_del (k : string) (m : list (string * value))
  : list (string * value) :=
  List.filter (fun kv => negb (String.eqb k (fst kv))) m.

(** The function members of [Object.prototype], by name. *)
Definition Object_prototype_functions : list string :=
  [ "constructor"; "hasOwnProperty"; "isPrototypeOf"; "propertyIsEnumerable";
    "toLocaleString"; "toString"; "valueOf";
    "__defineGetter__"; "__defineSetter__"; "__lookupGetter__"; "__lookupSetter__" ].

(** The own property [pk] of a node, for a property key already in
    string form; undefined when the node has none of that name. *)
Definition own_get (o : obj) (pk : string) : value :=
  match o with
  | OMap m => default VUndef (assoc_find pk m)
  | OList l =>
      match array_index pk with
      | Some i => default VUndef (l !! i)
      | None =>
          if String.eqb pk "length" then VNum (num_of_nat (length l)) else VUndef
      end
  end.

Definition alloc (h : heap) (o : obj) : heap * value :=
  (h ++ [o], VRef (length h)).

(** The entries of the map, or the elements of the list, a value refers to. *)
Definition map_entries (h : heap) (v : value) : list (string * value) :=
  match v with
  | VRef l => match h !! l with Some (OMap m) => m | _ => [] end
  | _ => []
  end.

Definition list_elems (h : heap) (v : value) : list value :=
  match v with
  | VRef l => match h !! l with Some (OList xs) => xs | _ => [] end
  | _ => []
  end.

(** Overwrite the node a reference points to (the in-place update). *)
Definition store_obj (h : heap) (v : value) (o : obj) : heap :=
  match v with
  | VRef l => <[l := o]> h
  | _ => h
  end.

(** ** Value predicates *)

Definition typeof (v : value) : string :=
  match v with
  | VUndef => "undefined"
  | VNull => "object"
  | VBool _ => "boolean"
  | VNum _ => "number"
  | VStr _ => "string"
  | VFun _ => "function"
  | VRef _ => "object"
  end.

Definition Array_isArray (h : heap) (v : value) : bool :=
  match v with
  | VRef l => match h !! l with Some (OList _) => true | _ => false end
  | _ => false
  end.

Definition isnode (val : value) : bool :=
  negb (is_nullish val) && String.eqb "object" (typeof val).

Definition ismap (h : heap) (val : value) : bool :=
  negb (is_nullish val) && String.eqb "object" (typeof val)
  && negb (Array_isArray h val).

Definition islist (h : heap) (val : value) : bool := Array_isArray h val.

Definition iskey (key : value) : bool :=
  match key with
  | VStr s => negb (String.eqb S_MT s)
  | VNum _ => true
  | _ => false
  end.

Definition isfunc (val : value) : bool :=
  String.eqb "function" (typeof val).

Definition Object_keys (h : heap) (v : value) : list string :=
  match v with
  | VRef l => match h !! l with Some o => Object_keys_obj o | None => [] end
  | VStr s => index_keys (String.length s)
  | _ => []
  end.

Definition isempty (h : heap) (val : value) : bool :=
  is_nullish val
  || value_eqb (VStr S_MT) val
  || (Array_isArray h val
      && match val with
         | VRef l => match h !! l with
                     | Some (OList xs) => Nat.eqb 0 (length xs)
                     | _ => false
                     end
         | _ => false
         end)
  || (String.eqb "object" (typeof val) && Nat.eqb 0 (length (Object_keys h val))).

(** ** String helpers *)

(** [s.replace(/c/g, '')] for a single character [c]. *)
Fixpoint remove_char (c : ascii) (s : string) : string :=
  match s with
  | EmptyString => EmptyString
  | String a s' =>
      if Ascii.eqb a c then remove_char c s' else String a (remove_char c s')
  end.

(** [s.split(c)] for a single character [c]. *)
Fixpoint split_on (c : ascii) (s : string) : list string :=
  match s with
  | EmptyString => [EmptyString]
  | String a s' =>
      if Ascii.eqb a c then EmptyString :: split_on c s'
      else
        match split_on c s' with
        | [] => [String a EmptyString]
        | w :: ws => String a w :: ws
        end
  end.

(** [l.join(sep)] on strings. *)
Fixpoint join_strings (sep : string) (l : list string) : string :=
  match l with
  | [] => EmptyString
  | [x] => x
  | x :: l' => x +:+ sep +:+ join_strings sep l'
  end.

(** [s.includes(sub)]. *)
Fixpoint str_includes (sub s : string) : bool :=
  String.prefix sub s
  || match s with
     | EmptyString => false
     | String _ s' => str_includes sub s'
     end.

(** ** List updates *)

(** The loop [for (pI = keyI; pI < length - 1; pI++) parent[pI] = parent[pI + 1]],
    run for [n] iterations from [pI]. *)
Fixpoint shift_down (n pI : nat) (l : list value) : list value :=
  match n with
  | O => l
  | S n' => shift_down n' (S pI) (<[pI := default VUndef (l !! S pI)]> l)
  end.

(** The shift loop followed by [parent.length = parent.length - 1]. *)
Definition list_remove (keyI : nat) (l : list value) : list value :=
  take (length l - 1) (shift_down (length l - 1 - keyI) keyI l).

(** [parent[i] = val] on an array; writing past the end leaves
    undefined slots in between. *)
Definition list_assign (i : nat) (val : value) (l : list value) : list value :=
  if (i <? length l)%nat then <[i := val]> l
  else l ++ replicate (i - length l) VUndef ++ [val].

(** The first argument of [getpath] and [pathify]: a dotted string, a
    list of keys (a fresh array the callee never updates), or anything
    else, absent included. *)
Inductive jspath :=
| PathStr (s : string)
| PathList (parts : list value)
| PathOther (v : value).

(** [islist(path) ? path : S_string === typeof path ? path.split(S_DT) : UNDEF]. *)
Definition path_parts (path : jspath) : option (list value) :=
  match path with
  | PathList l => Some l
  | PathStr s => Some (map VStr (split_on "." s))
  | PathOther _ => None
  end.

(** The JSON text [clone] passes from [JSON.stringify] to [JSON.parse],
    kept as a tree. *)
Inductive json :=
| JNull
| JBool (b : bool)
| JNum (n : number)
| JStr (s : string)
| JArr (l : list json)
| JObj (m : list (string * json)).

Definition func_marker (i : nat) : string :=
  "`$FUNCTION:" +:+ pretty i +:+ "`".

(** The match of [/^`\$FUNCTION:([0-9]+)`$/]: the digits, if any. *)
Definition marker_digits (s : string) : option string :=
  if String.prefix "`$FUNCTION:" s then
    let rest := String.substring 11 (String.length s - 11) s in
    let ds := String.substring 0 (String.length rest - 1) rest in
    if String.eqb rest (ds +:+ "`")
       && negb (String.eqb ds "")
       && forallb (fun c => bool_decide (is_Some (digit_of c))) (String.list_ascii_of_string ds)
    then Some ds else None
  else None.

(** Induction on a JSON tree through its lists. *)
Fixpoint json_nested_ind (P : json -> Prop)
    (Hnull : P JNull) (Hbool : forall b, P (JBool b)) (Hnum : forall n, P (JNum n))
    (Hstr : forall s, P (JStr s))
    (Harr : forall js, Forall P js -> P (JArr js))
    (Hobj : forall m, Forall (fun kj => P (snd kj)) m -> P (JObj m))
    (j : json) : P j :=
  match j with
  | JNull => Hnull
  | JBool b => Hbool b
  | JNum n => Hnum n
  | JStr s => Hstr s
  | JArr js =>
      Harr js
        ((fix go (l : list json) : Forall P l :=
            match l with
            | [] => Forall_nil_2 P
            | x :: l' =>
                Forall_cons_2 P x l'
                  (json_nested_ind P Hnull Hbool Hnum Hstr Harr Hobj x) (go l')
            end) js)
  | JObj m =>
      Hobj m
        ((fix go (l : list (string * json)) : Forall (fun kj => P (snd kj)) l :=
            match l with
            | [] => Forall_nil_2 _
            | x :: l' =>
                Forall_cons_2 (fun kj => P (snd kj)) x l'
                  (json_nested_ind P Hnull Hbool Hnum Hstr Harr Hobj (snd x)) (go l')
            end) m)
  end.

(** ** The host

    What the program takes from the JavaScript engine it runs on, and
    from its callers.

    - [str_num_ext] and [tostr_ext]: the two language built-ins the
      accessors rely on, outside the fragment computed here: [+s] for a
      string that is not a short run of decimal digits, and [String(v)]
      for a number that is not a safe integer, a function or an object.
    - [Array_prototype] and [Object_prototype_object]: what a node
      inherits under a name it has no property of its own for.  A list
      inherits from [Array.prototype] and then from [Object.prototype]:
      which names are found there depends on the engine, and they are
      taken as they are.  A map inherits from [Object.prototype]: its
      function members are the same in every engine; its accessor
      [__proto__] gives [Object.prototype] itself, an object that is no
      node of the store and is taken as a value.
    - [json_text]: [stringify]'s call of [JSON.stringify] with the
      key-sorting replacer, coerced to a string: a library call.
    - [call_fn]: calling a function value with a list of arguments.
    - [json_stringify]: [JSON.stringify (found)] for the object an
      injection inside a string found: a library call. *)
Class Host : Type := {
  str_num_ext : string -> number;
  tostr_ext : heap -> value -> string;
  Array_prototype : string -> value;
  Object_prototype_object : value;
  json_text : heap -> value -> string;
  call_fn : string -> list value -> heap -> result (heap * value);
  json_stringify : heap -> value -> string
}.

Section Struct.

Context {JS : Host}.

Definition Object_prototype (pk : string) : value :=
  if String.eqb pk "__proto__" then Object_prototype_object
  else if bool_decide (pk ∈ Object_prototype_functions)
  then VFun ("Object.prototype." +:+ pk)
  else VUndef.

Definition num_to_string (h : heap) (n : number) : string :=
  match n with
  | NaN => "NaN"
  | PosInf => "Infinity"
  | NegInf => "-Infinity"
  | Fin q =>
      let z := Qfloor q in
      if Qeq_bool q (inject_Z z) && (Z.abs z <=? 9007199254740992)%Z
      then pretty z else tostr_ext h (VNum n)
  end.

(** [S_MT + v], and the property key [v] denotes in [o[v]]. *)
Definition to_string (h : heap) (v : value) : string :=
  match v with
  | VStr s => s
  | VUndef => "undefined"
  | VNull => "null"
  | VBool true => "true"
  | VBool false => "false"
  | VNum n => num_to_string h n
  | _ => tostr_ext h v
  end.

Definition str_to_number (s : string) : number :=
  match parse_decimal s with
  | Some n => Fin (inject_Z (Z.of_N n))
  | None => str_num_ext s
  end.

(** [+key], for a key that passed [iskey] (a string or a number). *)
Definition key_to_number (key : value) : number :=
  match key with
  | VNum n => n
  | VStr s => str_to_number s
  | _ => NaN
  end.

(** [o[pk]]: the own property when there is one, the inherited one
    otherwise.  The built-in prototypes hold no array index, so an
    index past the end of a list reads as undefined. *)
Definition js_member (o : obj) (pk : string) : value :=
  match o with
  | OMap m =>
      match assoc_find pk m with
      | Some v => v
      | None => Object_prototype pk
      end
  | OList l =>
      match array_index pk with
      | Some i => default VUndef (l !! i)
      | None =>
          if String.eqb pk "length" then VNum (num_of_nat (length l))
          else Array_prototype pk
      end
  end.

(** [val[key]] on a node. *)
Definition js_get (h : heap) (val key : value) : value :=
  match val with
  | VRef l =>
      match h !! l with
      | Some o => js_member o (to_string h key)
      | None => VUndef
      end
  | _ => VUndef
  end.

Definition getprop (h : heap) (val key alt : value) : value :=
  if is_undef val || is_undef key then alt
  else
    let out := if isnode val then js_get h val key else alt in
    if is_undef out then alt else out.

Definition keysof (h : heap) (val : value) : list string :=
  if negb (isnode val) then []
  else if ismap h val then sort_strings (Object_keys h val)
  else Object_keys h val.

Definition haskey (h : heap) (val key : value) : bool :=
  negb (is_undef (getprop h val key VUndef)).

Definition items (h : heap) (val : value) : list (string * value) :=
  map (fun k => (k, js_get h val (VStr k))) (keysof h val).

(** [o[k] = v] on the entries of a map.  A map without a property of
    its own named [__proto__] reaches the setter of [Object.prototype]
    under that name: a value that is not a node is ignored there and no
    property is made.  A node or null would become the prototype of the
    map; the model keeps no prototype of its own making and leaves the
    entries as they are in that case too. *)
Definition assign_entry (k : string) (v : value) (m : list (string * value))
  : list (string * value) :=
  if String.eqb k "__proto__" && negb (bool_decide (is_Some (assoc_find k m)))
  then m
  else assoc_set k v m.

Definition setprop (h : heap) (parent key val : value) : heap * value :=
  if negb (iskey key) then (h, parent)
  else if ismap h parent then
    let key := to_string h key in
    if is_undef val
    then (store_obj h parent (OMap (assoc_del key (map_entries h parent))), parent)
    else (store_obj h parent (OMap (assign_entry key val (map_entries h parent))), parent)
  else if islist h parent then
    let xs := list_elems h parent in
    let keyI := key_to_number key in
    if is_nan keyI then (h, parent)
    else
      let keyI := Math_floor keyI in
      let len := num_of_nat (length xs) in
      if is_undef val then
        if num_le (num_of_nat 0) keyI && num_lt keyI len
        then (store_obj h parent (OList (list_remove (num_index keyI) xs)), parent)
        else (h, parent)
      else if num_le (num_of_nat 0) keyI then
        let i := if num_lt len keyI then length xs else num_index keyI in
        (store_obj h parent (OList (list_assign i val xs)), parent)
      else (store_obj h parent (OList (val :: xs)), parent)
  else (h, parent).

(** *** Paths *)

Definition stringify (h : heap) (val : value) (maxlen : option nat) : string :=
  if is_undef val then S_MT
  else
    let str := remove_char S_QUOTE (json_text h val) in
    match maxlen with
    | Some n =>
        let js := String.substring 0 n str in
        if (n <? String.length str)%nat
        then String.substring 0 (n - 3) js +:+ "..." else str
    | None => str
    end.

Definition pathify (h : heap) (val : jspath) (from : option Z) : string :=
  let path :=
    match val with
    | PathList l => Some l
    | PathStr s => Some [VStr s]
    | PathOther (VNum n) => Some [VNum n]
    | PathOther _ => None
    end in
  let start :=
    match from with
    | None => 0%Z
    | Some f => if (-1 <? f)%Z then f else 0%Z
    end in
  match path with
  | Some path =>
      let path := drop (Z.to_nat start) path in
      if Nat.eqb 0 (length path) then "<root>"
      else
        join_strings S_DT
          (omap (fun p =>
                   match p with
                   | VStr s => Some (remove_char "." s)
                   | VNum n => Some (S_MT +:+ num_to_string h (Math_floor n))
                   | _ => None
                   end) path)
  | None =>
      "<unknown-path"
      +:+ match val with
          | PathOther v =>
              if is_undef v then S_MT else ":" +:+ stringify h v (Some 47%nat)
          | _ => S_MT
          end
      +:+ ">"
  end.

(** The loop [for (pI++; UNDEF !== val && pI < parts.length; pI++)]
    over the parts still to visit. *)
Fixpoint descend (h : heap) (val : value) (parts : list value) : value :=
  match parts with
  | [] => val
  | part :: rest =>
      if is_undef val then val
      else descend h (getprop h val part VUndef) rest
  end.

Definition path_is_null (path : jspath) : bool :=
  match path with
  | PathOther v => is_nullish v
  | _ => false
  end.

Definition getpath (h : heap) (path : jspath) (store current state : value)
  : result (heap * value) :=
  match path_parts path with
  | None => Ret (h, VUndef)
  | Some parts =>
      let base := getprop h state (VStr "base") VUndef in
      let val :=
        if path_is_null path || is_nullish store
           || (Nat.eqb 1 (length parts)
               && value_eqb (VStr S_MT) (default VUndef (parts !! 0%nat)))
        then getprop h store base store
        else if (0 <? length parts)%nat then
          let local := value_eqb (VStr S_MT) (default VUndef (parts !! 0%nat)) in
          let pI := if local then 1%nat else 0%nat in
          let root := if local then current else store in
          let part := default VUndef (parts !! pI) in
          let first := getprop h root part VUndef in
          let val :=
            if is_undef first && Nat.eqb 0 pI
            then getprop h (getprop h root base VUndef) part VUndef
            else first in
          descend h val (drop (S pI) parts)
        else store in
      if negb (is_nullish state) && isfunc (js_get h state (VStr "handler")) then
        let ref := pathify h path None in
        match js_get h state (VStr "handler") with
        | VFun f => call_fn f [state; val; current; VStr ref; store] h
        | _ => Ret (h, val)
        end
      else Ret (h, val)
  end.

(** *** walk *)

(** [apply] may keep state of its own (a closure's variables) next to
    the store.  [key] is [VUndef] and [path] is empty at the root. *)
Definition WalkApply (S : Type) : Type :=
  S -> heap -> value -> value -> value -> list string ->
  result (S * heap * value).

Fixpoint walk {S : Type} (fuel : nat) (apply : WalkApply S) (st : S) (h : heap)
  (val key parent : value) (path : list string) : result (S * heap * value) :=
  match fuel with
  | O => OutOfFuel
  | Datatypes.S fuel' =>
      '(st, h) ←
        (if isnode val then
           foldl
             (fun acc (it : string * value) =>
                '(st, h) ← acc;
                let '(ckey, child) := it in
                '(st, h, r) ←
                  walk fuel' apply st h child (VStr ckey) val
                    (path ++ [S_MT +:+ ckey]);
                Ret (st, fst (setprop h val (VStr ckey) r)))
             (Ret (st, h)) (items h val)
         else Ret (st, h));
      apply st h key val parent path
  end.

(** *** merge *)

(** [merger], the visitor [merge] hands to [walk].  Its state is the
    node stack [cur]; [out] is the accumulator it closes over. *)
Definition merger (out : value) : WalkApply (list value) :=
  fun cur h key val parent path =>
    if is_nullish key then Ret (cur, h, val)
    else
      let lenpath := length path in
      let cI := (lenpath - 1)%nat in
      '(h, cur) ←
        (if is_undef (default VUndef (cur !! cI)) then
           '(h, v) ← getpath h (PathList (map VStr (take (lenpath - 1) path)))
                       out VUndef VUndef;
           Ret (h, list_assign cI v cur)
         else Ret (h, cur));
      let '(h, cur) :=
        if negb (isnode (default VUndef (cur !! cI))) then
          let '(h, n) := alloc h (if islist h parent then OList [] else OMap []) in
          (h, list_assign cI n cur)
        else (h, cur) in
      if isnode val && negb (isempty h val) then
        let h := fst (setprop h (default VUndef (cur !! cI)) key
                        (default VUndef (cur !! Datatypes.S cI))) in
        Ret (list_assign (Datatypes.S cI) VUndef cur, h, val)
      else
        let h := fst (setprop h (default VUndef (cur !! cI)) key val) in
        Ret (cur, h, val).

(** The body of the loop [for (oI = 1; oI < lenlist; oI++)]. *)
Definition merge_step (fuel : nat) (h : heap) (out obj : value)
  : result (heap * value) :=
  if negb (isnode obj) then Ret (h, obj)
  else if negb (isnode out)
          || (ismap h obj && islist h out)
          || (islist h obj && ismap h out)
  then Ret (h, obj)
  else
    '(_, h, _) ← walk fuel (merger out) [out] h obj VUndef VUndef [];
    Ret (h, out).

(** The loop itself, with [rem] iterations left; [list[oI]] is read
    from the store at each iteration. *)
Fixpoint merge_loop (fuel rem : nat) (h : heap) (list : value) (oI : nat)
  (out : value) : result (heap * value) :=
  match rem with
  | O => Ret (h, out)
  | Datatypes.S rem' =>
      let obj := default VUndef (list_elems h list !! oI) in
      '(h, out) ← merge_step fuel h out obj;
      merge_loop fuel rem' h list (Datatypes.S oI) out
  end.

Definition merge (fuel : nat) (h : heap) (val : value) : result (heap * value) :=
  if negb (islist h val) then Ret (h, val)
  else
    let lenlist := length (list_elems h val) in
    if Nat.eqb 0 lenlist then Ret (h, VUndef)
    else if Nat.eqb 1 lenlist then Ret (h, default VUndef (list_elems h val !! 0%nat))
    else
      let '(h, alt) := alloc h (OMap []) in
      let out := getprop h val (VNum (num_of_nat 0)) alt in
      merge_loop fuel (lenlist - 1) h val 1 out.

(** *** clone *)

(** [JSON.stringify(val, replacer)]: [refs] collects the function
    values met, each replaced by its marker string.  [None] stands for
    a value [JSON.stringify] leaves out.  ([toJSON] hooks are outside
    the model.) *)
Fixpoint to_json (fuel : nat) (h : heap) (refs : list value) (v : value)
  : result (list value * option json) :=
  match fuel with
  | O => OutOfFuel
  | Datatypes.S fuel' =>
      match v with
      | VUndef => Ret (refs, None)
      | VNull => Ret (refs, Some JNull)
      | VBool b => Ret (refs, Some (JBool b))
      | VNum (Fin q) => Ret (refs, Some (JNum (Fin q)))
      | VNum _ => Ret (refs, Some JNull)
      | VStr s => Ret (refs, Some (JStr s))
      | VFun f => Ret (refs ++ [v], Some (JStr (func_marker (length refs))))
      | VRef l =>
          match h !! l with
          | Some (OList xs) =>
              '(refs, js) ←
                foldl
                  (fun acc x =>
                     '(refs, js) ← acc;
                     '(refs, j) ← to_json fuel' h refs x;
                     Ret (refs, js ++ [default JNull j]))
                  (Ret (refs, [])) xs;
              Ret (refs, Some (JArr js))
          | Some (OMap m) =>
              '(refs, js) ←
                foldl
                  (fun acc k =>
                     '(refs, js) ← acc;
                     '(refs, j) ← to_json fuel' h refs (default VUndef (assoc_find k m));
                     Ret (refs, match j with
                                | Some j => js ++ [(k, j)]
                                | None => js
                                end))
                  (Ret (refs, [])) (Object_keys_map m);
              Ret (refs, Some (JObj js))
          | None => Ret (refs, Some (JObj []))
          end
      end
  end.

(** [reviver] on a string: a marker gives back the function it stands for. *)
Definition revive (refs : list value) (s : string) : value :=
  match marker_digits s with
  | Some ds =>
      match array_index ds with
      | Some i => default VUndef (refs !! i)
      | None => VUndef
      end
  | None => VStr s
  end.

(** [JSON.parse(text, reviver)]: fresh nodes in the store. *)
Fixpoint from_json (h : heap) (refs : list value) (j : json) : heap * value :=
  match j with
  | JNull => (h, VNull)
  | JBool b => (h, VBool b)
  | JNum n => (h, VNum n)
  | JStr s => (h, revive refs s)
  | JArr js =>
      let '(h, xs) :=
        foldl (fun acc j =>
                 let '(h, xs) := acc in
                 let '(h, x) := from_json h refs j in
                 (h, xs ++ [x]))
              (h, []) js in
      alloc h (OList xs)
  | JObj m =>
      let '(h, es) :=
        foldl (fun acc (kj : string * json) =>
                 let '(h, es) := acc in
                 let '(h, x) := from_json h refs (snd kj) in
                 (h, if is_undef x then es else assoc_set (fst kj) x es))
              (h, []) m in
      alloc h (OMap es)
  end.

Definition clone (fuel : nat) (h : heap) (val : value) : result (heap * value) :=
  if is_undef val then Ret (h, VUndef)
  else
    '(refs, j) ← to_json fuel h [] val;
    match j with
    | Some j => Ret (from_json h refs j)
    | None => Ret (h, VUndef)
    end.

(** *** The $MERGE directive *)

(** [v.name] as an expression: a TypeError on undefined or null. *)
Definition member (h : heap) (v : value) (name : string) : result value :=
  if is_nullish v
  then Throw ("TypeError: cannot read property " +:+ name)
  else Ret (js_get h v (VStr name)).

(** [transform_MERGE (state, _val, current)].  The injection state is
    the JavaScript object the engine passes around, so it is a node
    of the store like any other. *)
Definition transform_MERGE (fuel : nat) (h : heap) (state _val current : value)
  : result (heap * value) :=
  mode ← member h state "mode";
  key ← member h state "key";
  parent ← member h state "parent";
  if value_eqb (VStr S_MKEYPRE) mode then Ret (h, key)
  else if value_eqb (VStr S_MKEYPOST) mode then
    let args := getprop h parent key VUndef in
    '(h, args) ←
      (if value_eqb (VStr S_MT) args then
         top ← member h current "$TOP";
         Ret (alloc h (OList [top]))
       else if Array_isArray h args then Ret (h, args)
       else Ret (alloc h (OList [args])));
    let h := fst (setprop h parent key VUndef) in
    let spread := list_elems h args in
    '(h, copy) ← clone fuel h parent;
    let '(h, mergelist) := alloc h (OList (parent :: spread ++ [copy])) in
    '(h, _) ← merge fuel h mergelist;
    Ret (h, key)
  else Ret (h, VUndef).

(** *** inject: the order in which the keys of a node are visited *)

(** [origkeys], computed by [inject] once [isnode(val)] holds. *)
Definition origkeys (h : heap) (val : value) : list value :=
  if ismap h val then
    map VStr
      (List.filter (fun k => negb (str_includes S_DS k)) (Object_keys h val)
       ++ sort_strings (List.filter (fun k => str_includes S_DS k) (Object_keys h val)))
  else map (fun i : nat => VNum (num_of_nat i)) (seq 0 (length (list_elems h val))).

(** *** What validate prepares for the engine *)

Definition truthy (v : value) : bool :=
  match v with
  | VUndef | VNull | VBool false | VNum NaN | VStr "" => false
  | VNum (Fin q) => negb (Qeq_bool q 0)
  | _ => true
  end.

(** The own enumerable properties [{...v}] copies. *)
Definition spread_props (h : heap) (v : value) : list (string * value) :=
  match v with
  | VRef l =>
      match h !! l with
      | Some o => map (fun k => (k, own_get o k)) (Object_keys_obj o)
      | None => []
      end
  | VStr s =>
      imap (fun i c => (pretty i, VStr (String c EmptyString)))
        (String.list_ascii_of_string s)
  | _ => []
  end.

(** An object literal: a repeated key keeps its first place and its
    last value. *)
Definition object_literal (es : list (string * value)) : obj :=
  OMap (foldl (fun m kv => assoc_set (fst kv) (snd kv) m) [] es).

Definition validate_directives (errs : value) : list (string * value) :=
  [ ("$ERRS", errs);
    ("$DELETE", VNull); ("$COPY", VNull); ("$KEY", VNull); ("$META", VNull);
    ("$MERGE", VNull); ("$EACH", VNull); ("$PACK", VNull);
    ("$STRING", VFun "validate_STRING"); ("$NUMBER", VFun "validate_NUMBER");
    ("$BOOLEAN", VFun "validate_BOOLEAN"); ("$OBJECT", VFun "validate_OBJECT");
    ("$ARRAY", VFun "validate_ARRAY"); ("$FUNCTION", VFun "validate_FUNCTION");
    ("$ANY", VFun "validate_ANY"); ("$CHILD", VFun "validate_CHILD");
    ("$ONE", VFun "validate_ONE") ].

(** [errs.join('\n')]: undefined and null elements give the empty string. *)
Definition S_NL : string := String (ascii_of_nat 10) EmptyString.

Definition join_values (h : heap) (sep : string) (l : list value) : string :=
  join_strings sep
    (map (fun v => if is_nullish v then S_MT else to_string h v) l).

(** [v.length] where [v] is not null or absent: a string has its
    length, a node its own [length] property. *)
Definition js_length (h : heap) (v : value) : value :=
  match v with
  | VStr s => VNum (num_of_nat (String.length s))
  | _ => js_get h v (VStr "length")
  end.

(** [0 < v.length]. *)
Definition has_length (h : heap) (v : value) : bool :=
  match js_length h v with
  | VNum n => num_lt (num_of_nat 0) n
  | _ => false
  end.

(** [const errs = collecterrs || []]. *)
Definition errs_init (h : heap) (collecterrs : value) : heap * value :=
  if truthy collecterrs then (h, collecterrs) else alloc h (OList []).

(** The [extra] argument [validate] builds for [transform]: the error
    list, the transform directives switched off, the validation
    directives, then whatever the caller's own [extra] holds. *)
Definition checks_init (h : heap) (errs extra : value) : heap * value :=
  let '(h, extra) :=
    if truthy extra then (h, extra) else alloc h (OMap []) in
  alloc h (object_literal (validate_directives errs ++ spread_props h extra)).

(** *** The other directives and the default handler *)

(** [S_MKEY], [S_DKEY], [S_DMETA] and [S_KEY] of the source. *)
Definition S_MKEY := "key".
Definition S_DKEY := "`$KEY`".
Definition S_DMETA := "`$META`".
Definition S_KEY := "KEY".

(** [injecthandler (state, val, current, ref, store)]. *)
Definition injecthandler (h : heap) (state val current ref store : value)
  : result (heap * value) :=
  starts ←
    (if isfunc val && negb (is_undef ref) then
       match ref with
       | VStr r => Ret (String.prefix S_DS r)
       | _ => Throw "TypeError: ref.startsWith is not a function"
       end
     else Ret false);
  if isfunc val && (is_undef ref || starts) then
    match val with
    | VFun f => call_fn f [state; val; current; ref; store] h
    | _ => Ret (h, val)
    end
  else
    mode ← member h state "mode";
    if value_eqb (VStr S_MVAL) mode then
      full ← member h state "full";
      if truthy full then
        parent ← member h state "parent";
        key ← member h state "key";
        Ret (fst (setprop h parent key val), val)
      else Ret (h, val)
    else Ret (h, val).

(** [transform_DELETE (state)]. *)
Definition transform_DELETE (h : heap) (state : value) : result (heap * value) :=
  key ← member h state "key";
  parent ← member h state "parent";
  Ret (fst (setprop h parent key VUndef), VUndef).

(** [transform_COPY (state, _val, current)]. *)
Definition transform_COPY (h : heap) (state _val current : value)
  : result (heap * value) :=
  mode ← member h state "mode";
  key ← member h state "key";
  parent ← member h state "parent";
  starts ←
    match mode with
    | VStr m => Ret (String.prefix S_MKEY m)
    | _ => Throw "TypeError: mode.startsWith is not a function"
    end;
  if negb starts then
    let out := getprop h current key VUndef in
    Ret (fst (setprop h parent key out), out)
  else Ret (h, key).

(** [v.length] as an expression: a TypeError on undefined or null. *)
Definition member_length (h : heap) (v : value) : result value :=
  if is_nullish v then Throw "TypeError: cannot read property length"
  else Ret (js_length h v).

(** The number a value stands for in arithmetic: a node goes through
    its string. *)
Definition to_number (h : heap) (v : value) : number :=
  match v with
  | VNum n => n
  | VUndef => NaN
  | VNull => num_of_nat 0
  | VBool b => num_of_nat (if b then 1 else 0)
  | VStr s => str_to_number s
  | _ => str_to_number (to_string h v)
  end.

(** [v - 2]. *)
Definition num_minus_two (h : heap) (v : value) : value :=
  match to_number h v with
  | Fin q => VNum (Fin (q - 2))
  | n => VNum n
  end.

(** [transform_KEY (state, _val, current)]. *)
Definition transform_KEY (h : heap) (state _val current : value)
  : result (heap * value) :=
  mode ← member h state "mode";
  path ← member h state "path";
  parent ← member h state "parent";
  if negb (value_eqb (VStr S_MVAL) mode) then Ret (h, VUndef)
  else
    let keyspec := getprop h parent (VStr S_DKEY) VUndef in
    if negb (is_undef keyspec) then
      let h := fst (setprop h parent (VStr S_DKEY) VUndef) in
      Ret (h, getprop h current keyspec VUndef)
    else
      len ← member_length h path;
      Ret (h, getprop h (getprop h parent (VStr S_DMETA) VUndef) (VStr S_KEY)
                (getprop h path (num_minus_two h len) VUndef)).

(** [transform_META (state)]. *)
Definition transform_META (h : heap) (state : value) : result (heap * value) :=
  parent ← member h state "parent";
  Ret (fst (setprop h parent (VStr S_DMETA) VUndef), VUndef).

(** *** The type-checking directives of validate *)

(** A value handed to [pathify]: a list gives its elements. *)
Definition as_jspath (h : heap) (v : value) : jspath :=
  if Array_isArray h v then PathList (list_elems h v)
  else match v with
       | VStr s => PathStr s
       | _ => PathOther v
       end.

(** [_invalidTypeMsg (path, type, vt, v)].  [stringify] gives a string,
    so the test [null != v] of the source always holds. *)
Definition _invalidTypeMsg (h : heap) (path : value) (type vt : string) (v : value)
  : string :=
  let vt := if Array_isArray h v && String.eqb "object" vt then "array" else vt in
  let v := stringify h v None in
  "Expected " +:+ type +:+ " at " +:+ pathify h (as_jspath h path) (Some 1%Z)
  +:+ ", found " +:+ (vt +:+ ": ") +:+ v.

(** [state.errs.push(msg)]: a list gets the message at its end; an
    object with a function of its own under [push] has it called. *)
Definition errs_push (h : heap) (state : value) (msg : string) : result heap :=
  errs ← member h state "errs";
  if is_nullish errs then Throw "TypeError: cannot read property push"
  else if Array_isArray h errs
  then Ret (store_obj h errs (OList (list_elems h errs ++ [VStr msg])))
  else
    match js_get h errs (VStr "push") with
    | VFun f => '(h, _) ← call_fn f [VStr msg] h; Ret h
    | _ => Throw "TypeError: state.errs.push is not a function"
    end.

(** [validate_STRING (state, _val, current)]. *)
Definition validate_STRING (h : heap) (state _val current : value)
  : result (heap * value) :=
  key ← member h state "key";
  let out := getprop h current key VUndef in
  let t := typeof out in
  if String.eqb "string" t then
    if value_eqb (VStr S_MT) out then
      path ← member h state "path";
      h ← errs_push h state ("Empty string at " +:+ pathify h (as_jspath h path) (Some 1%Z));
      Ret (h, VUndef)
    else Ret (h, out)
  else
    path ← member h state "path";
    h ← errs_push h state (_invalidTypeMsg h path "string" t out);
    Ret (h, VUndef).

(** [validate_NUMBER (state, _val, current)]. *)
Definition validate_NUMBER (h : heap) (state _val current : value)
  : result (heap * value) :=
  key ← member h state "key";
  let out := getprop h current key VUndef in
  let t := typeof out in
  if negb (String.eqb "number" t) then
    path ← member h state "path";
    h ← errs_push h state (_invalidTypeMsg h path "number" t out);
    Ret (h, VUndef)
  else Ret (h, out).

(** [validate_BOOLEAN (state, _val, current)]. *)
Definition validate_BOOLEAN (h : heap) (state _val current : value)
  : result (heap * value) :=
  key ← member h state "key";
  let out := getprop h current key VUndef in
  let t := typeof out in
  if negb (String.eqb "boolean" t) then
    path ← member h state "path";
    h ← errs_push h state (_invalidTypeMsg h path "boolean" t out);
    Ret (h, VUndef)
  else Ret (h, out).

(** [validate_OBJECT (state, _val, current)]. *)
Definition validate_OBJECT (h : heap) (state _val current : value)
  : result (heap * value) :=
  key ← member h state "key";
  let out := getprop h current key VUndef in
  let t := typeof out in
  if is_nullish out || negb (String.eqb "object" t) then
    path ← member h state "path";
    h ← errs_push h state (_invalidTypeMsg h path "object" t out);
    Ret (h, VUndef)
  else Ret (h, out).

(** [validate_ARRAY (state, _val, current)]. *)
Definition validate_ARRAY (h : heap) (state _val current : value)
  : result (heap * value) :=
  key ← member h state "key";
  let out := getprop h current key VUndef in
  let t := typeof out in
  if negb (Array_isArray h out) then
    path ← member h state "path";
    h ← errs_push h state (_invalidTypeMsg h path "array" t out);
    Ret (h, VUndef)
  else Ret (h, out).

(** [validate_FUNCTION (state, _val, current)]. *)
Definition validate_FUNCTION (h : heap) (state _val current : value)
  : result (heap * value) :=
  key ← member h state "key";
  let out := getprop h current key VUndef in
  let t := typeof out in
  if negb (String.eqb "function" t) then
    path ← member h state "path";
    h ← errs_push h state (_invalidTypeMsg h path "function" t out);
    Ret (h, VUndef)
  else Ret (h, out).

(** [validate_ANY (state, _val, current)]. *)
Definition validate_ANY (h : heap) (state _val current : value)
  : result (heap * value) :=
  key ← member h state "key";
  Ret (h, getprop h current key VUndef).

(** [_typify (val)]. *)
Definition _typify (h : heap) (val : value) : string :=
  if is_nullish val then "null"
  else if Array_isArray h val then "array"
  else typeof val.

(** *** Patterns and URLs *)

(** The characters of the class [[.*+?^${}()|[\]\\]]. *)
Definition is_re_special (c : ascii) : bool :=
  existsb (Ascii.eqb c) (String.list_ascii_of_string ".*+?^${}()|[]\").

(** [s.replace(/[.*+?^${}()|[\]\\]/g, '\\$&')]. *)
Fixpoint escape_specials (s : string) : string :=
  match s with
  | EmptyString => EmptyString
  | String c r =>
      if is_re_special c then String "\" (String c (escape_specials r))
      else String c (escape_specials r)
  end.

(** [escre (s)]. *)
Definition escre (s : value) : result string :=
  match s with
  | VUndef | VNull => Ret (escape_specials S_MT)
  | VStr s => Ret (escape_specials s)
  | _ => Throw "TypeError: s.replace is not a function"
  end.

(** [s.replace(/^\/+/, '')]. *)
Fixpoint strip_leading_slashes (s : string) : string :=
  match s with
  | EmptyString => EmptyString
  | String c r => if Ascii.eqb c "/" then strip_leading_slashes r else s
  end.

(** [s.replace(/\/+$/, '')]. *)
Fixpoint strip_trailing_slashes (s : string) : string :=
  match s with
  | EmptyString => EmptyString
  | String c r =>
      let r' := strip_trailing_slashes r in
      if Ascii.eqb c "/" && String.eqb r' "" then EmptyString else String c r'
  end.

(** [s.replace(/([^\/])\/+/, '$1/')]: the first run of slashes that
    follows another character becomes one slash. *)
Fixpoint collapse_first_slashes (s : string) : string :=
  match s with
  | EmptyString => EmptyString
  | String c r =>
      if negb (Ascii.eqb c "/") && String.prefix "/" r
      then String c (String "/" (strip_leading_slashes r))
      else String c (collapse_first_slashes r)
  end.

(** The [map] step of [joinurl], [first] telling whether the index is 0. *)
Fixpoint url_parts (first : bool) (l : list value) : result (list string) :=
  match l with
  | [] => Ret []
  | VStr s :: l' =>
      let s := collapse_first_slashes s in
      let s := if first then s else strip_leading_slashes s in
      rest ← url_parts false l';
      Ret (strip_trailing_slashes s :: rest)
  | _ :: _ => Throw "TypeError: s.replace is not a function"
  end.

(** [joinurl (sarr)], on the elements of the array. *)
Definition joinurl (sarr : list value) : result string :=
  parts ←
    url_parts true
      (List.filter (fun s => negb (is_nullish s) && negb (value_eqb (VStr S_MT) s))
         sarr);
  Ret (join_strings "/" (List.filter (fun s => negb (String.eqb S_MT s)) parts)).

(** *** Injection into strings *)

Definition S_BT : ascii := "`".

Definition is_upper (c : ascii) : bool :=
  let n := N_of_ascii c in ((65 <=? n) && (n <=? 90))%N.

Definition is_digit (c : ascii) : bool :=
  let n := N_of_ascii c in ((48 <=? n) && (n <=? 57))%N.

(** The longest prefix whose characters satisfy [p], and the rest. *)
Fixpoint span (p : ascii -> bool) (s : string) : string * string :=
  match s with
  | EmptyString => (EmptyString, EmptyString)
  | String c r =>
      if p c then let '(a, b) := span p r in (String c a, b)
      else (EmptyString, s)
  end.

(** Group 1 of the match of [/^`(\$[A-Z]+|[^`]+)[0-9]*`$/], if the
    string matches.  A match is a backtick, a non-empty text without
    backticks and a closing backtick at the end.  The first
    alternative is tried first: when the text is a dollar sign, capital
    letters and then nothing but digits, the group is the text without
    those digits.  Otherwise the second alternative takes the whole
    text, trailing digits included. *)
Definition full_injection (val : string) : option string :=
  match val with
  | String c rest =>
      if Ascii.eqb c S_BT then
        let '(m, tl) := span (fun c => negb (Ascii.eqb c S_BT)) rest in
        if String.eqb tl "`" && negb (String.eqb m "") then
          match m with
          | String d r =>
              let '(u, r1) := span is_upper r in
              let '(_, r2) := span is_digit r1 in
              if Ascii.eqb d "$" && negb (String.eqb u "") && String.eqb r2 ""
              then Some (String d u) else Some m
          | EmptyString => None
          end
        else None
      else None
  | EmptyString => None
  end.

(** [s.replace(/abc/g, rep)] for a pattern of three characters. *)
Fixpoint replace3 (a b c rep : ascii) (s : string) : string :=
  match s with
  | String x ((String y (String z r2)) as r) =>
      if Ascii.eqb x a && Ascii.eqb y b && Ascii.eqb z c
      then String rep (replace3 a b c rep r2)
      else String x (replace3 a b c rep r)
  | String x r => String x (replace3 a b c rep r)
  | EmptyString => EmptyString
  end.

(** [3 < ref.length ? ref.replace(/\$BT/g, S_BT).replace(/\$DS/g, S_DS) : ref]. *)
Definition unescape_ref (ref : string) : string :=
  if (3 <? String.length ref)%nat
  then replace3 "$" "D" "S" "$" (replace3 "$" "B" "T" S_BT ref)
  else ref.

(** [state.name = v] where [state] passed the test before it.  The
    injection state is a map; a list or a function has no place for
    the property in this model, and a primitive raises the TypeError
    of strict mode. *)
Definition set_member (h : heap) (state : value) (name : string) (v : value)
  : result heap :=
  match state with
  | VRef l =>
      match h !! l with
      | Some (OMap m) => Ret (<[l := OMap (assoc_set name v m)]> h)
      | _ => Ret h
      end
  | VFun _ => Ret h
  | _ => Throw ("TypeError: cannot create property " +:+ name)
  end.

(** What the matches of [/`([^`]+)`/g] cut a string into. *)
Inductive piece :=
| Lit (s : string)
| Ref (s : string).

(** The scan of [/`([^`]+)`/g], one character at a time: [lit] is the
    text passed since the last match, [open] the reference read since
    a backtick that may open one.  A backtick met right after such a
    backtick makes the earlier one plain text and may open a reference
    itself; at the end an open reference is plain text as well. *)
Fixpoint scan_injections (s lit : string) (open : option string) : list piece :=
  match s with
  | EmptyString =>
      [Lit (lit +:+ match open with
                    | Some r => String S_BT r
                    | None => EmptyString
                    end)]
  | String c rest =>
      if Ascii.eqb c S_BT then
        match open with
        | None => scan_injections rest lit (Some EmptyString)
        | Some EmptyString =>
            scan_injections rest (lit +:+ String S_BT EmptyString) (Some EmptyString)
        | Some r => Lit lit :: Ref r :: scan_injections rest EmptyString None
        end
      else
        match open with
        | None => scan_injections rest (lit +:+ String c EmptyString) None
        | Some r => scan_injections rest lit (Some (r +:+ String c EmptyString))
        end
  end.

(** The text the replacer function gives for what was found. *)
Definition injected_text (h : heap) (found : value) : string :=
  if is_undef found then S_MT
  else if String.eqb "object" (typeof found) then json_stringify h found
  else to_string h found.

(** [val.replace(/`([^`]+)`/g, (_m, ref) => ...)], the replacer being
    called match after match. *)
Fixpoint inject_pieces (h : heap) (ps : list piece) (store current state : value)
  : result (heap * string) :=
  match ps with
  | [] => Ret (h, EmptyString)
  | Lit s :: ps' =>
      '(h, t) ← inject_pieces h ps' store current state;
      Ret (h, s +:+ t)
  | Ref ref :: ps' =>
      let ref := unescape_ref ref in
      h ← (if truthy state then set_member h state "full" (VBool false)
           else Ret h);
      '(h, found) ← getpath h (PathStr ref) store current state;
      let text := injected_text h found in
      '(h, t) ← inject_pieces h ps' store current state;
      Ret (h, text +:+ t)
  end.

(** [_injectstr (val, store, current, state)]. *)
Definition _injectstr (h : heap) (val store current state : value)
  : result (heap * value) :=
  match val with
  | VStr s =>
      match full_injection s with
      | Some pathref =>
          h ← (if truthy state then set_member h state "full" (VBool true)
               else Ret h);
          let pathref := unescape_ref pathref in
          getpath h (PathStr pathref) store current state
      | None =>
          '(h, out) ← inject_pieces h (scan_injections s EmptyString None)
                        store current state;
          if negb (is_nullish state) && isfunc (js_get h state (VStr "handler"))
          then
            h ← set_member h state "full" (VBool true);
            match js_get h state (VStr "handler") with
            | VFun f => call_fn f [state; VStr out; current; val; store] h
            | _ => Ret (h, VStr out)
            end
          else Ret (h, VStr out)
      end
  | _ => Ret (h, VStr S_MT)
  end.

(** *** The generic check of validate *)

(** [delete v[name]]. *)
Definition delete_member (h : heap) (v : value) (name : string) : heap :=
  match v with
  | VRef l =>
      match h !! l with
      | Some (OMap m) => <[l := OMap (assoc_del name m)]> h
      | _ => h
      end
  | _ => h
  end.

(** [validation (val, key, parent, state, current, _store)], the
    [modify] function [validate] hands to the injection engine. *)
Definition validation (fuel : nat) (h : heap)
    (val key parent state current _store : value) : result (heap * value) :=
  let cval := getprop h current key VUndef in
  if is_undef cval || is_undef state then Ret (h, VUndef)
  else
    let pval := getprop h parent key VUndef in
    let t := typeof pval in
    if String.eqb "string" t
       && match pval with VStr s => str_includes S_DS s | _ => false end
    then Ret (h, VUndef)
    else
      let ct := typeof cval in
      if negb (String.eqb t ct) && negb (is_undef pval) then
        path ← member h state "path";
        h ← errs_push h state (_invalidTypeMsg h path t ct cval);
        Ret (h, VUndef)
      else if ismap h cval then
        if negb (ismap h val) then
          path ← member h state "path";
          h ← errs_push h state
                (_invalidTypeMsg h path (if islist h val then "array" else t) ct cval);
          Ret (h, VUndef)
        else
          let ckeys := keysof h cval in
          let pkeys := keysof h pval in
          if (0 <? length pkeys)%nat
             && negb (value_eqb (VBool true) (getprop h pval (VStr "`$OPEN`") VUndef))
          then
            let badkeys :=
              List.filter (fun ckey => negb (haskey h val (VStr ckey))) ckeys in
            if (0 <? length badkeys)%nat then
              path ← member h state "path";
              h ← errs_push h state
                    ("Unexpected keys at " +:+ pathify h (as_jspath h path) (Some 1%Z)
                     +:+ ": " +:+ join_strings ", " badkeys);
              Ret (h, VUndef)
            else Ret (h, VUndef)
          else
            let '(h, both) := alloc h (OList [pval; cval]) in
            '(h, _) ← merge fuel h both;
            let h := if isnode pval then delete_member h pval "`$OPEN`" else h in
            Ret (h, VUndef)
      else if islist h cval then
        if negb (islist h val) then
          path ← member h state "path";
          h ← errs_push h state (_invalidTypeMsg h path t ct cval);
          Ret (h, VUndef)
        else Ret (h, VUndef)
      else Ret (fst (setprop h parent key cval), VUndef).

(** *** The injection engine *)

(** [v[n]] for a number [n], where [v] is not null or absent: a string
    has its characters, a node its properties. *)
Definition js_index (h : heap) (v n : value) : value :=
  match v with
  | VStr s =>
      match array_index (to_string h n) with
      | Some i =>
          match String.get i s with
          | Some c => VStr (String c EmptyString)
          | None => VUndef
          end
      | None => VUndef
      end
  | _ => js_get h v n
  end.

(** The elements [[...v]] spreads: those of a list, the characters of a
    string.  Nothing else in this model is iterable. *)
Definition spread_iter (h : heap) (v : value) : result (list value) :=
  if Array_isArray h v then Ret (list_elems h v)
  else
    match v with
    | VStr s =>
        Ret (map (fun c => VStr (String c EmptyString)) (String.list_ascii_of_string s))
    | _ => Throw "TypeError: value is not iterable"
    end.

(** [[...(v || [])]]. *)
Definition spread_or_empty (h : heap) (v : value) : result (list value) :=
  if truthy v then spread_iter h v else Ret [].

(** [a < b] and [a + 1] on values, as numbers. *)
Definition js_lt (h : heap) (a b : value) : bool :=
  num_lt (to_number h a) (to_number h b).

Definition js_succ (h : heap) (a : value) : value :=
  match to_number h a with
  | Fin q => VNum (Fin (q + 1))
  | n => VNum n
  end.

(** [v - 1]. *)
Definition num_minus_one (h : heap) (v : value) : value :=
  match to_number h v with
  | Fin q => VNum (Fin (q - 1))
  | n => VNum n
  end.

(** [o[k] = v] on a map. *)
Definition assign_member (h : heap) (o : value) (k : string) (v : value) : heap :=
  match o with
  | VRef l =>
      match h !! l with
      | Some (OMap m) => <[l := OMap (assign_entry k v m)]> h
      | _ => h
      end
  | _ => h
  end.

(** [inject (val, store, modify, current, state)].  The injection
    states are the JavaScript objects of the source: maps in the store,
    read and written through their properties, since the handlers the
    engine calls read and change them.  The [handler] of a state is
    [injecthandler] and [modify] is a function value: both are entered
    through [call_fn].  The loop index [okI] is a value, since it is
    read back from [childstate.keyI], which a handler may have set. *)
Fixpoint inject (fuel : nat) (h : heap) (val store modify current state : value)
  {struct fuel} : result (heap * value) :=
  match fuel with
  | O => OutOfFuel
  | Datatypes.S fuel' =>
      let '(h, state) :=
        if is_undef state then
          let '(h, parent) := alloc h (OMap [(S_DTOP, val)]) in
          let '(h, keys) := alloc h (OList [VStr S_DTOP]) in
          let '(h, path) := alloc h (OList [VStr S_DTOP]) in
          let '(h, nodes) := alloc h (OList [parent]) in
          let '(h, noerrs) := alloc h (OList []) in
          let errs := getprop h store (VStr S_DERRS) noerrs in
          let '(h, meta) := alloc h (OMap []) in
          alloc h
            (object_literal
               [ ("mode", VStr S_MVAL); ("full", VBool false);
                 ("keyI", VNum (num_of_nat 0)); ("keys", keys);
                 ("key", VStr S_DTOP); ("val", val); ("parent", parent);
                 ("path", path); ("nodes", nodes);
                 ("handler", VFun "injecthandler"); ("base", VStr S_DTOP);
                 ("modify", modify); ("errs", errs); ("meta", meta) ])
        else (h, state) in
      '(h, current) ←
        (if is_undef current then Ret (alloc h (OMap [(S_DTOP, store)]))
         else
           path ← member h state "path";
           len ← member_length h path;
           let parentkey := js_index h path (num_minus_two h len) in
           Ret (h, if is_nullish parentkey then current
                   else getprop h current parentkey VUndef));
      '(h, val) ←
        (if isnode val then
           let '(h, okeys) := alloc h (OList (origkeys h val)) in
           h ← (fix loop (n : nat) (h : heap) (okI : value) {struct n}
                  : result heap :=
                  match n with
                  | O => OutOfFuel
                  | Datatypes.S n' =>
                      if js_lt h okI (js_length h okeys) then
                        let origkey := S_MT +:+ to_string h (js_get h okeys okI) in
                        spath ← member h state "path";
                        ps ← spread_or_empty h spath;
                        let '(h, childpath) := alloc h (OList (ps ++ [VStr origkey])) in
                        snodes ← member h state "nodes";
                        ns ← spread_or_empty h snodes;
                        let '(h, childnodes) := alloc h (OList (ns ++ [val])) in
                        base ← member h state "base";
                        errs ← member h state "errs";
                        meta ← member h state "meta";
                        let '(h, childstate) :=
                          alloc h
                            (object_literal
                               [ ("mode", VStr S_MKEYPRE); ("full", VBool false);
                                 ("keyI", okI); ("keys", okeys);
                                 ("key", VStr origkey); ("val", val);
                                 ("parent", val); ("path", childpath);
                                 ("nodes", childnodes);
                                 ("handler", VFun "injecthandler");
                                 ("base", base); ("errs", errs); ("meta", meta) ]) in
                        '(h, prekey) ←
                          _injectstr h (VStr origkey) store current childstate;
                        '(h, okI) ←
                          (if negb (is_undef prekey) then
                             let child := getprop h val prekey VUndef in
                             h ← set_member h childstate "mode" (VStr S_MVAL);
                             '(h, _) ← inject fuel' h child store modify current childstate;
                             h ← set_member h childstate "mode" (VStr S_MKEYPOST);
                             '(h, _) ←
                               _injectstr h (VStr origkey) store current childstate;
                             Ret (h, js_get h childstate (VStr "keyI"))
                           else Ret (h, js_get h childstate (VStr "keyI")));
                        loop n' h (js_succ h okI)
                      else Ret h
                  end) fuel' h (VNum (num_of_nat 0));
           Ret (h, val)
         else if String.eqb "string" (typeof val) then
           h ← set_member h state "mode" (VStr S_MVAL);
           '(h, v) ← _injectstr h val store current state;
           parent ← member h state "parent";
           key ← member h state "key";
           Ret (fst (setprop h parent key v), v)
         else Ret (h, val));
      '(h, _) ←
        (if truthy modify then
           match modify with
           | VFun f =>
               call_fn f
                 [ val; getprop h state (VStr "key") VUndef;
                   getprop h state (VStr "parent") VUndef; state; current; store ] h
           | _ => Throw "TypeError: modify is not a function"
           end
         else Ret (h, VUndef));
      parent ← member h state "parent";
      Ret (h, getprop h parent (VStr S_DTOP) VUndef)
  end.

(** The functions [transform] puts in its store, by name. *)
Definition transform_directives (dataClone : value) : list (string * value) :=
  [ ("$TOP", dataClone);
    ("$BT", VFun "$BT"); ("$DS", VFun "$DS"); ("$WHEN", VFun "$WHEN");
    ("$DELETE", VFun "transform_DELETE"); ("$COPY", VFun "transform_COPY");
    ("$KEY", VFun "transform_KEY"); ("$META", VFun "transform_META");
    ("$MERGE", VFun "transform_MERGE"); ("$EACH", VFun "transform_EACH");
    ("$PACK", VFun "transform_PACK") ].

(** [transform (data, spec, extra, modify)]. *)
Definition transform (fuel : nat) (h : heap) (data spec extra modify : value)
  : result (heap * value) :=
  '(h, spec) ← clone fuel h spec;
  let '(h, extraTransforms) := alloc h (OMap []) in
  let '(h, extraData) :=
    if is_nullish extra then alloc h (OMap [])
    else
      let '(h, a) := alloc h (OMap []) in
      (foldl (fun h n =>
                if String.prefix S_DS (fst n)
                then assign_member h extraTransforms (fst n) (snd n)
                else assign_member h a (fst n) (snd n))
         h (items h extra), a) in
  '(h, extraClone) ← clone fuel h extraData;
  '(h, dataCopy) ←
    (if is_undef data
     then let '(h, e) := alloc h (OMap []) in clone fuel h e
     else clone fuel h data);
  let '(h, both) := alloc h (OList [extraClone; dataCopy]) in
  '(h, dataClone) ← merge fuel h both;
  let '(h, store) :=
    alloc h
      (object_literal
         (transform_directives dataClone ++ spread_props h extraTransforms)) in
  inject fuel h spec store modify store VUndef.

(** [validate (data, spec, extra, collecterrs)]. *)
Definition validate (fuel : nat) (h : heap) (data spec extra collecterrs : value)
  : result (heap * value) :=
  let '(h, errs) := errs_init h collecterrs in
  let '(h, checks) := checks_init h errs extra in
  '(h, out) ← transform fuel h data spec checks (VFun "validation");
  if has_length h errs && is_nullish collecterrs
  then Throw ("Invalid data: " +:+ join_values h S_NL (list_elems h errs))
  else Ret (h, out).

(** *** The $ONE check *)

(** [parent.slice(1)]: a list gives a new list, a string its tail; any
    other value has a [slice] only as a property of its own. *)
Definition slice_rest (h : heap) (v : value) : result (heap * value) :=
  if is_nullish v then Throw "TypeError: cannot read property slice"
  else if Array_isArray h v then Ret (alloc h (OList (drop 1 (list_elems h v))))
  else
    match v with
    | VStr s => Ret (h, VStr (String.substring 1 (String.length s - 1) s))
    | _ =>
        match js_get h v (VStr "slice") with
        | VFun f => call_fn f [VNum (num_of_nat 1)] h
        | _ => Throw "TypeError: parent.slice is not a function"
        end
    end.

(** [v.slice(0, v.length - 1)]. *)
Definition slice_front (h : heap) (v : value) : result (heap * value) :=
  if is_nullish v then Throw "TypeError: cannot read property slice"
  else if Array_isArray h v
  then Ret (alloc h (OList (take (length (list_elems h v) - 1) (list_elems h v))))
  else
    match v with
    | VStr s => Ret (h, VStr (String.substring 0 (String.length s - 1) s))
    | _ =>
        match js_get h v (VStr "slice") with
        | VFun f => call_fn f [VNum (num_of_nat 0); num_minus_one h (js_length h v)] h
        | _ => Throw "TypeError: path.slice is not a function"
        end
    end.

Definition to_lower (c : ascii) : ascii :=
  if is_upper c then ascii_of_N (N_of_ascii c + 32) else c.

Fixpoint lower_string (s : string) : string :=
  match s with
  | EmptyString => EmptyString
  | String c r => String (to_lower c) (lower_string r)
  end.

(** [s.replace(/`\$([A-Z]+)`/g, (_m, p1) => p1.toLowerCase())], one
    character at a time.  [pend] is what a match under way has read:
    nothing, a backtick, or a backtick, a dollar sign and the capital
    letters [u].  A match that fails gives its text back unchanged; the
    backtick that made it fail may open the next one. *)
Fixpoint lower_commands (s : string) (pend : option (option string)) : string :=
  match s with
  | EmptyString =>
      match pend with
      | None => EmptyString
      | Some None => "`"
      | Some (Some u) => "`$" +:+ u
      end
  | String c r =>
      match pend with
      | None =>
          if Ascii.eqb c S_BT then lower_commands r (Some None)
          else String c (lower_commands r None)
      | Some None =>
          if Ascii.eqb c "$" then lower_commands r (Some (Some EmptyString))
          else if Ascii.eqb c S_BT then String S_BT (lower_commands r (Some None))
          else String S_BT (String c (lower_commands r None))
      | Some (Some u) =>
          if is_upper c then lower_commands r (Some (Some (u +:+ String c EmptyString)))
          else if Ascii.eqb c S_BT then
            if String.eqb u EmptyString
            then "`$" +:+ lower_commands r (Some None)
            else lower_string u +:+ lower_commands r None
          else ("`$" +:+ u) +:+ String c (lower_commands r None)
      end
  end.

(** The loop of [validate_ONE] over the alternatives: [true] when one
    of them matched and the function returned from inside the loop. *)
Fixpoint one_loop (fuel : nat) (h : heap) (tvals : list value)
  (current nodes path : value) : result (heap * bool) :=
  match tvals with
  | [] => Ret (h, false)
  | tval :: tvals' =>
      let '(h, terrs) := alloc h (OList []) in
      '(h, _) ← validate fuel h current tval VUndef terrs;
      nlen ← member_length h nodes;
      let grandparent := js_index h nodes (num_minus_two h nlen) in
      plen ← member_length h path;
      let grandkey := js_index h path (num_minus_two h plen) in
      if isnode grandparent then
        if Nat.eqb 0 (length (list_elems h terrs))
        then Ret (fst (setprop h grandparent grandkey current), true)
        else one_loop fuel (fst (setprop h grandparent grandkey VUndef)) tvals'
               current nodes path
      else one_loop fuel h tvals' current nodes path
  end.

(** [validate_ONE (state, _val, current)]. *)
Definition validate_ONE (fuel : nat) (h : heap) (state _val current : value)
  : result (heap * value) :=
  mode ← member h state "mode";
  parent ← member h state "parent";
  path ← member h state "path";
  nodes ← member h state "nodes";
  if value_eqb (VStr S_MVAL) mode then
    keys ← member h state "keys";
    klen ← member_length h keys;
    h ← set_member h state "keyI" klen;
    '(h, tvals) ← slice_rest h parent;
    alts ← spread_iter h tvals;
    '(h, matched) ← one_loop fuel h alts current nodes path;
    if (matched : bool) then Ret (h, VUndef)
    else if negb (Array_isArray h tvals)
    then Throw "TypeError: tvals.map is not a function"
    else
      let valdesc :=
        lower_commands
          (join_strings ", " (map (fun v => stringify h v None) (list_elems h tvals)))
          None in
      errs ← member h state "errs";
      if is_nullish errs then Throw "TypeError: cannot read property push"
      else
        spath ← member h state "path";
        '(h, front) ← slice_front h spath;
        h ← errs_push h state
              (_invalidTypeMsg h front ("one of " +:+ valdesc) (typeof current) current);
        Ret (h, VUndef)
  else Ret (h, VUndef).

(** ** Notions the statements use *)

(** When the later element is not a node, or the accumulator is not a
    node, or one is a map and the other a list. *)
Definition replaces (h : heap) (out obj : value) : Prop :=
  isnode obj = false
  \/ isnode out = false
  \/ (ismap h obj = true /\ islist h out = true)
  \/ (islist h obj = true /\ ismap h out = true).

(** Every element of [xs] replaces the one before it, [out] being
    before the first. *)
Fixpoint chain_replaces (h : heap) (out : value) (xs : list value) : Prop :=
  match xs with
  | [] => True
  | x :: xs' => replaces h out x /\ chain_replaces h x xs'
  end.

(** Resolution along a list of keys as the specification words it:
    one [getprop] per key, starting from [root]. *)
Definition resolve_from (h : heap) (root : value) (keys : list value) : value :=
  foldl (fun v k => getprop h v k VUndef) root keys.

(** A state that does not carry a handler: no state at all, or one
    whose [handler] is not a function. *)
Definition no_handler (h : heap) (state : value) : Prop :=
  is_nullish state = true \/ isfunc (js_get h state (VStr "handler")) = false.

(** The order of [.sort()] on strings. *)
Definition str_le (a b : string) : Prop := String.leb a b = true.

(** A string without a dot. *)
Definition dot_free (s : string) : Prop := str_includes S_DT s = false.

(** What [JSON.parse] builds: the store grows at its end only, and the
    value is a scalar, a function or a node that was not there before. *)
Definition parsed_fresh (h : heap) (r : heap * value) : Prop :=
  (exists ext, fst r = h ++ ext)
  /\ (forall l, snd r = VRef l -> length h <= l < length (fst r)).

(** A store without absent entries whose lists are short enough to be
    indexed: what parsing JSON text gives. *)
Definition plain_store (h : heap) : Prop :=
  forall l o,
    h !! l = Some o ->
    match o with
    | OMap m => Forall (fun kv => snd kv <> VUndef) m
    | OList xs =>
        Forall (fun v => v <> VUndef) xs
        /\ (N.of_nat (length xs) < 4294967295)%N
    end.

(** The nodes below a value are nested at most [n] deep. *)
Fixpoint depth_le (h : heap) (n : nat) (v : value) {struct n} : Prop :=
  match v with
  | VRef l =>
      match n with
      | O => False
      | Datatypes.S n' =>
          match h !! l with
          | Some (OMap m) => Forall (fun kv => depth_le h n' (snd kv)) m
          | Some (OList xs) => Forall (depth_le h n') xs
          | None => True
          end
      end
  | _ => True
  end.

(** What a pattern made of plain characters and escaped special
    characters matches: the text with the escapes taken off.  A
    special character that is not escaped, or a backslash before a
    character that is not special, makes the pattern something else
    than such a literal. *)
Fixpoint pattern_literal (p : string) : option string :=
  match p with
  | EmptyString => Some EmptyString
  | String c r =>
      if Ascii.eqb c "\" then
        match r with
        | String d r' =>
            if is_re_special d then option_map (String d) (pattern_literal r')
            else None
        | EmptyString => None
        end
      else if is_re_special c then None
      else option_map (String c) (pattern_literal r)
  end.

(** A text without characters that are special in a pattern. *)
Definition special_free (s : string) : Prop :=
  Forall (fun c => is_re_special c = false) (String.list_ascii_of_string s).

(** Whether the last character is a slash. *)
Fixpoint ends_with_slash (s : string) : bool :=
  match s with
  | EmptyString => false
  | String c EmptyString => Ascii.eqb c "/"
  | String _ r => ends_with_slash r
  end.

(** A text without slashes. *)
Definition slash_free (s : string) : Prop :=
  Forall (fun c => c <> "/"%char) (String.list_ascii_of_string s).

(** A text without backticks. *)
Definition backtick_free (s : string) : Prop :=
  Forall (fun c => c <> S_BT) (String.list_ascii_of_string s).

(** ** Stand-ins and stores for the worked examples *)

(** [+s] on the keys of the examples: none of them is numeric outside
    the decimal fragment computed above. *)
Definition nan_key (s : string) : number := NaN.

(** The examples never print a fraction, a function or a node. *)
Definition no_text (h : heap) (v : value) : string := S_MT.

(** The examples never call a handler. *)
Definition no_call (f : string) (args : list value) (h : heap)
  : result (heap * value) := Ret (h, VUndef).

Definition num (n : nat) : value := VNum (num_of_nat n).

(** The list [['a', 'b', 'c']]. *)
Definition abc_store : heap := [OList [VStr "a"; VStr "b"; VStr "c"]].

(** The map [{x: 1}]. *)
Definition x_store : heap := [OMap [("x", num 1)]].

(** [{b: 1, '`$Z`': 1, a: 2, '`$A`': 1}], keys in the order written,
    and the same map written [a] first. *)
Definition keys_store : heap :=
  [OMap [("b", num 1); ("`$Z`", num 1); ("a", num 2); ("`$A`", num 1)]].

Definition keys_store_a_first : heap :=
  [OMap [("a", num 2); ("b", num 1); ("`$Z`", num 1); ("`$A`", num 1)]].

(** The key-post call of [$MERGE] inside [{n: {a: 1, '`$MERGE`': ''}}]
    when transforming the data [{b: 2}]: node 0 is the injection
    state, node 1 the parent [spec.n], node 2 the data (which is
    [current] at this depth), node 3 the store. *)
Definition merge_store : heap :=
  [ OMap [("mode", VStr S_MKEYPOST); ("full", VBool true); ("keyI", num 1);
          ("key", VStr "`$MERGE`"); ("parent", VRef 1); ("base", VStr S_DTOP)];
    OMap [("a", num 1); ("`$MERGE`", VStr S_MT)];
    OMap [("b", num 2)];
    OMap [("$TOP", VRef 2); ("$MERGE", VFun "transform_MERGE")] ].

(** The key-post call of [$MERGE] in [{a: {x: 1}, '`$MERGE`': {a: []}}]
    once the value of the directive key has been injected: node 1 is
    the parent, node 2 its literal [a], node 3 the merge source
    [{a: []}], node 5 the store. *)
Definition merge_kind_store : heap :=
  [ OMap [("mode", VStr S_MKEYPOST); ("full", VBool true); ("keyI", num 1);
          ("key", VStr "`$MERGE`"); ("parent", VRef 1); ("base", VStr S_DTOP)];
    OMap [("a", VRef 2); ("`$MERGE`", VRef 3)];
    OMap [("x", num 1)];
    OMap [("a", VRef 4)];
    OList [];
    OMap [("$TOP", VRef 6); ("$MERGE", VFun "transform_MERGE")];
    OMap [] ].

(** The list [[{a: 1}, [2]]] (node 2) with its two elements. *)
Definition mixed_store : heap :=
  [OMap [("a", num 1)]; OList [num 2]; OList [VRef 0; VRef 1]].

(** The store [{$TOP: {a: 1}}] and the context [{a: 1}]. *)
Definition top_store : heap :=
  [OMap [("$TOP", VRef 1)]; OMap [("a", num 1)]].

(** The store [{$TOP: {a: 1}}] (node 0), its data (node 1) and a state
    whose base is [$TOP] (node 2). *)
Definition base_store : heap :=
  [OMap [("$TOP", VRef 1)]; OMap [("a", num 1)]; OMap [("base", VStr S_DTOP)]].

(** The call of a directive at key [a], in [val] mode and as a full
    injection: node 0 is the injection state, node 1 the parent, node 2
    the data, node 3 the path [['$TOP', 'a']], node 4 the error list,
    nodes 5 and 6 the maps under [m] in the data and in the parent. *)
Definition directive_store : heap :=
  [ OMap [("mode", VStr S_MVAL); ("full", VBool true); ("key", VStr "a");
          ("parent", VRef 1); ("path", VRef 3); ("errs", VRef 4)];
    OMap [("a", VStr "`$COPY`"); ("`$KEY`", VStr "n"); ("d", num 1); ("m", VRef 6)];
    OMap [("a", num 7); ("n", VStr "k"); ("d", num 2); ("m", VRef 5)];
    OList [VStr "$TOP"; VStr "a"];
    OList [];
    OMap [("x", num 1); ("y", num 2)];
    OMap [("x", num 0)] ].

(** The list [[{a: 1, c: 3}, {a: 2, b: 4}]] (node 0) and its two maps. *)
Definition flat_store : heap :=
  [ OList [VRef 1; VRef 2];
    OMap [("a", num 1); ("c", num 3)];
    OMap [("a", num 2); ("b", num 4)] ].

(** A visitor that looks and changes nothing; it counts its calls. *)
Definition counting_visitor : WalkApply nat :=
  fun n h _ val _ _ => Ret (Datatypes.S n, h, val).

End Struct.

(** ** The program with its functions bound by name *)

(** The members of [Array.prototype] that every engine has, and after
    them those of [Object.prototype]. *)
Definition Array_prototype_functions : list string :=
  [ "concat"; "every"; "filter"; "forEach"; "indexOf"; "join"; "lastIndexOf";
    "map"; "pop"; "push"; "reduce"; "reduceRight"; "reverse"; "shift"; "slice";
    "some"; "sort"; "splice"; "unshift" ].

Definition Array_prototype_members (pk : string) : value :=
  if bool_decide (pk ∈ Array_prototype_functions)
  then VFun ("Array.prototype." +:+ pk)
  else if bool_decide (pk ∈ Object_prototype_functions)
  then VFun ("Object.prototype." +:+ pk)
  else VUndef.

(** The host of the worked examples: no key is numeric outside the
    decimal fragment, nothing is printed, no function is called, and
    [Object.prototype] is an object outside every store. *)
Definition plain_host : Host :=
  {| str_num_ext := nan_key;
     tostr_ext := no_text;
     Array_prototype := Array_prototype_members;
     Object_prototype_object := VRef 4096;
     json_text := no_text;
     call_fn := no_call;
     json_stringify := no_text |}.

(** The JSON text of a number, a boolean, null and a string that needs
    no escape. *)
Definition scalar_json (h : heap) (v : value) : string :=
  match v with
  | VStr s => String S_QUOTE (s +:+ String S_QUOTE EmptyString)
  | VNum n => num_to_string (JS := plain_host) h n
  | VBool true => "true"
  | VBool false => "false"
  | VNull => "null"
  | _ => S_MT
  end.

(** The same host, printing scalars. *)
Definition printing_host : Host :=
  {| str_num_ext := nan_key;
     tostr_ext := no_text;
     Array_prototype := Array_prototype_members;
     Object_prototype_object := VRef 4096;
     json_text := scalar_json;
     call_fn := no_call;
     json_stringify := scalar_json |}.

(** A host with its calls replaced. *)
Definition with_calls (ext : Host)
    (call : string -> list value -> heap -> result (heap * value)) : Host :=
  {| str_num_ext := str_num_ext (Host := ext);
     tostr_ext := tostr_ext (Host := ext);
     Array_prototype := Array_prototype (Host := ext);
     Object_prototype_object := Object_prototype_object (Host := ext);
     json_text := json_text (Host := ext);
     call_fn := call;
     json_stringify := json_stringify (Host := ext) |}.

(** Calling a function value by its name.  The names are those the
    stores of [transform] and [validate] give to the functions of the
    program; [$EACH], [$PACK], [$CHILD] and [$WHEN] are left to the
    host [ext], as is every other name.  A function called this way
    may call again, so the nesting of calls is bounded by [fuel]. *)
Fixpoint call_builtin (ext : Host) (fuel : nat) (f : string) (args : list value)
  (h : heap) {struct fuel} : result (heap * value) :=
  match fuel with
  | O => OutOfFuel
  | Datatypes.S n =>
      let js := with_calls ext (call_builtin ext n) in
      let a (i : nat) := default VUndef (args !! i) in
      if String.eqb f "injecthandler"
      then injecthandler (JS := js) h (a 0) (a 1) (a 2) (a 3) (a 4)
      else if String.eqb f "validation"
      then validation (JS := js) n h (a 0) (a 1) (a 2) (a 3) (a 4) (a 5)
      else if String.eqb f "$BT" then Ret (h, VStr "`")
      else if String.eqb f "$DS" then Ret (h, VStr "$")
      else if String.eqb f "transform_DELETE" then transform_DELETE (JS := js) h (a 0)
      else if String.eqb f "transform_COPY"
      then transform_COPY (JS := js) h (a 0) (a 1) (a 2)
      else if String.eqb f "transform_KEY"
      then transform_KEY (JS := js) h (a 0) (a 1) (a 2)
      else if String.eqb f "transform_META" then transform_META (JS := js) h (a 0)
      else if String.eqb f "transform_MERGE"
      then transform_MERGE (JS := js) n h (a 0) (a 1) (a 2)
      else if String.eqb f "validate_STRING"
      then validate_STRING (JS := js) h (a 0) (a 1) (a 2)
      else if String.eqb f "validate_NUMBER"
      then validate_NUMBER (JS := js) h (a 0) (a 1) (a 2)
      else if String.eqb f "validate_BOOLEAN"
      then validate_BOOLEAN (JS := js) h (a 0) (a 1) (a 2)
      else if String.eqb f "validate_OBJECT"
      then validate_OBJECT (JS := js) h (a 0) (a 1) (a 2)
      else if String.eqb f "validate_ARRAY"
      then validate_ARRAY (JS := js) h (a 0) (a 1) (a 2)
      else if String.eqb f "validate_FUNCTION"
      then validate_FUNCTION (JS := js) h (a 0) (a 1) (a 2)
      else if String.eqb f "validate_ANY"
      then validate_ANY (JS := js) h (a 0) (a 1) (a 2)
      else if String.eqb f "validate_ONE"
      then validate_ONE (JS := js) n h (a 0) (a 1) (a 2)
      else call_fn (Host := ext) f args h
  end.

(** The host [ext] with the functions of the program callable by name,
    [fuel] calls deep. *)
Definition engine_host (ext : Host) (fuel : nat) : Host :=
  with_calls ext (call_builtin ext fuel).

(** [validate ({a: 1}, {a: '`$ONE`'}, undefined, [])]: the data is node
    0, the shape node 1 and the caller's error list node 2. *)
Definition one_store : heap :=
  [OMap [("a", num 1)]; OMap [("a", VStr "`$ONE`")]; OList []].

(** [validate ({a: 'x', b: 'y'}, {a: '`$NUMBER`', b: '`$NUMBER`'},
    undefined, [])], laid out the same way, and the two messages it
    reports. *)
Definition number_store : heap :=
  [ OMap [("a", VStr "x"); ("b", VStr "y")];
    OMap [("a", VStr "`$NUMBER`"); ("b", VStr "`$NUMBER`")];
    OList [] ].

Definition number_errors : list string :=
  [ "Expected number at a, found string: x";
    "Expected number at b, found string: y" ].

Section Facts.

Context {JS : Host}.

(** ** Basic facts used throughout *)

Lemma Qle_bool_inject_Z (a b : Z) :
  Qle_bool (inject_Z a) (inject_Z b) = (a <=? b)%Z.
Proof. unfold Qle_bool. cbn. by rewrite !Z.mul_1_r. Qed.

Lemma num_le_0_Z (i : Z) : num_le (num_of_nat 0) (num_of_Z i) = (0 <=? i)%Z.
Proof. unfold num_le, num_of_nat, num_of_Z. apply Qle_bool_inject_Z. Qed.

Lemma num_lt_Z_nat (i : Z) (n : nat) :
  num_lt (num_of_Z i) (num_of_nat n) = (i <? Z.of_nat n)%Z.
Proof.
  unfold num_lt, num_of_nat, num_of_Z. rewrite Qle_bool_inject_Z.
  by rewrite Z.ltb_antisym.
Qed.

Lemma num_lt_nat_Z (n : nat) (i : Z) :
  num_lt (num_of_nat n) (num_of_Z i) = (Z.of_nat n <? i)%Z.
Proof.
  unfold num_lt, num_of_nat, num_of_Z. rewrite Qle_bool_inject_Z.
  by rewrite Z.ltb_antisym.
Qed.

Lemma num_index_Z (i : Z) : num_index (num_of_Z i) = Z.to_nat i.
Proof. unfold num_index, num_of_Z. by rewrite Qfloor_Z. Qed.

Lemma ismap_list (h : heap) (l : loc) (xs : list value) :
  h !! l = Some (OList xs) -> ismap h (VRef l) = false.
Proof. intros H. unfold ismap, Array_isArray. by rewrite H. Qed.

Lemma islist_list (h : heap) (l : loc) (xs : list value) :
  h !! l = Some (OList xs) -> islist h (VRef l) = true.
Proof. intros H. unfold islist, Array_isArray. by rewrite H. Qed.

Lemma ismap_map (h : heap) (l : loc) (m : list (string * value)) :
  h !! l = Some (OMap m) -> ismap h (VRef l) = true.
Proof. intros H. unfold ismap, Array_isArray. by rewrite H. Qed.

Lemma islist_map (h : heap) (l : loc) (m : list (string * value)) :
  h !! l = Some (OMap m) -> islist h (VRef l) = false.
Proof. intros H. unfold islist, Array_isArray. by rewrite H. Qed.

(** Allocating a map does not change which values are lists. *)
Lemma isArray_alloc_map (h : heap) (m : list (string * value)) (v : value) :
  Array_isArray (h ++ [OMap m]) v = Array_isArray h v.
Proof.
  destruct v as [| | | | | |r]; try reflexivity. unfold Array_isArray.
  destruct (decide (r < length h)) as [Hr|Hr].
  - by rewrite lookup_app_l.
  - rewrite lookup_app_r by lia. rewrite (lookup_ge_None_2 h r) by lia.
    destruct (r - length h) as [|n]; [reflexivity|]. by destruct n.
Qed.

Lemma iskey_nonempty (k : string) : k <> "" -> iskey (VStr k) = true.
Proof.
  intros Hk. unfold iskey, S_MT.
  destruct (String.eqb_spec "" k) as [E|E]; [|reflexivity].
  exfalso. apply Hk. by rewrite <- E.
Qed.

Lemma assoc_find_set (k : string) (v : value) (m : list (string * value)) :
  assoc_find k (assoc_set k v m) = Some v.
Proof.
  induction m as [|[k' v'] m IH]; cbn.
  - by rewrite String.eqb_refl.
  - destruct (String.eqb k k') eqn:E; cbn; by rewrite E.
Qed.

Lemma assoc_find_del (k : string) (m : list (string * value)) :
  assoc_find k (assoc_del k m) = None.
Proof.
  unfold assoc_del. induction m as [|[k' v'] m IH]; cbn; [done|].
  destruct (String.eqb k k') eqn:E; cbn; [done|]. by rewrite E.
Qed.

(** The shift loop, run to the end of the list, moves every later
    element down by one and leaves the last element in place twice. *)
Lemma shift_down_spec (n pI : nat) (l : list value) :
  pI + n + 1 = length l ->
  shift_down n pI l = take pI l ++ drop (S pI) l ++ drop (length l - 1) l.
Proof.
  revert pI l. induction n as [|n IH]; intros pI l Hlen; cbn [shift_down].
  - replace (length l - 1) with pI by lia.
    rewrite (drop_ge l (S pI)) by lia. cbn.
    by rewrite take_drop.
  - rewrite IH by (rewrite length_insert; lia).
    rewrite length_insert.
    destruct (lookup_lt_is_Some_2 l (S pI)) as [x Hx]; [lia|].
    rewrite Hx. cbn [default].
    rewrite drop_insert_lt by lia.
    rewrite (drop_insert_lt l (length l - 1)) by lia.
    rewrite (drop_S l x (S pI) Hx).
    rewrite (take_S_r (<[pI:=x]> l) pI x)
      by (apply list_lookup_insert_eq; lia).
    rewrite take_insert_ge by lia.
    by rewrite <- app_assoc.
Qed.

Lemma list_remove_spec (i : nat) (l : list value) :
  i < length l -> list_remove i l = take i l ++ drop (S i) l.
Proof.
  intros Hi. unfold list_remove.
  rewrite shift_down_spec by lia.
  rewrite !app_assoc, take_app_length'; [done|].
  rewrite length_app, length_take, length_drop. lia.
Qed.

(** ** Properties of the accessors *)

Lemma setprop_on_list (h : heap) (l : loc) (xs : list value) (key val : value) (i : Z) :
  h !! l = Some (OList xs) ->
  iskey key = true ->
  Math_floor (key_to_number key) = num_of_Z i ->
  setprop h (VRef l) key val =
    if is_undef val then
      if ((0 <=? i) && (i <? Z.of_nat (length xs)))%Z
      then (<[l := OList (list_remove (Z.to_nat i) xs)]> h, VRef l)
      else (h, VRef l)
    else if (0 <=? i)%Z then
      (<[l := OList (list_assign
                       (if (Z.of_nat (length xs) <? i)%Z then length xs else Z.to_nat i)
                       val xs)]> h, VRef l)
    else (<[l := OList (val :: xs)]> h, VRef l).
Proof.
  intros Hl Hk Hi. unfold setprop.
  rewrite Hk, (ismap_list _ _ _ Hl), (islist_list _ _ _ Hl). cbn [negb].
  assert (Hn : is_nan (key_to_number key) = false).
  { destruct (key_to_number key); try reflexivity. discriminate Hi. }
  rewrite Hn, Hi. unfold list_elems, store_obj. rewrite Hl.
  rewrite num_le_0_Z, num_lt_Z_nat, num_lt_nat_Z, num_index_Z.
  reflexivity.
Qed.

(** C3.  On a list, for a key whose number floors to the index [i]:
    setting absent at a valid index removes that element and moves
    every later element down by one; setting a value that is not
    absent at an index at or past the length appends it at the end;
    at a negative index it is put in front; at a valid index it
    overwrites the element there. *)
Theorem setprop_list_no_holes (h : heap) (l : loc) (xs : list value)
    (key x : value) (i : Z) :
  h !! l = Some (OList xs) ->
  iskey key = true ->
  Math_floor (key_to_number key) = num_of_Z i ->
  x <> VUndef ->
  ((0 <= i < Z.of_nat (length xs))%Z ->
     setprop h (VRef l) key VUndef
     = (<[l := OList (take (Z.to_nat i) xs ++ drop (S (Z.to_nat i)) xs)]> h, VRef l))
  /\ ((Z.of_nat (length xs) <= i)%Z ->
        setprop h (VRef l) key x = (<[l := OList (xs ++ [x])]> h, VRef l))
  /\ ((i < 0)%Z ->
        setprop h (VRef l) key x = (<[l := OList (x :: xs)]> h, VRef l))
  /\ ((0 <= i < Z.of_nat (length xs))%Z ->
        setprop h (VRef l) key x = (<[l := OList (<[Z.to_nat i := x]> xs)]> h, VRef l)).
Proof.
  intros Hl Hk Hi Hx.
  assert (Hu : is_undef x = false) by (by destruct x).
  repeat split; intros Hr; rewrite (setprop_on_list _ _ _ _ _ _ Hl Hk Hi).
  - cbn [is_undef].
    replace ((0 <=? i)%Z) with true by (symmetry; apply Z.leb_le; lia).
    replace ((i <? Z.of_nat (length xs))%Z) with true by (symmetry; apply Z.ltb_lt; lia).
    cbn [andb]. rewrite list_remove_spec by lia. reflexivity.
  - rewrite Hu.
    replace ((0 <=? i)%Z) with true by (symmetry; apply Z.leb_le; lia).
    unfold list_assign.
    destruct (Z.of_nat (length xs) <? i)%Z eqn:E.
    + rewrite Nat.ltb_irrefl, Nat.sub_diag. reflexivity.
    + apply Z.ltb_ge in E. assert (Z.to_nat i = length xs) as -> by lia.
      rewrite Nat.ltb_irrefl, Nat.sub_diag. reflexivity.
  - rewrite Hu.
    replace ((0 <=? i)%Z) with false by (symmetry; apply Z.leb_gt; lia).
    reflexivity.
  - rewrite Hu.
    replace ((0 <=? i)%Z) with true by (symmetry; apply Z.leb_le; lia).
    replace ((Z.of_nat (length xs) <? i)%Z) with false by (symmetry; apply Z.ltb_ge; lia).
    unfold list_assign.
    replace (Z.to_nat i <? length xs)%nat with true by (symmetry; apply Nat.ltb_lt; lia).
    reflexivity.
Qed.

(** C10.  On a list, a non-empty string key whose number is NaN makes
    [setprop] a no-op: the store is unchanged and the list is returned. *)
Theorem setprop_list_nan_key_noop (h : heap) (l : loc) (xs : list value)
    (k : string) (x : value) :
  h !! l = Some (OList xs) ->
  k <> "" ->
  is_nan (key_to_number (VStr k)) = true ->
  iskey (VStr k) = true /\ setprop h (VRef l) (VStr k) x = (h, VRef l).
Proof.
  intros Hl Hk Hn.
  pose proof (iskey_nonempty k Hk) as Hkey.
  split; [done|]. unfold setprop.
  by rewrite Hkey, (ismap_list _ _ _ Hl), (islist_list _ _ _ Hl), Hn.
Qed.

Lemma to_string_zero (h : heap) : to_string h (VNum (num_of_nat 0)) = "0".
Proof. reflexivity. Qed.

(** [getprop(list, 0, alt)]: the first element, or [alt] when it is absent. *)
Lemma getprop_list_first (h : heap) (l : loc) (x : value) (xs : list value)
    (alt : value) :
  h !! l = Some (OList (x :: xs)) ->
  getprop h (VRef l) (VNum (num_of_nat 0)) alt = if is_undef x then alt else x.
Proof.
  intros Hl. unfold getprop, js_get. rewrite Hl, to_string_zero.
  reflexivity.
Qed.

(** ** Recursion fuel

    [walk] and [to_json] follow references, so in the model they
    count their depth down.  A run that comes back with a result comes
    back with the same result on any larger budget. *)

Lemma foldl_result_stuck {A B} (k : A -> B -> result A) (l : list B)
    (acc : result A) (r : A) :
  foldl (fun acc b => acc ≫= fun a => k a b) acc l = Ret r ->
  exists a, acc = Ret a.
Proof.
  revert acc. induction l as [|b l IH]; intros acc H; cbn in H.
  - eauto.
  - destruct (IH _ H) as [a Ha]. destruct acc; [eauto|discriminate..].
Qed.

Lemma foldl_result_mono {A B} (f g : A -> B -> result A) :
  (forall a b r, f a b = Ret r -> g a b = Ret r) ->
  forall (l : list B) (acc : result A) (r : A),
    foldl (fun acc b => acc ≫= fun a => f a b) acc l = Ret r ->
    foldl (fun acc b => acc ≫= fun a => g a b) acc l = Ret r.
Proof.
  intros Hfg l. induction l as [|b l IH]; intros acc r H; cbn in *; [done|].
  destruct (foldl_result_stuck _ _ _ _ H) as [a1 Ha1].
  destruct acc as [a| |]; cbn in Ha1; [|discriminate..].
  cbn in H. rewrite Ha1 in H. cbn. rewrite (Hfg _ _ _ Ha1). by apply IH.
Qed.

Lemma rbind_ret_inv {A B} (m : result A) (k : A -> result B) (r : B) :
  m ≫= k = Ret r -> exists a, m = Ret a /\ k a = Ret r.
Proof. destruct m; cbn; [eauto|discriminate..]. Qed.

Lemma walk_fuel_S {S : Type} (apply : WalkApply S) (fuel : nat) :
  forall st h val key parent path r,
    walk fuel apply st h val key parent path = Ret r ->
    walk (Datatypes.S fuel) apply st h val key parent path = Ret r.
Proof.
  induction fuel as [|fuel IH]; intros st h val key parent path r H;
    [discriminate|].
  cbn [walk] in H. apply rbind_ret_inv in H as ([st1 h1] & Hc & Ha).
  change (walk (Datatypes.S (Datatypes.S fuel)) apply st h val key parent path)
    with ('(st, h) ←
            (if isnode val then
               foldl
                 (fun acc (it : string * value) =>
                    '(st, h) ← acc;
                    let '(ckey, child) := it in
                    '(st, h, r) ←
                      walk (Datatypes.S fuel) apply st h child (VStr ckey) val
                        (path ++ [S_MT +:+ ckey]);
                    Ret (st, fst (setprop h val (VStr ckey) r)))
                 (Ret (st, h)) (items h val)
             else Ret (st, h));
          apply st h key val parent path).
  assert (Hc' :
    (if isnode val then
       foldl
         (fun acc (it : string * value) =>
            '(st, h) ← acc;
            let '(ckey, child) := it in
            '(st, h, r) ←
              walk (Datatypes.S fuel) apply st h child (VStr ckey) val
                (path ++ [S_MT +:+ ckey]);
            Ret (st, fst (setprop h val (VStr ckey) r)))
         (Ret (st, h)) (items h val)
     else Ret (st, h)) = Ret (st1, h1)).
  { destruct (isnode val); [|exact Hc].
    revert Hc. apply foldl_result_mono.
    intros [st2 h2] [ckey child] r2 Hr.
    apply rbind_ret_inv in Hr as ([[st3 h3] v3] & Hw & Hr).
    by rewrite (IH _ _ _ _ _ _ _ Hw). }
  rewrite Hc'. exact Ha.
Qed.

Lemma walk_fuel_mono {S : Type} (apply : WalkApply S) (fuel fuel' : nat) :
  fuel <= fuel' ->
  forall st h val key parent path r,
    walk fuel apply st h val key parent path = Ret r ->
    walk fuel' apply st h val key parent path = Ret r.
Proof.
  induction 1 as [|fuel' _ IH]; intros st h val key parent path r H; [done|].
  by apply walk_fuel_S, IH.
Qed.

Lemma merge_step_fuel_mono (fuel fuel' : nat) (h : heap) (out obj : value)
    (r : heap * value) :
  fuel <= fuel' ->
  merge_step fuel h out obj = Ret r -> merge_step fuel' h out obj = Ret r.
Proof.
  intros Hle. unfold merge_step.
  destruct (negb (isnode obj)); [done|].
  destruct (negb (isnode out) || ismap h obj && islist h out
            || islist h obj && ismap h out); [done|].
  intros H. apply rbind_ret_inv in H as ([[st1 h1] v1] & Hw & Hr).
  by rewrite (walk_fuel_mono _ _ _ Hle _ _ _ _ _ _ _ Hw).
Qed.

Lemma merge_loop_fuel_mono (fuel fuel' rem : nat) :
  fuel <= fuel' ->
  forall h list oI out r,
    merge_loop fuel rem h list oI out = Ret r ->
    merge_loop fuel' rem h list oI out = Ret r.
Proof.
  intros Hle. induction rem as [|rem IH]; intros h list oI out r H; [done|].
  cbn [merge_loop] in *. apply rbind_ret_inv in H as ([h1 out1] & Hs & Hr).
  rewrite (merge_step_fuel_mono _ _ _ _ _ _ Hle Hs). cbn. by apply IH.
Qed.

Lemma merge_fuel_mono (fuel fuel' : nat) (h : heap) (val : value)
    (r : heap * value) :
  fuel <= fuel' -> merge fuel h val = Ret r -> merge fuel' h val = Ret r.
Proof.
  intros Hle. unfold merge.
  destruct (negb (islist h val)); [done|].
  destruct (Nat.eqb 0 (length (list_elems h val))); [done|].
  destruct (Nat.eqb 1 (length (list_elems h val))); [done|].
  cbn [alloc]. by apply merge_loop_fuel_mono.
Qed.

Lemma to_json_fuel_S (h : heap) (fuel : nat) :
  forall refs v r,
    to_json fuel h refs v = Ret r -> to_json (S fuel) h refs v = Ret r.
Proof.
  induction fuel as [|fuel IH]; intros refs v r H; [discriminate|].
  destruct v as [| | |n| | |l]; try exact H.
  cbn [to_json] in H.
  change (to_json (S (S fuel)) h refs (VRef l))
    with (match h !! l with
          | Some (OList xs) =>
              '(refs, js) ←
                foldl
                  (fun acc x =>
                     '(refs, js) ← acc;
                     '(refs, j) ← to_json (S fuel) h refs x;
                     Ret (refs, js ++ [default JNull j]))
                  (Ret (refs, [])) xs;
              Ret (refs, Some (JArr js))
          | Some (OMap m) =>
              '(refs, js) ←
                foldl
                  (fun acc k =>
                     '(refs, js) ← acc;
                     '(refs, j) ← to_json (S fuel) h refs (default VUndef (assoc_find k m));
                     Ret (refs, match j with
                                | Some j => js ++ [(k, j)]
                                | None => js
                                end))
                  (Ret (refs, [])) (Object_keys_map m);
              Ret (refs, Some (JObj js))
          | None => Ret (refs, Some (JObj []))
          end).
  destruct (h !! l) as [[m|xs]|]; [| |exact H].
  - apply rbind_ret_inv in H as ([refs1 js1] & Hf & Hr).
    erewrite foldl_result_mono; cycle 2; [exact Hf|exact Hr|].
    intros [refs2 js2] k r2 Hk.
    apply rbind_ret_inv in Hk as ([refs3 j3] & Hj & Hk).
    by rewrite (IH _ _ _ Hj).
  - apply rbind_ret_inv in H as ([refs1 js1] & Hf & Hr).
    erewrite foldl_result_mono; cycle 2; [exact Hf|exact Hr|].
    intros [refs2 js2] x r2 Hx.
    apply rbind_ret_inv in Hx as ([refs3 j3] & Hj & Hx).
    by rewrite (IH _ _ _ Hj).
Qed.

Lemma clone_fuel_mono (fuel fuel' : nat) (h : heap) (val : value)
    (r : heap * value) :
  fuel <= fuel' -> clone fuel h val = Ret r -> clone fuel' h val = Ret r.
Proof.
  intros Hle. unfold clone. destruct (is_undef val); [done|].
  intros H. apply rbind_ret_inv in H as ([refs j] & Hj & Hr).
  assert (Hj' : to_json fuel' h [] val = Ret (refs, j)).
  { clear Hr. induction Hle as [|fuel' _ IH]; [done|]. by apply to_json_fuel_S. }
  by rewrite Hj'.
Qed.

Lemma transform_MERGE_fuel_mono (fuel fuel' : nat) (h : heap)
    (state val current : value) (r : heap * value) :
  fuel <= fuel' ->
  transform_MERGE fuel h state val current = Ret r ->
  transform_MERGE fuel' h state val current = Ret r.
Proof.
  intros Hle. unfold transform_MERGE.
  destruct (member h state "mode") as [mode| |]; [|done..].
  destruct (member h state "key") as [key| |]; [|done..].
  destruct (member h state "parent") as [parent| |]; [|done..].
  cbn [mbind result_bind rbind].
  destruct (value_eqb (VStr S_MKEYPRE) mode); [done|].
  destruct (value_eqb (VStr S_MKEYPOST) mode); [|done].
  intros H. apply rbind_ret_inv in H as ([h1 args] & -> & H).
  cbn [mbind result_bind rbind] in *.
  apply rbind_ret_inv in H as ([h2 copy] & Hc & H).
  rewrite (clone_fuel_mono _ _ _ _ _ Hle Hc).
  cbn [mbind result_bind rbind alloc] in *.
  apply rbind_ret_inv in H as ([h3 v3] & Hm & H).
  by rewrite (merge_fuel_mono _ _ _ _ _ Hle Hm).
Qed.

(** ** Properties of merge *)

Lemma merge_step_replace (fuel : nat) (h : heap) (out obj : value) :
  replaces h out obj -> merge_step fuel h out obj = Ret (h, obj).
Proof.
  unfold replaces, merge_step. intros H.
  destruct (isnode obj) eqn:Eo; cbn [negb]; [|reflexivity].
  destruct H as [H|[H|[[H1 H2]|[H1 H2]]]]; [discriminate| | |].
  - by rewrite H.
  - rewrite H1, H2. by rewrite orb_true_r.
  - rewrite H1, H2. by rewrite !orb_true_r.
Qed.

Lemma merge_on_list (fuel : nat) (h : heap) (l : loc) (xs : list value) :
  h !! l = Some (OList xs) ->
  merge fuel h (VRef l) =
    match xs with
    | [] => Ret (h, VUndef)
    | [x] => Ret (h, x)
    | x :: _ =>
        merge_loop fuel (length xs - 1) (h ++ [OMap []]) (VRef l) 1
          (if is_undef x then VRef (length h) else x)
    end.
Proof.
  intros Hl. unfold merge. rewrite (islist_list _ _ _ Hl). cbn [negb].
  unfold list_elems. rewrite Hl.
  destruct xs as [|x [|y ys]]; [reflexivity..|].
  cbn [length Nat.eqb alloc].
  rewrite (getprop_list_first _ l x (y :: ys))
    by (rewrite lookup_app_l; [done|]; apply lookup_lt_is_Some; eauto).
  reflexivity.
Qed.

(** C5.  Merging the empty list gives absent, and merging a list of
    one element gives that element; the store is left as it was. *)
Theorem merge_identity (fuel : nat) (h : heap) (l : loc) (x : value) :
  (h !! l = Some (OList []) -> merge fuel h (VRef l) = Ret (h, VUndef))
  /\ (h !! l = Some (OList [x]) -> merge fuel h (VRef l) = Ret (h, x)).
Proof.
  split; intros Hl; by rewrite (merge_on_list _ _ _ _ Hl).
Qed.

(** C9.  A value that is not a list (a scalar, a map, absent) comes
    back from [merge] as it is, with the store untouched. *)
Theorem merge_non_list_passthrough (fuel : nat) (h : heap) (v : value) :
  islist h v = false -> merge fuel h v = Ret (h, v).
Proof. intros Hv. unfold merge. by rewrite Hv. Qed.

Lemma replaces_alloc_map (h : heap) (m : list (string * value)) (out obj : value) :
  replaces h out obj -> replaces (h ++ [OMap m]) out obj.
Proof. unfold replaces, ismap, islist. by rewrite !isArray_alloc_map. Qed.

Lemma merge_loop_replaced (fuel : nat) (h : heap) (l : loc) (xs ys : list value) :
  h !! l = Some (OList xs) ->
  forall (oI : nat) (out : value),
    drop oI xs = ys ->
    chain_replaces h out ys ->
    merge_loop fuel (length ys) h (VRef l) oI out = Ret (h, List.last ys out).
Proof.
  intros Hl. induction ys as [|y ys IH]; intros oI out Hd Hc; [reflexivity|].
  destruct Hc as [Hr Hc].
  assert (Hy : xs !! oI = Some y).
  { rewrite <- (Nat.add_0_r oI), <- lookup_drop, Hd. reflexivity. }
  cbn [length merge_loop]. unfold list_elems at 1. rewrite Hl, Hy.
  cbn [default]. rewrite (merge_step_replace _ _ _ _ Hr).
  cbn [mbind result_bind rbind].
  rewrite (IH (S oI) y);
    [|pose proof (drop_S _ _ _ Hy) as E; congruence|exact Hc].
  f_equal. f_equal. destruct ys as [|z zs]; [reflexivity|].
  change (List.last (y :: z :: zs) out) with (List.last (z :: zs) out).
  clear. revert z. induction zs as [|w zs IH]; intros z; [reflexivity|].
  exact (IH w).
Qed.

(** X32.  At the top level of [merge] the later element wins: in a
    list of two or more elements where each element after the first is
    not a node, or follows an element that is not a node or is a node
    of the other kind, every step replaces what was merged so far, and
    [merge] gives the last element.  Of the store only the empty map
    [merge] makes for a start is new. *)
Theorem merge_later_elements_win (fuel : nat) (h : heap) (l : loc)
    (a : value) (xs : list value) :
  h !! l = Some (OList (a :: xs)) ->
  xs <> [] ->
  a <> VUndef ->
  chain_replaces h a xs ->
  merge fuel h (VRef l) = Ret (h ++ [OMap []], List.last xs a).
Proof.
  intros Hl Hxs Ha Hc. rewrite (merge_on_list _ _ _ _ Hl).
  destruct xs as [|x xs]; [done|].
  assert (is_undef a = false) as -> by (by destruct a).
  assert (Hl' : (h ++ [OMap []]) !! l = Some (OList (a :: x :: xs))).
  { rewrite lookup_app_l; [done|]. apply lookup_lt_is_Some; eauto. }
  change (length (a :: x :: xs) - 1) with (length (x :: xs)).
  apply (merge_loop_replaced fuel _ l (a :: x :: xs) (x :: xs) Hl' 1 a); [reflexivity|].
  clear -Hc. revert Hc. generalize a (x :: xs).
  intros out ys. revert out. induction ys as [|y ys IH]; intros out; [done|].
  intros [Hr Hc]. split; [by apply replaces_alloc_map|by apply IH].
Qed.

(** ** Properties of getpath *)

Lemma resolve_from_undef (h : heap) (keys : list value) :
  resolve_from h VUndef keys = VUndef.
Proof. unfold resolve_from. induction keys as [|k ks IH]; [done|]. exact IH. Qed.

Lemma descend_resolve (h : heap) (val : value) (keys : list value) :
  descend h val keys = resolve_from h val keys.
Proof.
  revert val. induction keys as [|k ks IH]; intros val; [done|].
  cbn [descend]. destruct (is_undef val) eqn:E.
  - destruct val; try discriminate. by rewrite resolve_from_undef.
  - rewrite IH. reflexivity.
Qed.

(** [getprop(store, base, store)] is [store[base]] when that is
    present and the store itself otherwise. *)
Lemma getprop_base_or_store (h : heap) (store base : value) :
  getprop h store base store
  = if haskey h store base then js_get h store base else store.
Proof.
  unfold haskey, getprop.
  destruct (is_undef store) eqn:Es; cbn [orb is_undef negb]; [done|].
  destruct (is_undef base) eqn:Eb; cbn [orb is_undef negb]; [done|].
  destruct (isnode store) eqn:En; cbn [is_undef negb].
  - destruct (is_undef (js_get h store base)) eqn:E; cbn [is_undef negb]; [done|].
    by rewrite E.
  - by rewrite Es.
Qed.

Lemma getpath_no_handler_tail (h : heap) (state val current store : value)
    (path : jspath) :
  no_handler h state ->
  (if negb (is_nullish state) && isfunc (js_get h state (VStr "handler")) then
     let ref := pathify h path None in
     match js_get h state (VStr "handler") with
     | VFun f => call_fn f [state; val; current; VStr ref; store] h
     | _ => Ret (h, val)
     end
   else Ret (h, val)) = Ret (h, val).
Proof.
  intros [H|H]; rewrite H; [reflexivity|]. by rewrite andb_false_r.
Qed.

(** C7, as the code has it.  Without a handler-bearing state: an
    empty-string path or a single empty-string segment yields
    [store[base]] when that is present and otherwise the store itself;
    and, when the store is neither null nor absent, a path of two or
    more segments whose first segment is the empty string resolves
    from [current], the leading empty segment skipped. *)
Theorem getpath_empty_and_local (h : heap) (path : jspath)
    (store current state : value) :
  no_handler h state ->
  (path_parts path = Some [VStr S_MT] ->
     getpath h path store current state
     = Ret (h, if haskey h store (getprop h state (VStr "base") VUndef)
               then js_get h store (getprop h state (VStr "base") VUndef)
               else store))
  /\ (forall p rest,
        path_parts path = Some (VStr S_MT :: p :: rest) ->
        is_nullish store = false ->
        getpath h path store current state
        = Ret (h, resolve_from h current (p :: rest))).
Proof.
  intros Hs. split.
  - intros Hp. unfold getpath. rewrite Hp.
    cbn [length Nat.eqb lookup list_lookup default value_eqb S_MT String.eqb andb].
    rewrite orb_true_r, getpath_no_handler_tail by done.
    by rewrite getprop_base_or_store.
  - intros p rest Hp Hst. unfold getpath. rewrite Hp.
    assert (path_is_null path = false) as -> by (by destruct path).
    rewrite Hst.
    cbn [length Nat.eqb Nat.ltb Nat.leb lookup list_lookup default value_eqb S_MT
         String.eqb andb orb drop is_undef].
    rewrite andb_false_r, getpath_no_handler_tail by done.
    by rewrite descend_resolve.
Qed.

(** ** Properties of validate *)

Lemma assoc_find_set_ne (k k' : string) (v : value) (m : list (string * value)) :
  k <> k' -> assoc_find k (assoc_set k' v m) = assoc_find k m.
Proof.
  intros Hne. induction m as [|[k0 v0] m IH]; cbn.
  - destruct (String.eqb_spec k k'); [done|reflexivity].
  - destruct (String.eqb_spec k' k0) as [->|E]; cbn.
    + by destruct (String.eqb_spec k k0).
    + destruct (String.eqb_spec k k0); [done|]. exact IH.
Qed.

Lemma assoc_find_literal_tail (k : string) (es m : list (string * value)) :
  k ∉ map fst es ->
  assoc_find k (foldl (fun m kv => assoc_set (fst kv) (snd kv) m) m es)
  = assoc_find k m.
Proof.
  revert m. induction es as [|[k' v'] es IH]; intros m Hk; [done|].
  cbn [foldl]. rewrite IH.
  - apply assoc_find_set_ne. intros ->. apply Hk. cbn. left.
  - intros H. apply Hk. cbn. by right.
Qed.

Lemma has_length_list (h : heap) (l : loc) (msgs : list value) :
  h !! l = Some (OList msgs) ->
  has_length h (VRef l) = negb (Nat.eqb 0 (length msgs)).
Proof.
  intros Hl. unfold has_length, js_length, js_get. rewrite Hl.
  change (js_member (OList msgs) (to_string h (VStr "length")))
    with (VNum (num_of_nat (length msgs))).
  unfold num_lt, num_of_nat. rewrite Qle_bool_inject_Z.
  destruct msgs; [reflexivity|]. cbn [length Nat.eqb negb].
  apply negb_true_iff, Z.leb_gt. lia.
Qed.

Lemma validate_unfold (fuel : nat) (h : heap) (data spec extra collecterrs : value)
    (h1 h2 : heap) (errs checks : value) :
  errs_init h collecterrs = (h1, errs) ->
  checks_init h1 errs extra = (h2, checks) ->
  validate fuel h data spec extra collecterrs =
    '(h3, out) ← transform fuel h2 data spec checks (VFun "validation");
    if has_length h3 errs && is_nullish collecterrs
    then Throw ("Invalid data: " +:+ join_values h3 S_NL (list_elems h3 errs))
    else Ret (h3, out).
Proof. intros H1 H2. unfold validate. by rewrite H1, H2. Qed.

Lemma join_values_strings (h : heap) (sep : string) (ss : list string) :
  join_values h sep (map VStr ss) = join_strings sep ss.
Proof.
  unfold join_values. f_equal. induction ss as [|x ss IH]; [done|].
  cbn [map is_nullish]. by rewrite IH.
Qed.

Lemma checks_errs_entry (h1 h2 : heap) (errs extra checks : value) :
  checks_init h1 errs extra = (h2, checks) ->
  (truthy extra = true -> S_DERRS ∉ map fst (spread_props h1 extra)) ->
  js_get h2 checks (VStr S_DERRS) = errs.
Proof.
  unfold checks_init. intros Hc Hx.
  assert (Hlit : forall hx ex,
    S_DERRS ∉ map fst (spread_props hx ex) ->
    alloc hx (object_literal (validate_directives errs ++ spread_props hx ex)) = (h2, checks) ->
    js_get h2 checks (VStr S_DERRS) = errs).
  { intros hx ex Hnot Hal. unfold alloc in Hal.
    apply pair_equal_spec in Hal as [<- <-]. unfold js_get.
    rewrite lookup_app_r, Nat.sub_diag by lia.
    cbn [lookup list_lookup]. unfold to_string, js_member, object_literal.
    rewrite foldl_app, assoc_find_literal_tail by done.
    reflexivity. }
  destruct (truthy extra) eqn:Et.
  - apply (Hlit h1 extra); auto.
  - cbn [alloc] in Hc. apply (Hlit (h1 ++ [OMap []]) (VRef (length h1))); [|done].
    unfold spread_props. rewrite lookup_app_r, Nat.sub_diag by lia.
    cbn. apply not_elem_of_nil.
Qed.

(** X31.  What [validate] does around the engine.  A truthy
    [collecterrs] is itself the error list, and unless the caller's
    [extra] has an [$ERRS] of its own that list is what the engine
    finds under [$ERRS].  An exception of the engine passes through
    [validate], whether or not [collecterrs] was supplied.  When the
    engine comes back with the error list holding [msgs]: [validate]
    returns the engine's result if [msgs] is empty or [collecterrs] is
    not null or absent; otherwise it raises, and for messages that are
    strings the exception says [Invalid data: ] and then the messages,
    one per line. *)
Theorem validate_around_the_engine (fuel : nat) (h : heap)
    (data spec extra collecterrs : value) (h1 h2 : heap) (errs checks : value) :
  errs_init h collecterrs = (h1, errs) ->
  checks_init h1 errs extra = (h2, checks) ->
  (truthy collecterrs = true -> errs = collecterrs)
  /\ ((truthy extra = true -> S_DERRS ∉ map fst (spread_props h1 extra)) ->
        js_get h2 checks (VStr S_DERRS) = errs)
  /\ (forall m, transform fuel h2 data spec checks (VFun "validation") = Throw m ->
        validate fuel h data spec extra collecterrs = Throw m)
  /\ (forall h3 out l msgs,
        transform fuel h2 data spec checks (VFun "validation") = Ret (h3, out) ->
        errs = VRef l ->
        h3 !! l = Some (OList msgs) ->
        (msgs = [] \/ is_nullish collecterrs = false ->
           validate fuel h data spec extra collecterrs = Ret (h3, out))
        /\ (forall ss, msgs = map VStr ss -> ss <> [] ->
              is_nullish collecterrs = true ->
              validate fuel h data spec extra collecterrs
              = Throw ("Invalid data: " +:+ join_strings S_NL ss))).
Proof.
  intros H1 H2. rewrite (validate_unfold _ _ _ _ _ _ _ _ _ _ H1 H2).
  split; [|split; [|split]].
  - intros Ht. unfold errs_init in H1. rewrite Ht in H1. by inversion H1.
  - intros Hx. by apply (checks_errs_entry h1 h2 _ extra).
  - intros m ->. reflexivity.
  - intros h3 out l msgs -> -> Hl. cbn [mbind result_bind rbind].
    rewrite (has_length_list _ _ _ Hl). unfold list_elems. rewrite Hl. split.
    + intros [->|Hn]; [reflexivity|]. by rewrite Hn, andb_false_r.
    + intros ss -> Hss ->. rewrite join_values_strings.
      by destruct ss.
Qed.

(** ** Decimal keys

    The index strings [keysof] and [items] make for a list are read back
    by [array_index] and by [+key] as the index they print. *)

Lemma digit_of_pretty_char (d : N) :
  (d < 10)%N -> digit_of (pretty_N_char d) = Some d.
Proof.
  intros Hd.
  assert (d = 0 \/ d = 1 \/ d = 2 \/ d = 3 \/ d = 4 \/ d = 5 \/ d = 6
          \/ d = 7 \/ d = 8 \/ d = 9)%N as H by lia.
  destruct H as [->|[->|[->|[->|[->|[->|[->|[->|[->| ->]]]]]]]]]; reflexivity.
Qed.

Lemma parse_digits_pretty_go (x : N) (s : string) :
  parse_digits 0 (pretty_N_go x s) = parse_digits x s.
Proof.
  revert s. induction (N.lt_wf_0 x) as [x _ IH]; intros s.
  assert (x = 0 \/ 0 < x)%N as [->|Hx] by lia; [by rewrite pretty_N_go_0|].
  rewrite pretty_N_go_step by done. rewrite IH by (by apply N.div_lt).
  cbn [parse_digits]. rewrite digit_of_pretty_char by (by apply N.mod_lt).
  f_equal. rewrite N.mul_comm. symmetry. apply N.div_mod. lia.
Qed.

Lemma pretty_go_length (k : nat) :
  forall (x : N) (s : string),
    (x < 10 ^ N.of_nat k)%N ->
    String.length (pretty_N_go x s) <= k + String.length s.
Proof.
  induction k as [|k IH]; intros x s Hx.
  - assert (x = 0%N) as -> by (cbn in Hx; lia). rewrite pretty_N_go_0. lia.
  - assert (x = 0 \/ 0 < x)%N as [->|Hpos] by lia.
    { rewrite pretty_N_go_0. lia. }
    rewrite pretty_N_go_step by done.
    etrans; [apply IH|cbn; lia].
    apply N.Div0.div_lt_upper_bound.
    replace (10 * 10 ^ N.of_nat k)%N with (10 ^ N.of_nat (S k))%N; [done|].
    rewrite Nat2N.inj_succ, N.pow_succ_r'. reflexivity.
Qed.

Lemma parse_decimal_pretty (n : N) :
  (n < 10 ^ 15)%N -> parse_decimal (pretty n) = Some n.
Proof.
  intros Hn. unfold pretty, pretty_N. case_decide as H0; [by subst|].
  unfold parse_decimal.
  assert (Hlen : String.length (pretty_N_go n "") <= 15).
  { etrans; [apply (pretty_go_length 15)|]; [exact Hn|cbn; lia]. }
  destruct (pretty_N_go n "") eqn:E.
  - exfalso. pose proof (parse_digits_pretty_go n "") as Hp.
    rewrite E in Hp. cbn in Hp. by injection Hp as <-.
  - rewrite <- E in *.
    replace (String.length (pretty_N_go n "") <=? 15)%nat with true
      by (symmetry; by apply Nat.leb_le).
    rewrite parse_digits_pretty_go. reflexivity.
Qed.

Lemma array_index_pretty (i : nat) :
  (N.of_nat i < 4294967295)%N -> array_index (pretty i) = Some i.
Proof.
  intros Hi. unfold array_index, pretty at 1, pretty_nat.
  rewrite parse_decimal_pretty by lia.
  rewrite String.eqb_refl.
  replace (N.of_nat i <? 4294967295)%N with true by (symmetry; by apply N.ltb_lt).
  cbn. by rewrite Nat2N.id.
Qed.

(** ** More on the accessors *)

Lemma assoc_find_del_ne (k k' : string) (m : list (string * value)) :
  k <> k' -> assoc_find k (assoc_del k' m) = assoc_find k m.
Proof.
  intros Hne. unfold assoc_del. induction m as [|[k0 v0] m IH]; cbn; [done|].
  destruct (String.eqb_spec k' k0) as [->|E]; cbn.
  - destruct (String.eqb_spec k k0); [done|exact IH].
  - destruct (String.eqb_spec k k0); [done|exact IH].
Qed.

Lemma js_member_map (m : list (string * value)) (k : string) :
  js_member (OMap m) k
  = match assoc_find k m with
    | Some v => v
    | None => Object_prototype k
    end.
Proof. reflexivity. Qed.

Lemma getprop_map_string (h : heap) (l : loc) (m : list (string * value))
    (k : string) (alt : value) :
  h !! l = Some (OMap m) ->
  getprop h (VRef l) (VStr k) alt
  = if is_undef (js_member (OMap m) k) then alt else js_member (OMap m) k.
Proof.
  intros Hl. unfold getprop, js_get. rewrite Hl.
  cbn [is_undef orb to_string]. change (isnode (VRef l)) with true.
  reflexivity.
Qed.

Lemma assign_entry_plain (k : string) (v : value) (m : list (string * value)) :
  k <> "__proto__" -> assign_entry k v m = assoc_set k v m.
Proof.
  intros Hk. unfold assign_entry.
  by destruct (String.eqb_spec k "__proto__").
Qed.

Lemma assign_entry_cases (k : string) (v : value) (m : list (string * value)) :
  assign_entry k v m = m \/ assign_entry k v m = assoc_set k v m.
Proof. unfold assign_entry. destruct (_ && _); auto. Qed.

Lemma assoc_find_assign_ne (k k' : string) (v : value) (m : list (string * value)) :
  k <> k' -> assoc_find k (assign_entry k' v m) = assoc_find k m.
Proof.
  intros Hne. destruct (assign_entry_cases k' v m) as [->| ->]; [done|].
  by apply assoc_find_set_ne.
Qed.

Lemma setprop_map_string (h : heap) (l : loc) (m : list (string * value))
    (k : string) (x : value) :
  h !! l = Some (OMap m) ->
  k <> "" ->
  setprop h (VRef l) (VStr k) x
  = (<[l := OMap (if is_undef x then assoc_del k m else assign_entry k x m)]> h,
     VRef l).
Proof.
  intros Hl Hk. unfold setprop.
  rewrite (iskey_nonempty k Hk), (ismap_map _ _ _ Hl). cbn [negb to_string].
  unfold map_entries, store_obj. rewrite Hl. by destruct (is_undef x).
Qed.

(** Setting or deleting [k] changes what no other name reads as. *)
Lemma js_member_other (m : list (string * value)) (k k' : string) (x : value) :
  k' <> k ->
  js_member (OMap (if is_undef x then assoc_del k m else assign_entry k x m)) k'
  = js_member (OMap m) k'.
Proof.
  intros Hne. rewrite !js_member_map.
  destruct (is_undef x); by rewrite ?assoc_find_del_ne, ?assoc_find_assign_ne.
Qed.

Lemma assoc_find_assign (k : string) (v : value) (m : list (string * value)) :
  k <> "__proto__" -> assoc_find k (assign_entry k v m) = Some v.
Proof. intros Hk. by rewrite assign_entry_plain, assoc_find_set. Qed.

(** What a key reads as once it has been set or deleted. *)
Lemma getprop_after_setprop_map (h : heap) (l : loc) (m : list (string * value))
    (k : string) (x alt : value) :
  h !! l = Some (OMap m) ->
  k <> "" ->
  k <> "__proto__" ->
  getprop (fst (setprop h (VRef l) (VStr k) x)) (VRef l) (VStr k) alt
  = if is_undef x
    then (if is_undef (Object_prototype k) then alt else Object_prototype k)
    else x.
Proof.
  intros Hl Hk Hp.
  assert (Hlt : l < length h) by (apply lookup_lt_is_Some; eauto).
  rewrite (setprop_map_string _ _ _ _ _ Hl Hk). cbn [fst].
  rewrite (getprop_map_string _ l _ k alt (list_lookup_insert_eq h l _ Hlt)).
  rewrite js_member_map.
  destruct (is_undef x) eqn:Hx.
  - by rewrite assoc_find_del.
  - by rewrite assoc_find_assign, Hx.
Qed.

Lemma getprop_other_after_setprop_map (h : heap) (l : loc)
    (m : list (string * value)) (k k' : string) (x alt : value) :
  h !! l = Some (OMap m) ->
  k <> "" ->
  k' <> k ->
  getprop (fst (setprop h (VRef l) (VStr k) x)) (VRef l) (VStr k') alt
  = getprop h (VRef l) (VStr k') alt.
Proof.
  intros Hl Hk Hne.
  assert (Hlt : l < length h) by (apply lookup_lt_is_Some; eauto).
  rewrite (setprop_map_string _ _ _ _ _ Hl Hk). cbn [fst].
  rewrite (getprop_map_string _ l _ k' alt (list_lookup_insert_eq h l _ Hlt)).
  rewrite (getprop_map_string _ l _ k' alt Hl).
  by rewrite js_member_other.
Qed.


(** X2.  On a map, setting or deleting a key other than [__proto__]
    leaves what every other key reads as unchanged, own and inherited
    names alike. *)
Theorem setprop_map_other_keys (h : heap) (l : loc) (m : list (string * value))
    (k k' : string) (x alt : value) :
  h !! l = Some (OMap m) ->
  k <> "" ->
  k <> "__proto__" ->
  k' <> k ->
  getprop (fst (setprop h (VRef l) (VStr k) x)) (VRef l) (VStr k') alt
  = getprop h (VRef l) (VStr k') alt.
Proof.
  intros Hl Hk _ Hne.
  rewrite (setprop_map_string _ _ _ _ _ Hl Hk). cbn [fst].
  rewrite (getprop_map_string _ l _ k' alt
             (list_lookup_insert_eq h l _ (proj1 (lookup_lt_is_Some h l) (ex_intro _ _ Hl)))).
  rewrite (getprop_map_string _ _ _ _ _ Hl).
  by rewrite js_member_other.
Qed.

(** X3.  [setprop] returns its parent and writes to no other node: the
    store keeps its size, every node but the parent is untouched, and
    no node changes kind (a map stays a map, a list a list). *)
Theorem setprop_touches_parent_only (h : heap) (parent key val : value) :
  snd (setprop h parent key val) = parent
  /\ length (fst (setprop h parent key val)) = length h
  /\ (forall l, parent <> VRef l -> fst (setprop h parent key val) !! l = h !! l)
  /\ (forall v, Array_isArray (fst (setprop h parent key val)) v = Array_isArray h v).
Proof.
  assert (Hstore : forall o,
    (match parent with
     | VRef l => match h !! l, o with
                 | Some (OMap _), OMap _ | Some (OList _), OList _ => True
                 | None, _ => True
                 | _, _ => False
                 end
     | _ => True
     end) ->
    length (store_obj h parent o) = length h
    /\ (forall l, parent <> VRef l -> store_obj h parent o !! l = h !! l)
    /\ (forall v, Array_isArray (store_obj h parent o) v = Array_isArray h v)).
  { intros o Ho. destruct parent as [| | | | | |lp]; try done. cbn [store_obj].
    split; [by rewrite length_insert|]. split.
    - intros l Hl. apply list_lookup_insert_ne. congruence.
    - intros [| | | | | |r]; try done. unfold Array_isArray.
      destruct (decide (lp = r)) as [->|Hr].
      + destruct (h !! r) as [[m|xs]|] eqn:E.
        * rewrite list_lookup_insert_eq by (apply lookup_lt_is_Some; eauto).
          by destruct o.
        * rewrite list_lookup_insert_eq by (apply lookup_lt_is_Some; eauto).
          by destruct o.
        * by rewrite list_insert_ge, E by (by apply lookup_ge_None).
      + by rewrite list_lookup_insert_ne. }
  unfold setprop.
  destruct (negb (iskey key)); [done|].
  destruct (ismap h parent) eqn:Em.
  - assert (Hk : forall m', match parent with
       | VRef l => match h !! l, OMap m' with
                   | Some (OMap _), OMap _ | Some (OList _), OList _ => True
                   | None, _ => True
                   | _, _ => False
                   end
       | _ => True end).
    { intros m'. destruct parent as [| | | | | |lp]; try done.
      unfold ismap, Array_isArray in Em. by destruct (h !! lp) as [[?|?]|]. }
    destruct (is_undef val); cbn [fst snd]; (split; [done|]); apply Hstore; exact (Hk []).
  - destruct (islist h parent) eqn:El; [|done].
    assert (Hk : forall xs', match parent with
       | VRef l => match h !! l, OList xs' with
                   | Some (OMap _), OMap _ | Some (OList _), OList _ => True
                   | None, _ => True
                   | _, _ => False
                   end
       | _ => True end).
    { intros xs'. destruct parent as [| | | | | |lp]; try done.
      unfold islist, Array_isArray in El. by destruct (h !! lp) as [[?|?]|]. }
    destruct (is_nan (key_to_number key)); [done|].
    destruct (is_undef val).
    + destruct (num_le _ _ && num_lt _ _); cbn [fst snd]; [|done].
      split; [done|]. apply Hstore; exact (Hk []).
    + destruct (num_le _ _); cbn [fst snd]; (split; [done|]); apply Hstore; exact (Hk []).
Qed.

Lemma list_assign_within (i : nat) (x : value) (xs : list value) :
  i <= length xs ->
  list_assign i x xs = if (i <? length xs)%nat then <[i := x]> xs else xs ++ [x].
Proof.
  intros Hi. unfold list_assign. destruct (i <? length xs)%nat eqn:E; [done|].
  apply Nat.ltb_ge in E. by replace (i - length xs) with 0 by lia.
Qed.

Lemma Math_floor_cases (n : number) :
  n = NaN \/ Math_floor n = NegInf \/ Math_floor n = PosInf
  \/ exists z, Math_floor n = num_of_Z z.
Proof. destruct n; eauto. Qed.

(** X4.  A list that has no absent element has none after [setprop],
    whatever the key and the value, and its length moves by at most
    one: [setprop] never leaves a hole. *)
Theorem setprop_list_never_leaves_holes (h : heap) (l : loc) (xs : list value)
    (key x : value) :
  h !! l = Some (OList xs) ->
  Forall (fun v => v <> VUndef) xs ->
  exists ys,
    fst (setprop h (VRef l) key x) !! l = Some (OList ys)
    /\ Forall (fun v => v <> VUndef) ys
    /\ length ys <= S (length xs)
    /\ length xs <= S (length ys).
Proof.
  intros Hl Hxs.
  assert (Hlt : l < length h) by (apply lookup_lt_is_Some; eauto).
  assert (Hsame : exists ys, h !! l = Some (OList ys)
            /\ Forall (fun v => v <> VUndef) ys
            /\ length ys <= S (length xs) /\ length xs <= S (length ys))
    by (exists xs; repeat split; try done; lia).
  assert (Hnew : forall ys,
    Forall (fun v => v <> VUndef) ys ->
    length ys <= S (length xs) -> length xs <= S (length ys) ->
    exists ys', <[l := OList ys]> h !! l = Some (OList ys')
      /\ Forall (fun v => v <> VUndef) ys'
      /\ length ys' <= S (length xs) /\ length xs <= S (length ys')).
  { intros ys ???. exists ys. by rewrite list_lookup_insert_eq. }
  destruct (iskey key) eqn:Hk; [|by unfold setprop; rewrite Hk].
  destruct (Math_floor_cases (key_to_number key)) as [Hn|[Hn|[Hn|[z Hn]]]].
  - unfold setprop.
    by rewrite Hk, (ismap_list _ _ _ Hl), (islist_list _ _ _ Hl), Hn.
  - unfold setprop.
    rewrite Hk, (ismap_list _ _ _ Hl), (islist_list _ _ _ Hl). cbn [negb].
    assert (is_nan (key_to_number key) = false) as ->
      by (destruct (key_to_number key); done).
    rewrite Hn. unfold list_elems, store_obj. rewrite Hl.
    destruct (is_undef x) eqn:Ex; cbn [num_le num_of_nat andb fst]; [done|].
    apply Hnew; cbn; [|lia..]. constructor; [|done]. by destruct x.
  - unfold setprop.
    rewrite Hk, (ismap_list _ _ _ Hl), (islist_list _ _ _ Hl). cbn [negb].
    assert (is_nan (key_to_number key) = false) as ->
      by (destruct (key_to_number key); done).
    rewrite Hn. unfold list_elems, store_obj. rewrite Hl.
    destruct (is_undef x) eqn:Ex; cbn [num_le num_lt num_of_nat andb fst]; [done|].
    apply Hnew; rewrite list_assign_within, Nat.ltb_irrefl by done.
    + apply Forall_app. split; [done|]. constructor; [|done]. by destruct x.
    + rewrite length_app. cbn. lia.
    + rewrite length_app. cbn. lia.
  - rewrite (setprop_on_list _ _ _ _ _ _ Hl Hk Hn).
    destruct (is_undef x) eqn:Ex.
    + destruct ((0 <=? z)%Z && (z <? Z.of_nat (length xs))%Z) eqn:E; [|done].
      apply andb_true_iff in E as [E1%Z.leb_le E2%Z.ltb_lt]. cbn [fst].
      rewrite list_remove_spec by lia.
      apply Hnew.
      * apply Forall_app. split; [by apply Forall_take|by apply Forall_drop].
      * rewrite length_app, length_take, length_drop. lia.
      * rewrite length_app, length_take, length_drop. lia.
    + assert (Hx : x <> VUndef) by (by destruct x).
      destruct (0 <=? z)%Z eqn:E0; cbn [fst].
      * apply Z.leb_le in E0.
        set (i := if (Z.of_nat (length xs) <? z)%Z then length xs else Z.to_nat z).
        assert (Hi : i <= length xs).
        { subst i. destruct (Z.of_nat (length xs) <? z)%Z eqn:E1; [done|].
          apply Z.ltb_ge in E1. lia. }
        rewrite list_assign_within by done.
        destruct (i <? length xs)%nat; apply Hnew.
        -- by apply Forall_insert.
        -- rewrite length_insert. lia.
        -- rewrite length_insert. lia.
        -- apply Forall_app. split; [done|]. by constructor.
        -- rewrite length_app. cbn. lia.
        -- rewrite length_app. cbn. lia.
      * apply Hnew; cbn; [|lia..]. by constructor.
Qed.

Lemma pretty_Z_of_nat (i : nat) : pretty (Z.of_nat i) = pretty i.
Proof. unfold pretty at 2, pretty_nat. by destruct i. Qed.

Lemma to_string_index (h : heap) (i : nat) :
  (N.of_nat i < 4294967295)%N ->
  to_string h (VNum (num_of_nat i)) = pretty i.
Proof.
  intros Hi. unfold to_string, num_of_nat, num_to_string.
  rewrite Qfloor_Z, Qeq_bool_refl.
  replace (Z.abs (Z.of_nat i) <=? 9007199254740992)%Z with true
    by (symmetry; apply Z.leb_le; lia).
  cbn [andb]. apply pretty_Z_of_nat.
Qed.

Lemma getprop_list_at (h : heap) (l : loc) (xs : list value) (key alt : value)
    (i : nat) :
  h !! l = Some (OList xs) ->
  is_undef key = false ->
  array_index (to_string h key) = Some i ->
  getprop h (VRef l) key alt
  = match xs !! i with
    | Some v => if is_undef v then alt else v
    | None => alt
    end.
Proof.
  intros Hl Hk Hi. unfold getprop, js_get. rewrite Hl, Hk. cbn.
  rewrite Hi. destruct (xs !! i) as [v|]; cbn; [done|]. by destruct (is_undef alt).
Qed.

(** X5.  On a list, reading index [i] back after setting it to a value
    that is not absent gives that value when [i] is at most the length;
    past the length the value was appended at the end and index [i]
    still reads as absent. *)
Theorem setprop_getprop_list_round_trip (h : heap) (l : loc) (xs : list value)
    (i : nat) (x alt : value) :
  h !! l = Some (OList xs) ->
  x <> VUndef ->
  (N.of_nat i < 4294967295)%N ->
  (i <= length xs ->
     getprop (fst (setprop h (VRef l) (num i) x)) (VRef l) (num i) alt = x)
  /\ (length xs < i ->
        getprop (fst (setprop h (VRef l) (num i) x)) (VRef l) (num i) alt = alt
        /\ getprop (fst (setprop h (VRef l) (num i) x)) (VRef l)
             (num (length xs)) alt = x).
Proof.
  intros Hl Hx Hi.
  assert (Hlt : l < length h) by (apply lookup_lt_is_Some; eauto).
  assert (Hu : is_undef x = false) by (by destruct x).
  assert (Hset : setprop h (VRef l) (num i) x
                 = (<[l := OList (if (i <? length xs)%nat then <[i := x]> xs
                                  else xs ++ [x])]> h, VRef l)).
  { rewrite (setprop_on_list h l xs (num i) x (Z.of_nat i) Hl eq_refl)
      by (unfold num, key_to_number, num_of_nat, Math_floor, num_of_Z;
          by rewrite Qfloor_Z).
    rewrite Hu. replace (0 <=? Z.of_nat i)%Z with true by (symmetry; apply Z.leb_le; lia).
    rewrite Nat2Z.id.
    destruct (Z.of_nat (length xs) <? Z.of_nat i)%Z eqn:E.
    - apply Z.ltb_lt in E. rewrite list_assign_within, Nat.ltb_irrefl by done.
      by replace (i <? length xs)%nat with false by (symmetry; apply Nat.ltb_ge; lia).
    - apply Z.ltb_ge in E. by rewrite list_assign_within by lia. }
  rewrite Hset. cbn [fst]. split.
  - intros Hle.
    rewrite (getprop_list_at _ l _ (num i) alt i (list_lookup_insert_eq h l _ Hlt) eq_refl)
      by (unfold num; by rewrite to_string_index, array_index_pretty).
    destruct (i <? length xs)%nat eqn:E.
    + apply Nat.ltb_lt in E. rewrite list_lookup_insert_eq by done. by rewrite Hu.
    + apply Nat.ltb_ge in E. assert (i = length xs) as -> by lia.
      rewrite lookup_app_r, Nat.sub_diag by done. cbn. by rewrite Hu.
  - intros Hgt.
    replace (i <? length xs)%nat with false by (symmetry; apply Nat.ltb_ge; lia).
    split.
    + rewrite (getprop_list_at _ l _ (num i) alt i (list_lookup_insert_eq h l _ Hlt) eq_refl)
        by (unfold num; by rewrite to_string_index, array_index_pretty).
      rewrite lookup_ge_None_2; [done|]. rewrite length_app. cbn. lia.
    + rewrite (getprop_list_at _ l _ (num (length xs)) alt (length xs)
                 (list_lookup_insert_eq h l _ Hlt) eq_refl)
        by (unfold num; rewrite to_string_index, array_index_pretty; [done|lia..]).
      rewrite lookup_app_r, Nat.sub_diag by done. cbn. by rewrite Hu.
Qed.

(** ** Key order *)

Lemma ascii_compare_trans_le (x y z : ascii) :
  Ascii.compare x y <> Gt -> Ascii.compare y z <> Gt -> Ascii.compare x z <> Gt.
Proof.
  unfold Ascii.compare. rewrite !N.compare_gt_iff. lia.
Qed.

Lemma string_compare_trans_le (a : string) :
  forall b c, String.compare a b <> Gt -> String.compare b c <> Gt ->
              String.compare a c <> Gt.
Proof.
  induction a as [|x a IH]; intros [|y b] [|z c]; cbn; try done.
  destruct (Ascii.compare x y) eqn:Exy; [| |done].
  - apply Ascii.compare_eq_iff in Exy as ->.
    destruct (Ascii.compare y z); [apply IH|done..].
  - intros _. destruct (Ascii.compare y z) eqn:Eyz; [| |done].
    + apply Ascii.compare_eq_iff in Eyz as <-. by rewrite Exy.
    + intros _.
      assert (Ascii.compare x z = Lt) as ->; [|done].
      unfold Ascii.compare in *. rewrite N.compare_lt_iff in *. lia.
Qed.

#[local] Instance str_le_trans : Transitive str_le.
Proof.
  intros a b c. unfold str_le, String.leb. intros Hab Hbc.
  pose proof (string_compare_trans_le a b c) as H.
  destruct (String.compare a b); destruct (String.compare b c);
    destruct (String.compare a c); try done; exfalso; by apply H.
Qed.

#[local] Instance str_le_antisym : AntiSymm (=) str_le.
Proof. intros a b. apply String.leb_antisym. Qed.

Lemma insert_sorted_perm {A} (le : A -> A -> bool) (x : A) (l : list A) :
  insert_sorted le x l ≡ₚ x :: l.
Proof.
  induction l as [|y l IH]; cbn; [done|].
  destruct (le x y); [done|]. rewrite IH. apply Permutation_swap.
Qed.

Lemma sort_by_perm {A} (le : A -> A -> bool) (l : list A) : sort_by le l ≡ₚ l.
Proof.
  unfold sort_by. induction l as [|x l IH]; cbn; [done|].
  by rewrite insert_sorted_perm, IH.
Qed.

Lemma insert_sorted_strings (x : string) (l : list string) :
  Sorted str_le l -> Sorted str_le (insert_sorted String.leb x l).
Proof.
  induction l as [|y l IH]; intros Hs; cbn.
  - by repeat constructor.
  - destruct (String.leb x y) eqn:E.
    + constructor; [done|]. by constructor.
    + apply Sorted_inv in Hs as [Hs Hhd]. constructor; [by apply IH|].
      assert (Hyx : str_le y x).
      { destruct (String.leb_total x y) as [H|H]; [congruence|done]. }
      destruct l as [|z l]; cbn.
      * by constructor.
      * destruct (String.leb x z); constructor; [done|].
        by apply HdRel_inv in Hhd.
Qed.

Lemma sort_strings_sorted (l : list string) : Sorted str_le (sort_strings l).
Proof.
  unfold sort_strings, sort_by. induction l as [|x l IH]; cbn; [constructor|].
  by apply insert_sorted_strings.
Qed.

Lemma filter_split_perm {A} (f : A -> bool) (l : list A) :
  List.filter f l ++ List.filter (fun x => negb (f x)) l ≡ₚ l.
Proof.
  induction l as [|x l IH]; cbn; [done|].
  destruct (f x); cbn; [by rewrite IH|].
  rewrite <- Permutation_middle. by rewrite IH.
Qed.

Lemma Object_keys_map_perm (m : list (string * value)) :
  Object_keys_map m ≡ₚ map fst m.
Proof.
  unfold Object_keys_map. rewrite sort_by_perm. apply filter_split_perm.
Qed.

Lemma keysof_map (h : heap) (l : loc) (m : list (string * value)) :
  h !! l = Some (OMap m) ->
  keysof h (VRef l) = sort_strings (Object_keys_map m).
Proof.
  intros Hl. unfold keysof. rewrite (ismap_map _ _ _ Hl).
  unfold Object_keys. by rewrite Hl.
Qed.

(** X6.  The keys [keysof] lists for a map are the map's keys in
    ascending order, whatever the order they were inserted in: two maps
    with the same keys give the same list. *)
Theorem keysof_sorted_whatever_the_insertion_order (h : heap) (l : loc)
    (m : list (string * value)) :
  h !! l = Some (OMap m) ->
  Sorted str_le (keysof h (VRef l))
  /\ keysof h (VRef l) ≡ₚ map fst m
  /\ (forall h' l' m',
        h' !! l' = Some (OMap m') ->
        map fst m' ≡ₚ map fst m ->
        keysof h' (VRef l') = keysof h (VRef l)).
Proof.
  intros Hl. rewrite (keysof_map _ _ _ Hl).
  split; [apply sort_strings_sorted|].
  split; [unfold sort_strings; by rewrite sort_by_perm, Object_keys_map_perm|].
  intros h' l' m' Hl' Hperm. rewrite (keysof_map _ _ _ Hl').
  apply (Sorted_unique str_le); try apply sort_strings_sorted.
  unfold sort_strings. by rewrite !sort_by_perm, !Object_keys_map_perm.
Qed.

Lemma isnode_ref (l : loc) : isnode (VRef l) = true.
Proof. reflexivity. Qed.

(** X7.  [items] of a list pairs every element, in order, with its
    index written in decimal. *)
Theorem items_of_list (h : heap) (l : loc) (xs : list value) :
  h !! l = Some (OList xs) ->
  (N.of_nat (length xs) < 4294967295)%N ->
  items h (VRef l) = imap (fun i x => (pretty i, x)) xs.
Proof.
  intros Hl Hlen. unfold items, keysof.
  rewrite (ismap_list _ _ _ Hl), isnode_ref. cbn [negb].
  unfold Object_keys. rewrite Hl. cbn [Object_keys_obj]. unfold index_keys.
  apply list_eq. intros i.
  rewrite !list_lookup_fmap, list_lookup_imap.
  destruct (xs !! i) as [x|] eqn:Ex.
  - assert (Hi : i < length xs) by (apply lookup_lt_is_Some; eauto).
    rewrite lookup_seq_lt by done. cbn.
    unfold js_get. rewrite Hl. cbn [to_string js_member].
    rewrite array_index_pretty by lia. by rewrite Ex.
  - apply lookup_ge_None in Ex. by rewrite lookup_seq_ge.
Qed.

(** ** More on getpath, pathify and stringify *)

(** X9.  An absolute path (first segment not the empty string) on a
    store that is neither null nor absent starts at the store; when the
    first segment is absent there it is looked up under [store[base]]
    instead; the remaining segments descend from what was found. *)
Theorem getpath_absolute_retries_under_base (h : heap) (path : jspath)
    (store current state p : value) (rest : list value) :
  no_handler h state ->
  is_nullish store = false ->
  path_parts path = Some (p :: rest) ->
  value_eqb (VStr S_MT) p = false ->
  getpath h path store current state
  = Ret (h, resolve_from h
              (if is_undef (getprop h store p VUndef)
               then getprop h (getprop h store (getprop h state (VStr "base") VUndef) VUndef)
                      p VUndef
               else getprop h store p VUndef)
              rest).
Proof.
  intros Hs Hst Hp Hne. unfold getpath. rewrite Hp.
  assert (path_is_null path = false) as -> by (by destruct path).
  rewrite Hst, getpath_no_handler_tail by done.
  cbn [length lookup list_lookup default orb id].
  rewrite Hne, andb_false_r.
  cbn [Nat.ltb Nat.leb drop Nat.eqb andb lookup list_lookup default id].
  by rewrite andb_true_r, descend_resolve.
Qed.

Lemma prefix_dot (a : ascii) (s : string) :
  String.prefix "." (String a s) = Ascii.eqb a ".".
Proof.
  change (String.prefix "." (String a s))
    with (match ascii_dec "." a with
          | left _ => String.prefix "" s
          | right _ => false
          end).
  destruct (ascii_dec "." a) as [<-|H].
  - by destruct s.
  - symmetry. apply Ascii.eqb_neq. congruence.
Qed.

Lemma dot_free_cons (a : ascii) (s : string) :
  dot_free (String a s) -> Ascii.eqb a "." = false /\ dot_free s.
Proof.
  unfold dot_free, S_DT. cbn [str_includes]. rewrite prefix_dot.
  by intros [??]%orb_false_iff.
Qed.

Lemma remove_dot_free (s : string) : dot_free s -> remove_char "." s = s.
Proof.
  induction s as [|a s IH]; [done|]. intros [Ha Hs]%dot_free_cons.
  cbn. by rewrite Ha, IH.
Qed.

Lemma string_app_cons (a : ascii) (s t : string) :
  String a s +:+ t = String a (s +:+ t).
Proof. reflexivity. Qed.

Lemma split_on_app_dot (s t : string) :
  dot_free s ->
  split_on "." (s +:+ "." +:+ t) = s :: split_on "." t.
Proof.
  induction s as [|a s IH]; intros Hs; [reflexivity|].
  apply dot_free_cons in Hs as [Ha Hs].
  rewrite string_app_cons. cbn [split_on]. rewrite Ha.
  by rewrite IH.
Qed.

Lemma split_on_dot_free (s : string) : dot_free s -> split_on "." s = [s].
Proof.
  induction s as [|a s IH]; [done|]. intros [Ha Hs]%dot_free_cons.
  cbn. by rewrite Ha, IH.
Qed.

Lemma split_join_dot (l : list string) :
  l <> [] -> Forall dot_free l -> split_on "." (join_strings S_DT l) = l.
Proof.
  induction l as [|s l IH]; [done|]. intros _ Hl.
  apply Forall_cons in Hl as [Hs Hl]. destruct l as [|t l].
  - by apply split_on_dot_free.
  - cbn [join_strings]. rewrite split_on_app_dot by done. f_equal. by apply IH.
Qed.

Lemma pathify_segments (h : heap) (l : list string) :
  Forall dot_free l ->
  omap (fun p =>
          match p with
          | VStr s => Some (remove_char "." s)
          | VNum n => Some (S_MT +:+ num_to_string h (Math_floor n))
          | _ => None
          end) (map VStr l) = l.
Proof.
  induction 1 as [|s l Hs Hl IH]; [done|].
  cbn. rewrite remove_dot_free by done. f_equal. exact IH.
Qed.

Lemma pathify_string_list (h : heap) (l : list string) :
  l <> [] -> Forall dot_free l ->
  pathify h (PathList (map VStr l)) None = join_strings S_DT l.
Proof.
  intros Hne Hl. unfold pathify.
  change (drop (Z.to_nat 0) (map VStr l)) with (map VStr l).
  rewrite pathify_segments by done.
  destruct l as [|s l]; [done|]. reflexivity.
Qed.

(** X10.  A non-empty list of keys without dots and the string
    [pathify] makes of it are the same path: splitting the string gives
    the keys back, and without a handler-bearing state [getpath]
    resolves both alike. *)
Theorem pathify_then_split_round_trip (h : heap) (l : list string) :
  l <> [] ->
  Forall dot_free l ->
  path_parts (PathStr (pathify h (PathList (map VStr l)) None)) = Some (map VStr l)
  /\ (forall store current state,
        no_handler h state ->
        getpath h (PathStr (pathify h (PathList (map VStr l)) None)) store current state
        = getpath h (PathList (map VStr l)) store current state).
Proof.
  intros Hne Hl.
  assert (Hp : path_parts (PathStr (pathify h (PathList (map VStr l)) None))
               = Some (map VStr l)).
  { cbn [path_parts]. by rewrite pathify_string_list, split_join_dot. }
  split; [exact Hp|]. intros store current state Hs.
  unfold getpath. rewrite Hp. cbn [path_parts path_is_null].
  by rewrite !getpath_no_handler_tail.
Qed.

Lemma substring_0_length (n : nat) (s : string) :
  String.length (String.substring 0 n s) = Nat.min n (String.length s).
Proof.
  revert s. induction n as [|n IH]; intros [|c s]; cbn; try done.
  by rewrite IH.
Qed.

Lemma length_string_app (s t : string) :
  String.length (s +:+ t) = String.length s + String.length t.
Proof.
  induction s as [|c s IH]; [done|]. rewrite string_app_cons. cbn. by rewrite IH.
Qed.

Lemma remove_char_absent (c : ascii) (s : string) :
  c ∉ String.list_ascii_of_string (remove_char c s).
Proof.
  induction s as [|a s IH]; cbn; [apply not_elem_of_nil|].
  destruct (Ascii.eqb_spec a c) as [->|Hne]; [done|].
  cbn. apply not_elem_of_cons. split; [congruence|done].
Qed.

Lemma substring_0_chars (n : nat) (s : string) (c : ascii) :
  c ∈ String.list_ascii_of_string (String.substring 0 n s) ->
  c ∈ String.list_ascii_of_string s.
Proof.
  revert s. induction n as [|n IH]; intros [|a s]; cbn; try done.
  - intros H. by apply elem_of_nil in H.
  - intros [->|H]%elem_of_cons; [left|right; by apply IH].
Qed.

Lemma string_app_chars (s t : string) :
  String.list_ascii_of_string (s +:+ t)
  = String.list_ascii_of_string s ++ String.list_ascii_of_string t.
Proof.
  induction s as [|a s IH]; [done|]. rewrite string_app_cons. cbn. by rewrite IH.
Qed.

(** X11.  [stringify] never shows a double quote, and with a length
    limit of three or more its result is never longer than the limit:
    a longer text is cut and ends in three dots. *)
Theorem stringify_no_quotes_and_bounded (h : heap) (val : value)
    (maxlen : option nat) :
  (S_QUOTE ∉ String.list_ascii_of_string (stringify h val maxlen))
  /\ (forall n, maxlen = Some n -> 3 <= n ->
        String.length (stringify h val maxlen) <= n
        /\ (n < String.length (remove_char S_QUOTE (json_text h val)) ->
            is_undef val = false ->
            String.length (stringify h val maxlen) = n
            /\ String.substring (n - 3) 3 (stringify h val maxlen) = "...")).
Proof.
  unfold stringify. destruct (is_undef val) eqn:Eu.
  { split; [apply not_elem_of_nil|]. intros n _ Hn. split; [cbn; lia|done]. }
  set (str := remove_char S_QUOTE (json_text h val)).
  assert (Hq : S_QUOTE ∉ String.list_ascii_of_string str)
    by apply remove_char_absent.
  split.
  - destruct maxlen as [n|]; [|done].
    destruct (n <? String.length str)%nat; [|done].
    rewrite string_app_chars. intros [H|H]%elem_of_app.
    + by apply substring_0_chars, substring_0_chars in H.
    + cbn in H. repeat (apply elem_of_cons in H as [H|H]; [discriminate|]).
      by apply elem_of_nil in H.
  - intros n -> Hn. destruct (n <? String.length str)%nat eqn:E.
    + apply Nat.ltb_lt in E.
      assert (Hlen : String.length (String.substring 0 (n - 3)
                        (String.substring 0 n str)) = n - 3).
      { rewrite !substring_0_length. lia. }
      split.
      * rewrite length_string_app, Hlen. cbn. lia.
      * intros _ _. split; [rewrite length_string_app, Hlen; cbn; lia|].
        rewrite <- Hlen at 1.
        generalize (String.substring 0 (n - 3) (String.substring 0 n str)).
        intros t. induction t as [|c t IH]; [reflexivity|exact IH].
    + apply Nat.ltb_ge in E. split; [done|]. intros; lia.
Qed.

(** ** More on clone *)

Lemma foldl_result_inv {A B} (I : A -> Prop) (f : A -> B -> result A)
    (l : list B) :
  (forall a b r, I a -> f a b = Ret r -> I r) ->
  forall (a : A) (r : A),
    I a -> foldl (fun acc b => acc ≫= fun a => f a b) (Ret a) l = Ret r -> I r.
Proof.
  intros Hf. induction l as [|b l IH]; intros a r Ha H; cbn in H.
  - by injection H as <-.
  - destruct (foldl_result_stuck _ _ _ _ H) as [a1 Ha1].
    cbn in Ha1. rewrite Ha1 in H. eapply IH; [|exact H]. eauto.
Qed.

(** The functions [JSON.stringify] sets aside are functions. *)
Lemma to_json_refs (h : heap) (fuel : nat) :
  forall refs v refs' j,
    Forall (fun f => isfunc f = true) refs ->
    to_json fuel h refs v = Ret (refs', j) ->
    Forall (fun f => isfunc f = true) refs'.
Proof.
  induction fuel as [|fuel IH]; intros refs v refs' j Hrefs H; [discriminate|].
  cbn [to_json] in H.
  destruct v as [| | |[]| | |l]; try (by injection H as <- _).
  - injection H as <- _. apply Forall_app. split; [done|]. by constructor.
  - destruct (h !! l) as [[m|xs]|]; [| |by injection H as <- _].
    + apply rbind_ret_inv in H as ([refs1 js1] & Hf & Hr). injection Hr as <- _.
      revert Hf.
      apply (foldl_result_inv
               (fun a : list value * list (string * json) =>
                  Forall (fun f => isfunc f = true) (fst a))); [|done].
      intros [refs2 js2] k [refs3 js3] Hi Hk.
      apply rbind_ret_inv in Hk as ([refs4 j4] & Hj & Hk). injection Hk as <- _.
      by apply (IH _ _ _ _ Hi Hj).
    + apply rbind_ret_inv in H as ([refs1 js1] & Hf & Hr). injection Hr as <- _.
      revert Hf.
      apply (foldl_result_inv
               (fun a : list value * list json =>
                  Forall (fun f => isfunc f = true) (fst a))); [|done].
      intros [refs2 js2] x [refs3 js3] Hi Hx.
      apply rbind_ret_inv in Hx as ([refs4 j4] & Hj & Hx). injection Hx as <- _.
      by apply (IH _ _ _ _ Hi Hj).
Qed.

Lemma from_json_fresh (refs : list value) (j : json) :
  Forall (fun f => isfunc f = true) refs ->
  forall h, parsed_fresh h (from_json h refs j).
Proof.
  intros Hrefs.
  induction j as [| b | n | s | js IH | m IH] using json_nested_ind; intros h.
  - split; [exists []; by rewrite app_nil_r|done].
  - split; [exists []; by rewrite app_nil_r|done].
  - split; [exists []; by rewrite app_nil_r|done].
  - split; [exists []; cbn; by rewrite app_nil_r|].
    cbn. unfold revive. intros l Hl.
    destruct (marker_digits s) as [ds|]; [|done].
    destruct (array_index ds) as [i|]; [|done].
    destruct (refs !! i) as [f|] eqn:Ef; [|done]. cbn in Hl. subst f.
    by apply (Forall_lookup_1 _ _ _ _ Hrefs) in Ef.
  - cbn [from_json].
    assert (Hfold : forall acc h0, exists ext,
      fst (foldl (fun acc j =>
                    let '(h, xs) := acc in
                    let '(h, x) := from_json h refs j in (h, xs ++ [x]))
                 (h0, acc) js) = h0 ++ ext).
    { induction IH as [|j js Hj _ IHjs]; intros acc h0.
      - exists []. by rewrite app_nil_r.
      - cbn [foldl]. destruct (Hj h0) as [[e1 He1] _].
        destruct (from_json h0 refs j) as [h1 x]. cbn in He1. subst h1.
        destruct (IHjs (acc ++ [x]) (h0 ++ e1)) as [e2 He2].
        exists (e1 ++ e2). by rewrite He2, app_assoc. }
    destruct (Hfold [] h) as [ext Hext].
    destruct (foldl _ (h, []) js) as [h1 xs]. cbn in Hext. subst h1.
    split.
    + exists (ext ++ [OList xs]). cbn. by rewrite app_assoc.
    + intros l [= <-]. cbn. rewrite !length_app. cbn. lia.
  - cbn [from_json].
    assert (Hfold : forall acc h0, exists ext,
      fst (foldl (fun acc (kj : string * json) =>
                    let '(h, es) := acc in
                    let '(h, x) := from_json h refs (snd kj) in
                    (h, if is_undef x then es else assoc_set (fst kj) x es))
                 (h0, acc) m) = h0 ++ ext).
    { induction IH as [|kj m Hj _ IHm]; intros acc h0.
      - exists []. by rewrite app_nil_r.
      - cbn [foldl]. destruct (Hj h0) as [[e1 He1] _].
        destruct (from_json h0 refs (snd kj)) as [h1 x]. cbn in He1. subst h1.
        destruct (IHm (if is_undef x then acc else assoc_set (fst kj) x acc)
                    (h0 ++ e1)) as [e2 He2].
        exists (e1 ++ e2). by rewrite He2, app_assoc. }
    destruct (Hfold [] h) as [ext Hext].
    destruct (foldl _ (h, []) m) as [h1 es]. cbn in Hext. subst h1.
    split.
    + exists (ext ++ [OMap es]). cbn. by rewrite app_assoc.
    + intros l [= <-]. cbn. rewrite !length_app. cbn. lia.
Qed.

(** X12.  [clone] writes to no node that was there: the store it leaves
    is the old store with new nodes after it, and the clone of a node
    is one of the new nodes. *)
Theorem clone_never_touches_the_original (fuel : nat) (h h' : heap)
    (val v : value) :
  clone fuel h val = Ret (h', v) ->
  (exists ext, h' = h ++ ext)
  /\ (forall l, l < length h -> h' !! l = h !! l)
  /\ (isnode val = true ->
        exists l, v = VRef l /\ length h <= l < length h').
Proof.
  unfold clone. destruct (is_undef val) eqn:Eu.
  { intros [= <- <-]. split; [exists []; by rewrite app_nil_r|].
    split; [done|]. by destruct val. }
  intros H. apply rbind_ret_inv in H as ([refs j] & Hj & H).
  pose proof (to_json_refs _ _ _ _ _ _ (Forall_nil_2 _) Hj) as Hrefs.
  destruct j as [j|].
  - injection H as H.
    destruct (from_json_fresh refs j Hrefs h) as [[ext Hext] Hfresh].
    rewrite H in Hext, Hfresh. cbn in Hext, Hfresh. subst h'.
    split; [eauto|]. split; [intros l Hl; by rewrite lookup_app_l|].
    intros Hn. destruct val as [| | | | | |l0]; try done.
    destruct fuel as [|fuel]; [done|]. cbn [to_json] in Hj.
    assert (exists l, v = VRef l) as [l ->].
    { destruct (h !! l0) as [[m|xs]|].
      - apply rbind_ret_inv in Hj as ([r1 js1] & _ & Hr). injection Hr as _ <-.
        cbn [from_json] in H. destruct (foldl _ _ js1). injection H as _ <-. eauto.
      - apply rbind_ret_inv in Hj as ([r1 js1] & _ & Hr). injection Hr as _ <-.
        cbn [from_json] in H. destruct (foldl _ _ js1). injection H as _ <-. eauto.
      - injection Hj as _ <-. cbn in H. injection H as _ <-. eauto. }
    exists l. split; [done|]. by apply Hfresh.
  - injection H as <- <-. split; [exists []; by rewrite app_nil_r|].
    split; [done|]. intros Hn. destruct val as [| | | | | |l0]; try done.
    destruct fuel as [|fuel]; [done|]. cbn [to_json] in Hj.
    destruct (h !! l0) as [[m|xs]|].
    + apply rbind_ret_inv in Hj as ([r1 js1] & _ & Hr). discriminate.
    + apply rbind_ret_inv in Hj as ([r1 js1] & _ & Hr). discriminate.
    + discriminate.
Qed.

(** ** The directives *)

Lemma member_node (h : heap) (v : value) (name : string) :
  is_nullish v = false -> member h v name = Ret (js_get h v (VStr name)).
Proof. intros Hv. unfold member. by rewrite Hv. Qed.

Lemma is_undef_eq (v : value) : is_undef v = true -> v = VUndef.
Proof. by destruct v. Qed.

(** X13.  [injecthandler] calls a value only when it is a function
    reached through a reference that is absent or starts with a dollar
    sign.  Anything else, a function reached by a plain path included,
    is returned as it is, and is written to [parent[key]] exactly when
    the mode is [val] and the injection is a full one. *)
Theorem injecthandler_calls_only_commands (h : heap)
    (state val current ref store : value) :
  is_nullish state = false ->
  isfunc val = false
    \/ (exists r, ref = VStr r /\ String.prefix S_DS r = false) ->
  injecthandler h state val current ref store
  = Ret (if value_eqb (VStr S_MVAL) (js_get h state (VStr "mode"))
            && truthy (js_get h state (VStr "full"))
         then fst (setprop h (js_get h state (VStr "parent"))
                     (js_get h state (VStr "key")) val)
         else h,
         val).
Proof.
  intros Hs Hplain. unfold injecthandler.
  assert (Hno : exists starts,
             (if isfunc val && negb (is_undef ref)
              then match ref with
                   | VStr r => Ret (String.prefix S_DS r)
                   | _ => Throw "TypeError: ref.startsWith is not a function"
                   end
              else Ret false) = Ret starts
             /\ isfunc val && (is_undef ref || starts) = false).
  { destruct Hplain as [Hf|(r & -> & Hr)].
    - exists false. by rewrite Hf.
    - exists false. rewrite Hr. cbn [is_undef negb orb].
      destruct (isfunc val); done. }
  destruct Hno as (starts & -> & Hcond). cbn [mbind result_bind rbind].
  rewrite Hcond, !(member_node _ _ _ Hs). cbn [mbind result_bind rbind].
  destruct (value_eqb (VStr S_MVAL) (js_get h state (VStr "mode"))); [|done].
  cbn [andb]. by destruct (truthy (js_get h state (VStr "full"))).
Qed.



Lemma num_minus_two_length (h : heap) (n : nat) :
  2 <= n -> num_minus_two h (VNum (num_of_nat n)) = VNum (num_of_nat (n - 2)).
Proof.
  intros Hn. unfold num_minus_two, to_number, num_of_nat. do 2 f_equal.
  unfold Qminus, Qplus, Qopp, inject_Z. cbn. f_equal. lia.
Qed.

(** X16.  [transform_KEY] does nothing outside [val] mode.  In [val]
    mode a [`$KEY`] entry of the parent names the property of the
    current node to give back, and is consumed: afterwards the parent
    no longer has it, and its other keys read as before.  Without that
    entry the result is [`$META`.KEY] of the parent when there is one,
    and the last but one element of the path otherwise. *)
Theorem transform_KEY_sources (h : heap) (state _val current : value)
    (lp : loc) (pm : list (string * value)) :
  is_nullish state = false ->
  js_get h state (VStr "parent") = VRef lp ->
  h !! lp = Some (OMap pm) ->
  (value_eqb (VStr S_MVAL) (js_get h state (VStr "mode")) = false ->
     transform_KEY h state _val current = Ret (h, VUndef))
  /\ (value_eqb (VStr S_MVAL) (js_get h state (VStr "mode")) = true ->
      (forall ks,
         assoc_find S_DKEY pm = Some ks ->
         ks <> VUndef ->
         exists h',
           transform_KEY h state _val current
           = Ret (h', getprop h' current ks VUndef)
           /\ haskey h' (VRef lp) (VStr S_DKEY) = false
           /\ (forall k' alt, k' <> S_DKEY ->
                 getprop h' (VRef lp) (VStr k') alt
                 = getprop h (VRef lp) (VStr k') alt)
           /\ (forall l, l <> lp -> h' !! l = h !! l))
      /\ (forall lq ps,
            assoc_find S_DKEY pm = None ->
            js_get h state (VStr "path") = VRef lq ->
            h !! lq = Some (OList ps) ->
            2 <= length ps ->
            (N.of_nat (length ps) < 4294967295)%N ->
            transform_KEY h state _val current
            = Ret (h, getprop h (getprop h (VRef lp) (VStr S_DMETA) VUndef)
                        (VStr S_KEY)
                        (default VUndef (ps !! (length ps - 2)))))).
Proof.
  intros Hs Hp Hl. unfold transform_KEY.
  rewrite !(member_node _ _ _ Hs), Hp. cbn [mbind result_bind rbind].
  split; [by intros ->|]. intros ->. cbn [negb].
  rewrite (getprop_map_string _ _ _ S_DKEY VUndef Hl), js_member_map.
  split.
  - intros ks Hks Hne. rewrite Hks.
    assert (Hu : is_undef ks = false) by (by destruct ks).
    rewrite Hu. cbv beta iota. rewrite Hu. cbn [negb].
    eexists. split; [reflexivity|].
    split; [|split].
    + unfold haskey. by rewrite (getprop_after_setprop_map _ _ pm).
    + intros k' alt Hk'. by apply getprop_other_after_setprop_map with (m := pm).
    + intros l Hll. rewrite (setprop_map_string _ _ _ _ _ Hl) by done. cbn [fst].
      by rewrite list_lookup_insert_ne.
  - intros lq ps Hks Hq Hps Hlen Hbound. rewrite Hks, Hq. cbn [is_undef negb].
    unfold member_length. cbn [is_nullish mbind result_bind rbind].
    assert (Hjl : js_length h (VRef lq) = VNum (num_of_nat (length ps))).
    { unfold js_length, js_get. by rewrite Hps. }
    rewrite Hjl, num_minus_two_length by done.
    rewrite (getprop_list_at _ lq ps (VNum (num_of_nat (length ps - 2))) VUndef
               (length ps - 2) Hps eq_refl)
      by (rewrite to_string_index, array_index_pretty; [done|lia..]).
    destruct (ps !! (length ps - 2)) as [v|] eqn:Ev; cbn [default]; [|done].
    destruct (is_undef v) eqn:Euv; [|done]. by rewrite (is_undef_eq _ Euv).
Qed.

(** ** The type-checking directives *)

Lemma errs_push_list (h : heap) (state : value) (le : loc) (es : list value)
    (msg : string) :
  is_nullish state = false ->
  js_get h state (VStr "errs") = VRef le ->
  h !! le = Some (OList es) ->
  errs_push h state msg = Ret (<[le := OList (es ++ [VStr msg])]> h).
Proof.
  intros Hs He Hl. unfold errs_push. rewrite (member_node _ _ _ Hs), He.
  cbn [mbind result_bind rbind is_nullish].
  unfold Array_isArray, store_obj, list_elems. by rewrite Hl.
Qed.

(** X17.  [validate_NUMBER], [validate_BOOLEAN] and [validate_FUNCTION]
    accept the value under [state.key] in the current node exactly when
    its [typeof] is the one they name: an accepted value is returned and
    the store is as it was; a rejected one gives absent and adds one
    message at the end of [state.errs], nothing else being written.
    [validate_ANY] accepts whatever is there. *)
Theorem validate_typeof_checkers (h : heap) (state _val current : value)
    (le : loc) (es : list value) :
  is_nullish state = false ->
  js_get h state (VStr "errs") = VRef le ->
  h !! le = Some (OList es) ->
  forall out path,
    out = getprop h current (js_get h state (VStr "key")) VUndef ->
    path = js_get h state (VStr "path") ->
    (forall type f,
       (type, f) ∈ [("number", validate_NUMBER); ("boolean", validate_BOOLEAN);
                    ("function", validate_FUNCTION)] ->
       f h state _val current
       = if String.eqb type (typeof out) then Ret (h, out)
         else Ret (<[le := OList (es ++ [VStr (_invalidTypeMsg h path type
                                                  (typeof out) out)])]> h,
                   VUndef))
    /\ validate_ANY h state _val current = Ret (h, out).
Proof.
  intros Hs He Hl out path -> ->. split.
  - intros type f Hin.
    repeat (apply elem_of_cons in Hin as [Hin|Hin];
            [apply pair_equal_spec in Hin as [-> ->]|]);
      [| | |by apply elem_of_nil in Hin];
      [unfold validate_NUMBER|unfold validate_BOOLEAN|unfold validate_FUNCTION];
      rewrite ?(member_node _ _ _ Hs); cbn [mbind result_bind rbind];
      (destruct (String.eqb _ (typeof _)); cbn [negb]; [done|]);
      rewrite ?(member_node _ _ _ Hs); cbn [mbind result_bind rbind];
      by rewrite (errs_push_list _ _ _ _ _ Hs He Hl).
  - unfold validate_ANY. by rewrite ?(member_node _ _ _ Hs).
Qed.

(** X18.  [validate_STRING] accepts exactly the strings that are not
    empty.  The empty string is rejected with a message of its own,
    [Empty string at] followed by the path; any other value with the
    type message.  Either way a rejection gives absent and adds one
    message to [state.errs]. *)
Theorem validate_STRING_rejects_the_empty_string (h : heap)
    (state _val current : value) (le : loc) (es : list value) :
  is_nullish state = false ->
  js_get h state (VStr "errs") = VRef le ->
  h !! le = Some (OList es) ->
  forall out path,
    out = getprop h current (js_get h state (VStr "key")) VUndef ->
    path = js_get h state (VStr "path") ->
    (forall s, out = VStr s -> s <> "" ->
       validate_STRING h state _val current = Ret (h, VStr s))
    /\ (out = VStr "" ->
        validate_STRING h state _val current
        = Ret (<[le := OList (es ++ [VStr ("Empty string at "
                                            +:+ pathify h (as_jspath h path)
                                                  (Some 1%Z))])]> h,
               VUndef))
    /\ ((forall s, out <> VStr s) ->
        validate_STRING h state _val current
        = Ret (<[le := OList (es ++ [VStr (_invalidTypeMsg h path "string"
                                             (typeof out) out)])]> h,
               VUndef)).
Proof.
  intros Hs He Hl out path -> ->. unfold validate_STRING.
  rewrite ?(member_node _ _ _ Hs). cbn [mbind result_bind rbind].
  split; [|split].
  - intros s -> Hne. cbn [typeof]. rewrite String.eqb_refl.
    cbn [value_eqb]. unfold S_MT.
    destruct (String.eqb_spec "" s) as [E|E]; [by subst|done].
  - intros ->. cbn [typeof]. rewrite String.eqb_refl. cbn [value_eqb].
    unfold S_MT. rewrite String.eqb_refl.
    rewrite ?(member_node _ _ _ Hs). cbn [mbind result_bind rbind].
    by rewrite (errs_push_list _ _ _ _ _ Hs He Hl).
  - intros Hno.
    destruct (getprop h current (js_get h state (VStr "key")) VUndef) as [| | | |s| |] eqn:E;
      try (cbn [typeof]; change (String.eqb "string" _) with false; cbv iota;
           rewrite ?(member_node _ _ _ Hs); cbn [mbind result_bind rbind];
           by rewrite (errs_push_list _ _ _ _ _ Hs He Hl)).
    by destruct (Hno s).
Qed.

(** X19.  [validate_OBJECT] accepts exactly the nodes, lists as well as
    maps, and so rejects null; [validate_ARRAY] accepts exactly the
    lists.  A rejection gives absent and adds one message to
    [state.errs]; an accepted node is returned and nothing is
    written. *)
Theorem validate_OBJECT_and_ARRAY (h : heap) (state _val current : value)
    (le : loc) (es : list value) :
  is_nullish state = false ->
  js_get h state (VStr "errs") = VRef le ->
  h !! le = Some (OList es) ->
  forall out path,
    out = getprop h current (js_get h state (VStr "key")) VUndef ->
    path = js_get h state (VStr "path") ->
    validate_OBJECT h state _val current
    = (if isnode out then Ret (h, out)
       else Ret (<[le := OList (es ++ [VStr (_invalidTypeMsg h path "object"
                                              (typeof out) out)])]> h,
                 VUndef))
    /\ validate_ARRAY h state _val current
       = (if islist h out then Ret (h, out)
          else Ret (<[le := OList (es ++ [VStr (_invalidTypeMsg h path "array"
                                                 (typeof out) out)])]> h,
                    VUndef)).
Proof.
  intros Hs He Hl out path -> ->. unfold validate_OBJECT, validate_ARRAY.
  rewrite !(member_node _ _ _ Hs). cbn [mbind result_bind rbind].
  split.
  - unfold isnode.
    set (out := getprop h current (js_get h state (VStr "key")) VUndef).
    destruct (is_nullish out), (String.eqb "object" (typeof out));
      cbn [negb andb orb];
      try done; by rewrite (errs_push_list _ _ _ _ _ Hs He Hl).
  - unfold islist. destruct (Array_isArray h _); cbn [negb]; [done|].
    rewrite ?(member_node _ _ _ Hs). cbn [mbind result_bind rbind].
    by rewrite (errs_push_list _ _ _ _ _ Hs He Hl).
Qed.

(** X20.  [_typify] names null and absent alike [null], a list [array]
    and a map [object], and never answers [undefined]. *)
Theorem typify_classes (h : heap) (val : value) :
  (_typify h val = "null" <-> is_nullish val = true)
  /\ (_typify h val = "array" <-> islist h val = true)
  /\ (_typify h val = "object" <-> isnode val = true /\ islist h val = false)
  /\ _typify h val <> "undefined".
Proof.
  unfold _typify, islist.
  destruct val as [| |b|n|s|f|l]; cbn; [..|destruct (h !! l) as [[m|xs]|]];
    (split; [|split; [|split]]); try split; try done; try (by intros [? ?]).
Qed.

(** ** walk and merge on plain data *)

Lemma isnode_inv (v : value) : isnode v = true -> exists l, v = VRef l.
Proof. destruct v; cbn; try done. eauto. Qed.

Lemma assoc_find_in (k : string) (m : list (string * value)) :
  k ∈ map fst m -> exists v, assoc_find k m = Some v /\ (k, v) ∈ m.
Proof.
  induction m as [|[k0 v0] m IH]; cbn; intros Hin.
  - by apply elem_of_nil in Hin.
  - destruct (String.eqb_spec k k0) as [->|Hne].
    + exists v0. split; [done|]. apply elem_of_cons. by left.
    + apply elem_of_cons in Hin as [Hin|Hin]; [done|].
      destruct (IH Hin) as (v & Hv & Hel). exists v. split; [done|].
      apply elem_of_cons. by right.
Qed.

Lemma assoc_find_not_in (k : string) (m : list (string * value)) :
  k ∉ map fst m -> assoc_find k m = None.
Proof.
  induction m as [|[k0 v0] m IH]; cbn; intros Hin; [done|].
  destruct (String.eqb_spec k k0) as [->|Hne].
  - exfalso. apply Hin, elem_of_cons. by left.
  - apply IH. intros H. apply Hin, elem_of_cons. by right.
Qed.

Lemma assoc_set_same (k : string) (v : value) (m : list (string * value)) :
  assoc_find k m = Some v -> assoc_set k v m = m.
Proof.
  induction m as [|[k0 v0] m IH]; cbn; [done|].
  destruct (String.eqb_spec k k0) as [->|Hne].
  - by intros [= ->].
  - intros H. by rewrite IH.
Qed.

Lemma items_keys (h : heap) (val : value) :
  map fst (items h val) = keysof h val.
Proof.
  unfold items. rewrite map_map. cbn. apply map_id.
Qed.

Lemma items_map_entry (h : heap) (l : loc) (m : list (string * value))
    (k : string) (c : value) :
  h !! l = Some (OMap m) ->
  (k, c) ∈ items h (VRef l) ->
  assoc_find k m = Some c /\ (k, c) ∈ m.
Proof.
  intros Hl Hin. unfold items in Hin.
  apply list_elem_of_fmap in Hin as (k0 & Heq & Hk0).
  apply pair_equal_spec in Heq as [-> ->].
  rewrite (keysof_map _ _ _ Hl) in Hk0. unfold sort_strings in Hk0.
  rewrite sort_by_perm, Object_keys_map_perm in Hk0.
  destruct (assoc_find_in _ _ Hk0) as (v & Hv & Hel).
  unfold js_get. rewrite Hl. cbn. by rewrite Hv.
Qed.

Lemma items_list_entry (h : heap) (l : loc) (xs : list value)
    (k : string) (c : value) :
  h !! l = Some (OList xs) ->
  (N.of_nat (length xs) < 4294967295)%N ->
  (k, c) ∈ items h (VRef l) ->
  exists i, k = pretty i /\ xs !! i = Some c.
Proof.
  intros Hl Hlen Hin. unfold items, keysof in Hin.
  rewrite (ismap_list _ _ _ Hl), isnode_ref in Hin. cbn [negb] in Hin.
  unfold Object_keys in Hin. rewrite Hl in Hin. cbn [Object_keys_obj] in Hin.
  apply list_elem_of_fmap in Hin as (k0 & Heq & Hk0).
  apply pair_equal_spec in Heq as [-> ->].
  unfold index_keys in Hk0.
  apply list_elem_of_fmap in Hk0 as (i & -> & Hi).
  apply elem_of_seq in Hi.
  destruct (lookup_lt_is_Some_2 xs i) as [x Hx]; [lia|].
  exists i. split; [done|].
  unfold js_get. rewrite Hl. cbn [to_string js_member].
  rewrite array_index_pretty by lia. by rewrite Hx.
Qed.

Lemma items_dangling (h : heap) (l : loc) : h !! l = None -> items h (VRef l) = [].
Proof.
  intros Hl. unfold items, keysof, ismap, Array_isArray, Object_keys.
  by rewrite Hl.
Qed.

Lemma key_number_pretty (i : nat) :
  (N.of_nat i < 4294967295)%N ->
  Math_floor (key_to_number (VStr (pretty i))) = num_of_Z (Z.of_nat i).
Proof.
  intros Hi. unfold key_to_number, str_to_number, pretty at 1, pretty_nat.
  rewrite parse_decimal_pretty by lia.
  unfold Math_floor, num_of_Z. rewrite Qfloor_Z. by rewrite nat_N_Z.
Qed.

Lemma assign_entry_same (k : string) (v : value) (m : list (string * value)) :
  assoc_find k m = Some v -> assign_entry k v m = m.
Proof.
  intros Hf. destruct (assign_entry_cases k v m) as [->| ->]; [done|].
  by apply assoc_set_same.
Qed.

(** Writing a child back where it was read from changes nothing. *)
Lemma setprop_child_same (h : heap) (l : loc) (k : string) (c : value) :
  plain_store h ->
  (k, c) ∈ items h (VRef l) ->
  fst (setprop h (VRef l) (VStr k) c) = h.
Proof.
  intros Hplain Hin.
  destruct (iskey (VStr k)) eqn:Hkey; [|unfold setprop; by rewrite Hkey].
  destruct (h !! l) as [[m|xs]|] eqn:Hl.
  - destruct (items_map_entry _ _ _ _ _ Hl Hin) as [Hfind Hel].
    pose proof (Hplain _ _ Hl) as Hm. cbn in Hm.
    rewrite Forall_forall in Hm. specialize (Hm _ Hel). cbn in Hm.
    assert (Hne : k <> "").
    { intros ->. discriminate Hkey. }
    rewrite (setprop_map_string _ _ _ _ _ Hl Hne). cbn [fst].
    replace (is_undef c) with false by (by destruct c).
    rewrite (assign_entry_same _ _ _ Hfind). by apply list_insert_id.
  - pose proof (Hplain _ _ Hl) as [Hxs Hlen]. cbn in Hxs, Hlen.
    destruct (items_list_entry _ _ _ _ _ Hl Hlen Hin) as (i & -> & Hi).
    assert (Hilt : i < length xs) by (apply lookup_lt_is_Some; eauto).
    rewrite Forall_forall in Hxs.
    specialize (Hxs _ (list_elem_of_lookup_2 _ _ _ Hi)).
    rewrite (setprop_on_list h l xs (VStr (pretty i)) c (Z.of_nat i) Hl Hkey)
      by (apply key_number_pretty; lia).
    replace (is_undef c) with false by (by destruct c).
    replace (0 <=? Z.of_nat i)%Z with true by (symmetry; apply Z.leb_le; lia).
    replace (Z.of_nat (length xs) <? Z.of_nat i)%Z with false
      by (symmetry; apply Z.ltb_ge; lia).
    cbn [fst]. rewrite Nat2Z.id, list_assign_within by lia.
    replace (i <? length xs)%nat with true by (symmetry; apply Nat.ltb_lt; lia).
    rewrite (list_insert_id xs i c Hi). by apply list_insert_id.
  - rewrite (items_dangling _ _ Hl) in Hin. by apply elem_of_nil in Hin.
Qed.

Lemma depth_le_child (h : heap) (n : nat) (l : loc) (k : string) (c : value) :
  plain_store h ->
  depth_le h (Datatypes.S n) (VRef l) ->
  (k, c) ∈ items h (VRef l) ->
  depth_le h n c.
Proof.
  intros Hplain Hd Hin. cbn [depth_le] in Hd.
  destruct (h !! l) as [[m|xs]|] eqn:Hl.
  - destruct (items_map_entry _ _ _ _ _ Hl Hin) as [_ Hel].
    rewrite Forall_forall in Hd. exact (Hd _ Hel).
  - pose proof (Hplain _ _ Hl) as [_ Hlen]. cbn in Hlen.
    destruct (items_list_entry _ _ _ _ _ Hl Hlen Hin) as (i & -> & Hi).
    rewrite Forall_forall in Hd. exact (Hd _ (list_elem_of_lookup_2 _ _ _ Hi)).
  - rewrite (items_dangling _ _ Hl) in Hin. by apply elem_of_nil in Hin.
Qed.

Lemma foldl_result_run {A B} (P : A -> Prop) (f : result A -> B -> result A)
    (l : list B) :
  (forall a b, b ∈ l -> P a -> exists a', f (Ret a) b = Ret a' /\ P a') ->
  forall a, P a -> exists a', foldl f (Ret a) l = Ret a' /\ P a'.
Proof.
  induction l as [|b l IH]; intros Hf a Ha; cbn; [eauto|].
  destruct (Hf a b) as (a1 & -> & Ha1); [apply elem_of_cons; by left|done|].
  apply IH; [|done]. intros a2 b2 Hb2. apply Hf, elem_of_cons. by right.
Qed.

Lemma walk_unfold {S : Type} (fuel : nat) (apply : WalkApply S) (st : S)
    (h : heap) (val key parent : value) (path : list string) :
  walk (Datatypes.S fuel) apply st h val key parent path
  = ('(st, h) ←
       (if isnode val then
          foldl
            (fun acc (it : string * value) =>
               '(st, h) ← acc;
               let '(ckey, child) := it in
               '(st, h, r) ←
                 walk fuel apply st h child (VStr ckey) val
                   (path ++ [S_MT +:+ ckey]);
               Ret (st, fst (setprop h val (VStr ckey) r)))
            (Ret (st, h)) (items h val)
        else Ret (st, h));
     apply st h key val parent path).
Proof. reflexivity. Qed.

(** X21.  On plain data nested at most [n] deep, [walk] with a visitor
    that only observes (it gives every value back and leaves the store
    alone) comes back with fuel [n + 1], returns the value it was given
    and leaves the store exactly as it was: writing each child back
    into its parent changes nothing. *)
Theorem walk_observer_leaves_plain_data {S : Type} (apply : WalkApply S)
    (h : heap) :
  plain_store h ->
  (forall st key val parent path,
     exists st', apply st h key val parent path = Ret (st', h, val)) ->
  forall n val st key parent path,
    depth_le h n val ->
    exists st',
      walk (Datatypes.S n) apply st h val key parent path = Ret (st', h, val).
Proof.
  intros Hplain Hobs.
  induction n as [|n IH]; intros val st key parent path Hd.
  - destruct val; try done; cbn; apply Hobs.
  - destruct (isnode val) eqn:En.
    + destruct (isnode_inv _ En) as [l ->].
      rewrite walk_unfold, isnode_ref.
      match goal with
      | |- context [foldl ?f (Ret (st, h)) ?its] =>
          destruct (foldl_result_run (fun a : S * heap => a.2 = h) f its)
            with (a := (st, h)) as ([st1 h1] & Hfold & Hh1)
      end.
      * intros [st0 hx] [k c] Hin Hx. cbn in Hx. subst hx.
        cbn [mbind result_bind rbind].
        destruct (IH c st0 (VStr k) (VRef l) (path ++ [S_MT +:+ k])
                    (depth_le_child _ _ _ _ _ Hplain Hd Hin)) as [st' Hw].
        rewrite Hw. cbn [mbind result_bind rbind].
        rewrite (setprop_child_same _ _ _ _ Hplain Hin). by eexists (_, _).
      * done.
      * rewrite Hfold. cbn in Hh1. subst h1. cbn [mbind result_bind rbind].
        apply Hobs.
    + cbn [walk]. rewrite En. cbn [mbind result_bind rbind]. apply Hobs.
Qed.

Lemma merger_leaf (h : heap) (la : loc) (k p : string) (c parent : value) :
  isnode c = false ->
  merger (VRef la) [VRef la] h (VStr k) c parent [p]
  = Ret ([VRef la], fst (setprop h (VRef la) (VStr k) c), c).
Proof.
  intros Hc. unfold merger.
  cbn [is_nullish length Nat.sub lookup list_lookup default is_undef
       mbind result_bind rbind isnode negb andb typeof String.eqb Ascii.eqb
       Bool.eqb].
  by rewrite Hc.
Qed.

Lemma setprop_empty_key (h : heap) (parent val : value) :
  setprop h parent (VStr "") val = (h, parent).
Proof. reflexivity. Qed.

Lemma assoc_find_proto_assign (k : string) (v : value) (m : list (string * value)) :
  assoc_find "__proto__" m = None ->
  assoc_find "__proto__" (assign_entry k v m) = None.
Proof.
  intros Hm. unfold assign_entry.
  destruct (String.eqb_spec k "__proto__") as [->|Hk].
  - rewrite Hm. by rewrite bool_decide_eq_false_2 by (by intros [? ?]).
  - cbn [andb]. rewrite assoc_find_set_ne by done. exact Hm.
Qed.

(** The children of a flat map, merged one after the other into the
    map at [la]. *)
Lemma merge_flat_children (fuel : nat) (la lb : loc)
    (mb : list (string * value)) :
  la <> lb ->
  forall (its : list (string * value)) (hx : heap) (mx : list (string * value)),
    (forall k c, (k, c) ∈ its ->
       isnode c = false /\ c <> VUndef /\ assoc_find k mb = Some c) ->
    hx !! la = Some (OMap mx) ->
    hx !! lb = Some (OMap mb) ->
    exists hx' mx',
      foldl
        (fun acc (it : string * value) =>
           '(st, h) ← acc;
           let '(ckey, child) := it in
           '(st, h, r) ←
             walk (Datatypes.S fuel) (merger (VRef la)) st h child (VStr ckey)
               (VRef lb) ([] ++ [S_MT +:+ ckey]);
           Ret (st, fst (setprop h (VRef lb) (VStr ckey) r)))
        (Ret ([VRef la], hx)) its
      = Ret ([VRef la], hx')
      /\ hx' !! la = Some (OMap mx')
      /\ (forall l, l <> la -> hx' !! l = hx !! l)
      /\ (forall k, k <> "" -> k <> "__proto__" ->
            (k ∈ map fst its -> assoc_find k mx' = assoc_find k mb)
            /\ (k ∉ map fst its -> assoc_find k mx' = assoc_find k mx))
      /\ (assoc_find "__proto__" mx = None -> assoc_find "__proto__" mx' = None).
Proof.
  intros Hne. induction its as [|[k c] its IH]; intros hx mx Hits Hla Hlb.
  - exists hx, mx. cbn. split; [done|]. split; [done|]. split; [done|].
    split; [|done]. intros k _ _. split; [|done].
    intros Hin. by apply elem_of_nil in Hin.
  - destruct (Hits k c) as (Hc & Hcu & Hfind); [apply elem_of_cons; by left|].
    assert (Hrest : forall k0 c0, (k0, c0) ∈ its ->
               isnode c0 = false /\ c0 <> VUndef /\ assoc_find k0 mb = Some c0).
    { intros k0 c0 Hin. apply Hits, elem_of_cons. by right. }
    cbn [foldl mbind result_bind rbind walk]. rewrite Hc.
    cbn [mbind result_bind rbind app]. rewrite (merger_leaf _ _ _ _ _ _ Hc).
    cbn [mbind result_bind rbind].
    destruct (String.eqb_spec k "") as [->|Hk].
    + rewrite !setprop_empty_key. cbn [fst].
      destruct (IH hx mx Hrest Hla Hlb)
        as (hx' & mx' & Hf & Hla' & Hoth & Hkeys & Hproto).
      exists hx', mx'. split; [exact Hf|]. split; [exact Hla'|].
      split; [exact Hoth|]. split; [|exact Hproto].
      intros k0 Hk0 Hp0. destruct (Hkeys k0 Hk0 Hp0) as [Hin Hout]. split.
      * intros H0. apply Hin. cbn in H0.
        apply elem_of_cons in H0 as [->|H0]; done.
      * intros H0. apply Hout. intros H1. apply H0. cbn.
        apply elem_of_cons. by right.
    + assert (Hlt : la < length hx) by (apply lookup_lt_is_Some; eauto).
      assert (Hu : is_undef c = false) by (by destruct c).
      rewrite (setprop_map_string _ _ _ _ _ Hla Hk), Hu. cbn [fst].
      assert (Hlb1 : <[la := OMap (assign_entry k c mx)]> hx !! lb = Some (OMap mb))
        by (by rewrite list_lookup_insert_ne).
      rewrite (setprop_map_string _ _ _ _ _ Hlb1 Hk), Hu. cbn [fst].
      rewrite (assign_entry_same _ _ _ Hfind), (list_insert_id _ lb _ Hlb1).
      destruct (IH _ (assign_entry k c mx) Hrest
                  (list_lookup_insert_eq hx la _ Hlt) Hlb1)
        as (hx' & mx' & Hf & Hla' & Hoth & Hkeys & Hproto).
      exists hx', mx'. split; [exact Hf|]. split; [exact Hla'|]. split; [|split].
      * intros l Hl. rewrite Hoth by done. by rewrite list_lookup_insert_ne.
      * intros k0 Hk0 Hp0. destruct (Hkeys k0 Hk0 Hp0) as [Hin Hout]. split.
        -- intros H0. cbn in H0.
           destruct (decide (k0 ∈ map fst its)) as [Hd|Hd]; [by apply Hin|].
           apply elem_of_cons in H0 as [->|H0]; [|done].
           rewrite (Hout Hd). by rewrite assoc_find_assign.
        -- intros H0. rewrite Hout.
           ++ apply assoc_find_assign_ne. intros ->. apply H0. cbn.
              apply elem_of_cons. by left.
           ++ intros H1. apply H0. cbn. apply elem_of_cons. by right.
      * intros Hmx. by apply Hproto, assoc_find_proto_assign.
Qed.

(** X22.  Merging a list of two maps, the second one flat (its values
    are scalars): the result is the first map itself, updated in place;
    under every key of the second map it now holds the second map's
    value, under every other key its own.  The name [__proto__] is
    apart: a first map without an entry of its own under it gets none
    from the second map.  No other node that was in the store is
    touched. *)
Theorem merge_two_flat_maps (fuel : nat) (h : heap) (ll la lb : loc)
    (ma mb : list (string * value)) :
  h !! ll = Some (OList [VRef la; VRef lb]) ->
  h !! la = Some (OMap ma) ->
  h !! lb = Some (OMap mb) ->
  la <> lb ->
  Forall (fun kv => isnode (snd kv) = false /\ snd kv <> VUndef) mb ->
  2 <= fuel ->
  exists h' ma',
    merge fuel h (VRef ll) = Ret (h', VRef la)
    /\ h' !! la = Some (OMap ma')
    /\ (forall k, k <> "" -> k <> "__proto__" ->
          assoc_find k ma' = match assoc_find k mb with
                             | Some v => Some v
                             | None => assoc_find k ma
                             end)
    /\ (assoc_find "__proto__" ma = None -> assoc_find "__proto__" ma' = None)
    /\ (forall l, l < length h -> l <> la -> h' !! l = h !! l).
Proof.
  intros Hll Hla Hlb Hne Hflat Hfuel.
  destruct fuel as [|[|fuel]]; [lia..|].
  assert (Hll1 : (h ++ [OMap []]) !! ll = Some (OList [VRef la; VRef lb]))
    by (rewrite lookup_app_l; [done|apply lookup_lt_is_Some; eauto]).
  assert (Hla1 : (h ++ [OMap []]) !! la = Some (OMap ma))
    by (rewrite lookup_app_l; [done|apply lookup_lt_is_Some; eauto]).
  assert (Hlb1 : (h ++ [OMap []]) !! lb = Some (OMap mb))
    by (rewrite lookup_app_l; [done|apply lookup_lt_is_Some; eauto]).
  destruct (merge_flat_children fuel la lb mb Hne
              (items (h ++ [OMap []]) (VRef lb)) (h ++ [OMap []]) ma)
    as (h' & ma' & Hfold & Hla' & Hoth & Hkeys & Hproto); [|done..|].
  { intros k c Hin.
    destruct (items_map_entry _ _ _ _ _ Hlb1 Hin) as [Hfind Hel].
    rewrite Forall_forall in Hflat. destruct (Hflat _ Hel) as [H1 H2]. done. }
  exists h', ma'. split; [|split; [exact Hla'|split; [|split; [exact Hproto|]]]].
  - assert (Hel : forall hx xs, hx !! ll = Some (OList xs) ->
                     list_elems hx (VRef ll) = xs).
    { intros hx xs Hx. unfold list_elems. by rewrite Hx. }
    unfold merge. rewrite (islist_list _ _ _ Hll). cbn [negb].
    rewrite !(Hel _ _ Hll). cbn [length Nat.eqb Nat.sub alloc].
    rewrite (getprop_list_first _ _ _ _ _ Hll1). cbn [is_undef].
    cbn [merge_loop]. rewrite (Hel _ _ Hll1).
    cbn [lookup list_lookup default id]. unfold merge_step.
    rewrite !isnode_ref, (ismap_map _ _ _ Hlb1), (ismap_map _ _ _ Hla1),
      (islist_map _ _ _ Hlb1), (islist_map _ _ _ Hla1).
    cbn [negb andb orb]. rewrite walk_unfold, isnode_ref, Hfold.
    reflexivity.
  - intros k Hk Hp. destruct (Hkeys k Hk Hp) as [Hin Hout].
    rewrite items_keys in Hin, Hout.
    rewrite (keysof_map _ _ _ Hlb1) in Hin, Hout. unfold sort_strings in Hin, Hout.
    rewrite sort_by_perm, Object_keys_map_perm in Hin, Hout.
    destruct (decide (k ∈ map fst mb)) as [Hd|Hd].
    + destruct (assoc_find_in _ _ Hd) as (v & Hv & _).
      rewrite (Hin Hd), Hv. done.
    + rewrite (Hout Hd), (assoc_find_not_in _ _ Hd). done.
  - intros l Hlen Hl. rewrite Hoth by done. by rewrite lookup_app_l.
Qed.

(** ** Patterns and URLs *)

Lemma pattern_literal_escaped (d : ascii) (r : string) :
  is_re_special d = true ->
  pattern_literal (String "\" (String d r)) = option_map (String d) (pattern_literal r).
Proof.
  intros Hd.
  change (pattern_literal (String "\" (String d r)))
    with (if is_re_special d then option_map (String d) (pattern_literal r) else None).
  by rewrite Hd.
Qed.

Lemma pattern_literal_cons (c : ascii) (r : string) :
  pattern_literal (String c r)
  = if Ascii.eqb c "\" then
      match r with
      | String d r' =>
          if is_re_special d then option_map (String d) (pattern_literal r')
          else None
      | EmptyString => None
      end
    else if is_re_special c then None
    else option_map (String c) (pattern_literal r).
Proof. reflexivity. Qed.

Lemma pattern_literal_plain (c : ascii) (r : string) :
  Ascii.eqb c "\" = false ->
  is_re_special c = false ->
  pattern_literal (String c r) = option_map (String c) (pattern_literal r).
Proof. intros Hb Hs. by rewrite pattern_literal_cons, Hb, Hs. Qed.

Lemma pattern_literal_escape (s : string) :
  pattern_literal (escape_specials s) = Some s.
Proof.
  induction s as [|c r IH]; [done|]. cbn [escape_specials].
  destruct (is_re_special c) eqn:Esp.
  - by rewrite pattern_literal_escaped, IH.
  - rewrite pattern_literal_plain, IH; [done| |done].
    destruct (Ascii.eqb_spec c "\") as [->|_]; [discriminate Esp|done].
Qed.

Lemma pattern_literal_unique (s q : string) :
  pattern_literal q = Some s -> q = escape_specials s.
Proof.
  revert q. induction s as [|a s' IH]; intros q.
  - destruct q as [|c r]; [done|]. rewrite pattern_literal_cons.
    destruct (Ascii.eqb c "\").
    + destruct r as [|d r']; [done|]. destruct (is_re_special d); [|done].
      by destruct (pattern_literal r').
    + destruct (is_re_special c); [done|]. by destruct (pattern_literal r).
  - destruct q as [|c r]; [done|]. rewrite pattern_literal_cons.
    destruct (Ascii.eqb_spec c "\") as [->|Hc].
    + destruct r as [|d r']; [done|].
      destruct (is_re_special d) eqn:Ed; [|done].
      destruct (pattern_literal r') as [t|] eqn:Er; [|done].
      intros [= -> ->]. cbn [escape_specials]. rewrite Ed.
      by rewrite <- (IH r' Er).
    + destruct (is_re_special c) eqn:Ec; [done|].
      destruct (pattern_literal r) as [t|] eqn:Er; [|done].
      intros [= -> ->]. cbn [escape_specials]. rewrite Ec.
      by rewrite <- (IH r Er).
Qed.

Lemma escape_specials_free (s : string) :
  special_free s -> escape_specials s = s.
Proof.
  unfold special_free. induction s as [|c r IH]; [done|].
  cbn [String.list_ascii_of_string escape_specials]. intros H.
  apply Forall_cons in H as [Hc Hr]. by rewrite Hc, IH.
Qed.

(** X23.  [escre] never fails on a string, and the pattern it gives is
    the one literal for that very string: read with a backslash before
    a special character standing for that character, and with any other
    use of a backslash or of a special character ruled out, the
    pattern spells the string, and no other pattern does.  So every
    special character is escaped and nothing else is changed; a string
    without special characters comes back as it is.  Null and absent
    give the empty pattern. *)
Theorem escre_gives_a_literal_pattern (s : string) :
  (exists p, escre (VStr s) = Ret p
             /\ pattern_literal p = Some s
             /\ (forall q, pattern_literal q = Some s -> q = p))
  /\ (special_free s -> escre (VStr s) = Ret s)
  /\ escre VNull = Ret "" /\ escre VUndef = Ret "".
Proof.
  split; [|split; [|done]].
  - exists (escape_specials s). split; [done|]. split.
    + apply pattern_literal_escape.
    + intros q. apply pattern_literal_unique.
  - intros Hs. cbn [escre]. by rewrite escape_specials_free.
Qed.

Lemma prefix_char (c a : ascii) (s : string) :
  String.prefix (String c EmptyString) (String a s) = Ascii.eqb a c.
Proof.
  change (String.prefix (String c EmptyString) (String a s))
    with (match ascii_dec c a with
          | left _ => String.prefix "" s
          | right _ => false
          end).
  destruct (ascii_dec c a) as [<-|H].
  - rewrite Ascii.eqb_refl. by destruct s.
  - symmetry. apply Ascii.eqb_neq. congruence.
Qed.

Lemma strip_trailing_no_slash (s : string) :
  ends_with_slash (strip_trailing_slashes s) = false.
Proof.
  induction s as [|c r IH]; [done|]. cbn [strip_trailing_slashes].
  destruct (Ascii.eqb c "/") eqn:Ec; cbn [andb].
  - destruct (String.eqb_spec (strip_trailing_slashes r) "") as [E|E]; [done|].
    destruct (strip_trailing_slashes r) as [|d r']; [done|]. exact IH.
  - destruct (strip_trailing_slashes r) as [|d r'] eqn:Er; [by cbn; rewrite Ec|].
    exact IH.
Qed.

Lemma strip_trailing_keeps_head (s : string) :
  String.prefix "/" s = false ->
  String.prefix "/" (strip_trailing_slashes s) = false.
Proof.
  destruct s as [|c r]; [done|]. rewrite prefix_char. intros Hc.
  cbn [strip_trailing_slashes]. rewrite Hc. cbn [andb]. by rewrite prefix_char.
Qed.

Lemma strip_leading_no_slash (s : string) :
  String.prefix "/" (strip_leading_slashes s) = false.
Proof.
  induction s as [|c r IH]; [done|]. cbn [strip_leading_slashes].
  destruct (Ascii.eqb c "/") eqn:Ec; [exact IH|]. by rewrite prefix_char.
Qed.

(** The parts [joinurl] joins, for a list of strings. *)
Lemma url_parts_strings (first : bool) (l : list string) :
  url_parts first (map VStr l)
  = Ret (match l with
         | [] => []
         | s :: r =>
             strip_trailing_slashes
               (if first then collapse_first_slashes s
                else strip_leading_slashes (collapse_first_slashes s))
             :: map (fun s => strip_trailing_slashes
                                (strip_leading_slashes (collapse_first_slashes s))) r
         end).
Proof.
  revert first. induction l as [|s r IH]; intros first; [done|].
  cbn [map url_parts]. rewrite IH. cbn [mbind result_bind rbind].
  by destruct r.
Qed.

Lemma filter_nonempty_strings (l : list string) :
  List.filter (fun s => negb (is_nullish s) && negb (value_eqb (VStr S_MT) s))
    (map VStr l)
  = map VStr (List.filter (fun s => negb (String.eqb S_MT s)) l).
Proof.
  induction l as [|s r IH]; [done|]. cbn [map List.filter is_nullish negb andb value_eqb].
  destruct (String.eqb S_MT s); cbn [negb map]; [exact IH|f_equal; exact IH].
Qed.

Lemma Forall_list_filter {A} (P : A -> Prop) (f : A -> bool) (l : list A) :
  Forall P l -> Forall P (List.filter f l).
Proof.
  induction 1 as [|x l Hx Hl IH]; cbn; [done|]. destruct (f x); [by constructor|done].
Qed.

Lemma Forall_list_filter_true {A} (f : A -> bool) (l : list A) :
  Forall (fun x => f x = true) (List.filter f l).
Proof.
  induction l as [|x l IH]; cbn; [done|]. destruct (f x) eqn:E; [by constructor|done].
Qed.

Lemma collapse_after_slash_free (a b : string) :
  a <> "" ->
  slash_free a ->
  collapse_first_slashes (a +:+ String "/" b)
  = a +:+ String "/" (strip_leading_slashes b).
Proof.
  induction a as [|c a IH]; [done|]. intros _ Hsf.
  unfold slash_free in Hsf. cbn [String.list_ascii_of_string] in Hsf.
  apply Forall_cons in Hsf as [Hc Ha].
  rewrite !(string_app_cons c). cbn [collapse_first_slashes].
  replace (Ascii.eqb c "/") with false by (symmetry; by apply Ascii.eqb_neq).
  cbn [negb andb]. destruct a as [|d a].
  - change ("" +:+ String "/" b) with (String "/" b). rewrite prefix_char.
    rewrite Ascii.eqb_refl. reflexivity.
  - rewrite (string_app_cons d), prefix_char.
    cbn [String.list_ascii_of_string] in Ha.
    replace (Ascii.eqb d "/") with false
      by (symmetry; apply Ascii.eqb_neq; by apply Forall_cons in Ha as [? _]).
    rewrite <- (string_app_cons d). by rewrite IH.
Qed.

Lemma strip_trailing_nonempty (a b : string) :
  a <> "" -> slash_free a -> strip_trailing_slashes (a +:+ b) <> "".
Proof.
  destruct a as [|c a]; [done|]. intros _ Hsf.
  unfold slash_free in Hsf. cbn [String.list_ascii_of_string] in Hsf.
  apply Forall_cons in Hsf as [Hc _].
  rewrite string_app_cons. cbn [strip_trailing_slashes].
  replace (Ascii.eqb c "/") with false by (symmetry; by apply Ascii.eqb_neq).
  done.
Qed.

(** X25.  The one run of slashes [joinurl] collapses inside a part is
    the first that follows another character, wherever it is: in a
    first part that starts with a scheme and a colon, the two slashes
    after the colon come out as one. *)
Theorem joinurl_collapses_the_first_run (a b : string) :
  a <> "" ->
  slash_free a ->
  joinurl [VStr (a +:+ "//" +:+ b)]
  = Ret (strip_trailing_slashes (a +:+ "/" +:+ strip_leading_slashes b)).
Proof.
  intros Ha Hsf. unfold joinurl.
  change (a +:+ "//" +:+ b) with (a +:+ String "/" (String "/" b)).
  change (a +:+ "/" +:+ strip_leading_slashes b)
    with (a +:+ String "/" (strip_leading_slashes b)).
  change [VStr (a +:+ String "/" (String "/" b))]
    with (map VStr [a +:+ String "/" (String "/" b)]).
  rewrite (filter_nonempty_strings [a +:+ String "/" (String "/" b)]).
  assert (Hne : String.eqb S_MT (a +:+ String "/" (String "/" b)) = false).
  { destruct a; [done|]. by rewrite string_app_cons. }
  cbn [List.filter]. rewrite Hne. cbn [negb].
  rewrite (url_parts_strings true [_]). cbn [mbind result_bind rbind map].
  rewrite (collapse_after_slash_free a (String "/" b) Ha Hsf).
  cbn [strip_leading_slashes]. rewrite Ascii.eqb_refl. cbn [List.filter].
  destruct (String.eqb_spec S_MT (strip_trailing_slashes
                                    (a +:+ String "/" (strip_leading_slashes b))))
    as [E|E]; [|done].
  exfalso. by apply (strip_trailing_nonempty a (String "/" (strip_leading_slashes b))).
Qed.


(** ** Injection into strings *)

Lemma str_app_nil_r (s : string) : s +:+ "" = s.
Proof. induction s as [|c s IH]; [done|]. by rewrite string_app_cons, IH. Qed.

Lemma str_app_assoc (a b c : string) : (a +:+ b) +:+ c = a +:+ (b +:+ c).
Proof. induction a as [|x a IH]; [done|]. by rewrite !string_app_cons, IH. Qed.

Lemma chars_app (a b : string) :
  String.list_ascii_of_string (a +:+ b)
  = String.list_ascii_of_string a ++ String.list_ascii_of_string b.
Proof. induction a as [|x a IH]; [done|]. rewrite string_app_cons. cbn. by rewrite IH. Qed.

Lemma span_app (p : ascii -> bool) (a b : string) :
  Forall (fun c => p c = true) (String.list_ascii_of_string a) ->
  (b = "" \/ exists c r, b = String c r /\ p c = false) ->
  span p (a +:+ b) = (a, b).
Proof.
  intros Ha Hb. induction a as [|x a IH].
  - change ("" +:+ b) with b. destruct Hb as [->|(c & r & -> & Hc)]; [done|].
    cbn. by rewrite Hc.
  - cbn [String.list_ascii_of_string] in Ha. apply Forall_cons in Ha as [Hx Ha].
    rewrite string_app_cons. cbn [span]. by rewrite Hx, (IH Ha).
Qed.

Lemma not_backtick (s : string) :
  backtick_free s ->
  Forall (fun c => negb (Ascii.eqb c S_BT) = true) (String.list_ascii_of_string s).
Proof.
  intros Hs. eapply Forall_impl; [exact Hs|].
  intros c Hc. apply negb_true_iff. by apply Ascii.eqb_neq.
Qed.

(** The text between the backticks, for a string that is one
    reference from end to end. *)
Lemma full_injection_between (m : string) :
  m <> "" ->
  backtick_free m ->
  full_injection (String S_BT (m +:+ "`"))
  = match m with
    | String d r =>
        let '(u, r1) := span is_upper r in
        let '(_, r2) := span is_digit r1 in
        if Ascii.eqb d "$" && negb (String.eqb u "") && String.eqb r2 ""
        then Some (String d u) else Some m
    | EmptyString => None
    end.
Proof.
  intros Hm Hbt. unfold full_injection. rewrite Ascii.eqb_refl.
  rewrite (span_app _ m "`" (not_backtick _ Hbt)) by (right; by eexists _, _).
  rewrite String.eqb_refl. cbn [andb].
  destruct (String.eqb_spec m "") as [->|_]; [done|]. reflexivity.
Qed.

Lemma getpath_no_state (h : heap) (path : jspath) (store current : value) :
  exists v, getpath h path store current VUndef = Ret (h, v).
Proof. unfold getpath. destruct (path_parts path); cbn; eauto. Qed.

Lemma scan_plain (s lit : string) :
  backtick_free s -> scan_injections s lit None = [Lit (lit +:+ s)].
Proof.
  revert lit. induction s as [|c s IH]; intros lit Hs; [done|].
  unfold backtick_free in Hs. cbn [String.list_ascii_of_string] in Hs.
  apply Forall_cons in Hs as [Hc Hs]. cbn [scan_injections].
  replace (Ascii.eqb c S_BT) with false by (symmetry; by apply Ascii.eqb_neq).
  rewrite (IH _ Hs). by rewrite str_app_assoc.
Qed.

Lemma scan_plain_prefix (a rest lit : string) :
  backtick_free a ->
  scan_injections (a +:+ rest) lit None = scan_injections rest (lit +:+ a) None.
Proof.
  revert lit. induction a as [|c a IH]; intros lit Ha.
  - by rewrite str_app_nil_r.
  - unfold backtick_free in Ha. cbn [String.list_ascii_of_string] in Ha.
    apply Forall_cons in Ha as [Hc Ha]. rewrite string_app_cons.
    cbn [scan_injections].
    replace (Ascii.eqb c S_BT) with false by (symmetry; by apply Ascii.eqb_neq).
    rewrite (IH _ Ha). by rewrite str_app_assoc.
Qed.

Lemma scan_reference (m rest lit r : string) :
  backtick_free m ->
  scan_injections (m +:+ rest) lit (Some r)
  = scan_injections rest lit (Some (r +:+ m)).
Proof.
  revert r. induction m as [|c m IH]; intros r Hm.
  - by rewrite str_app_nil_r.
  - unfold backtick_free in Hm. cbn [String.list_ascii_of_string] in Hm.
    apply Forall_cons in Hm as [Hc Hm]. rewrite string_app_cons.
    cbn [scan_injections].
    replace (Ascii.eqb c S_BT) with false by (symmetry; by apply Ascii.eqb_neq).
    rewrite (IH _ Hm). by rewrite str_app_assoc.
Qed.

(** X26.  [_injectstr] gives the empty string for a value that is not
    a string.  A string that is one reference from end to end, a
    backtick, a path and a backtick, gives what [getpath] finds at that
    path, as it is and of whatever type.  A string without backticks,
    under a state without handler, is given back unchanged.  In both
    cases the store is left as it was. *)
Theorem injectstr_whole_reference (h : heap) (store current : value) :
  (forall val state,
     (forall s, val <> VStr s) ->
     _injectstr h val store current state = Ret (h, VStr ""))
  /\ (forall m,
        m <> "" ->
        backtick_free m ->
        String.prefix "$" m = false ->
        _injectstr h (VStr ("`" +:+ m +:+ "`")) store current VUndef
        = getpath h (PathStr (unescape_ref m)) store current VUndef
        /\ exists v,
             _injectstr h (VStr ("`" +:+ m +:+ "`")) store current VUndef
             = Ret (h, v))
  /\ (forall s state,
        backtick_free s ->
        no_handler h state ->
        _injectstr h (VStr s) store current state = Ret (h, VStr s)).
Proof.
  split; [|split].
  - intros val state Hval. destruct val as [| | | |s| |]; try done.
    by destruct (Hval s).
  - intros m Hm Hbt Hd.
    assert (Hrun : _injectstr h (VStr ("`" +:+ m +:+ "`")) store current VUndef
                   = getpath h (PathStr (unescape_ref m)) store current VUndef).
    { unfold _injectstr.
      change ("`" +:+ m +:+ "`") with (String S_BT (m +:+ "`")).
      rewrite (full_injection_between _ Hm Hbt).
      destruct m as [|d r]; [done|]. rewrite prefix_char in Hd.
      destruct (span is_upper r) as [u r1], (span is_digit r1) as [ds r2].
      rewrite Hd. reflexivity. }
    split; [exact Hrun|]. rewrite Hrun. apply getpath_no_state.
  - intros s state Hs Hno. unfold _injectstr.
    assert (Hfull : full_injection s = None).
    { destruct s as [|c r]; [done|]. unfold backtick_free in Hs.
      cbn [String.list_ascii_of_string] in Hs. apply Forall_cons in Hs as [Hc _].
      unfold full_injection.
      by replace (Ascii.eqb c S_BT) with false by (symmetry; by apply Ascii.eqb_neq). }
    rewrite Hfull, (scan_plain _ _ Hs). cbn [inject_pieces mbind result_bind rbind].
    change ("" +:+ s) with s. rewrite str_app_nil_r.
    destruct Hno as [H|H]; rewrite H; [reflexivity|]. by rewrite andb_false_r.
Qed.

Lemma upper_not_backtick (c : ascii) : is_upper c = true -> c <> S_BT.
Proof. intros H ->. discriminate H. Qed.

Lemma digit_not_backtick (c : ascii) : is_digit c = true -> c <> S_BT.
Proof. intros H ->. discriminate H. Qed.

Lemma digit_not_upper (c : ascii) : is_digit c = true -> is_upper c = false.
Proof.
  unfold is_digit, is_upper. intros H. apply andb_true_iff in H as [_ H].
  apply N.leb_le in H. apply andb_false_iff. left. apply N.leb_gt. lia.
Qed.

(** The group of a command reference: the digits after the capital
    letters are not part of it. *)
Lemma full_injection_command (u d : string) :
  u <> "" ->
  Forall (fun c => is_upper c = true) (String.list_ascii_of_string u) ->
  Forall (fun c => is_digit c = true) (String.list_ascii_of_string d) ->
  full_injection ("`$" +:+ u +:+ d +:+ "`") = Some ("$" +:+ u).
Proof.
  intros Hu Hup Hdig.
  change ("`$" +:+ u +:+ d +:+ "`") with (String S_BT (String "$" (u +:+ d +:+ "`"))).
  rewrite <- (str_app_assoc u d "`"), <- (string_app_cons "$").
  rewrite full_injection_between.
  - rewrite (span_app is_upper u d Hup).
    + rewrite <- (str_app_nil_r d) at 1.
      rewrite (span_app is_digit d "" Hdig) by (by left).
      rewrite Ascii.eqb_refl.
      destruct (String.eqb_spec u "") as [->|_]; done.
    + destruct d as [|c r]; [by left|right]. exists c, r. split; [done|].
      cbn [String.list_ascii_of_string] in Hdig. apply Forall_cons in Hdig as [Hc _].
      by apply digit_not_upper.
  - done.
  - unfold backtick_free. cbn [String.list_ascii_of_string]. constructor; [done|].
    rewrite chars_app. apply Forall_app. split.
    + eapply Forall_impl; [exact Hup|]. apply upper_not_backtick.
    + eapply Forall_impl; [exact Hdig|]. apply digit_not_backtick.
Qed.

(** X27.  A command reference may carry digits after its name; they
    are discarded: the string with the digits is injected exactly as
    the string without them, whatever the store and the state. *)
Theorem injectstr_command_digits_are_discarded (h : heap)
    (store current state : value) (u d : string) :
  u <> "" ->
  Forall (fun c => is_upper c = true) (String.list_ascii_of_string u) ->
  Forall (fun c => is_digit c = true) (String.list_ascii_of_string d) ->
  _injectstr h (VStr ("`$" +:+ u +:+ d +:+ "`")) store current state
  = _injectstr h (VStr ("`$" +:+ u +:+ "`")) store current state.
Proof.
  intros Hu Hup Hdig. unfold _injectstr.
  rewrite (full_injection_command u d Hu Hup Hdig).
  pose proof (full_injection_command u "" Hu Hup (Forall_nil_2 _)) as H0.
  change ("`$" +:+ u +:+ "" +:+ "`") with ("`$" +:+ u +:+ "`") in H0.
  by rewrite H0.
Qed.

(** X28.  A reference inside a longer string is replaced by the text
    of what [getpath] finds at it: nothing for an absent value, the
    JSON text for a node or null, the value as a string otherwise.
    The text before and after it is kept. *)
Theorem injectstr_interpolates (h : heap) (store current : value)
    (a m b : string) (v : value) :
  backtick_free a ->
  backtick_free b ->
  backtick_free m ->
  m <> "" ->
  a <> "" \/ b <> "" ->
  getpath h (PathStr (unescape_ref m)) store current VUndef = Ret (h, v) ->
  _injectstr h (VStr (a +:+ "`" +:+ m +:+ "`" +:+ b)) store current VUndef
  = Ret (h, VStr (a +:+ injected_text h v +:+ b)).
Proof.
  intros Ha Hb Hm Hne Hab Hget. unfold _injectstr.
  assert (Hfull : full_injection (a +:+ "`" +:+ m +:+ "`" +:+ b) = None).
  { destruct a as [|c r].
    - change ("" +:+ "`" +:+ m +:+ "`" +:+ b) with (String S_BT (m +:+ String S_BT b)).
      unfold full_injection. rewrite Ascii.eqb_refl.
      rewrite (span_app _ m (String S_BT b) (not_backtick _ Hm))
        by (right; by eexists _, _).
      destruct Hab as [?|Hb0]; [done|]. destruct b; [done|]. reflexivity.
    - unfold backtick_free in Ha. cbn [String.list_ascii_of_string] in Ha.
      apply Forall_cons in Ha as [Hc _]. rewrite string_app_cons.
      unfold full_injection.
      by replace (Ascii.eqb c S_BT) with false by (symmetry; by apply Ascii.eqb_neq). }
  rewrite Hfull.
  assert (Hscan : scan_injections (a +:+ "`" +:+ m +:+ "`" +:+ b) "" None
                  = [Lit a; Ref m; Lit b]).
  { rewrite (scan_plain_prefix a _ "" Ha).
    change ("`" +:+ m +:+ "`" +:+ b) with (String S_BT (m +:+ String S_BT b)).
    cbn [scan_injections]. rewrite Ascii.eqb_refl.
    rewrite (scan_reference m _ _ "" Hm). cbn [scan_injections].
    rewrite Ascii.eqb_refl. change ("" +:+ m) with m. change ("" +:+ a) with a.
    destruct m as [|c r]; [done|]. by rewrite (scan_plain b "" Hb). }
  rewrite Hscan. cbn [inject_pieces truthy mbind result_bind rbind].
  rewrite Hget. cbn [inject_pieces mbind result_bind rbind is_nullish negb andb].
  by rewrite str_app_nil_r.
Qed.

(** ** The generic check of validate *)

Lemma not_node_kinds (h : heap) (v : value) :
  isnode v = false -> ismap h v = false /\ islist h v = false.
Proof. destruct v; cbn; try done. Qed.

(** X29.  [validation] on a value of the data that is not a node.
    Nothing is checked when the data has no value under the key, or
    when what the shape holds there is still a command string.  A
    value whose [typeof] differs from that of the shape's value is
    reported: one message is added to [state.errs] and nothing else
    is written.  Otherwise the shape's value was a default and the
    data's value is written over it in the parent. *)
Theorem validation_of_a_leaf (fuel : nat) (h : heap)
    (val key parent state current _store : value) (le : loc) (es : list value) :
  is_nullish state = false ->
  js_get h state (VStr "errs") = VRef le ->
  h !! le = Some (OList es) ->
  forall cval pval,
    cval = getprop h current key VUndef ->
    pval = getprop h parent key VUndef ->
    (cval = VUndef ->
       validation fuel h val key parent state current _store = Ret (h, VUndef))
    /\ (forall s, pval = VStr s -> str_includes S_DS s = true ->
          validation fuel h val key parent state current _store = Ret (h, VUndef))
    /\ (cval <> VUndef ->
        (forall s, pval = VStr s -> str_includes S_DS s = false) ->
        (typeof pval <> typeof cval ->
         pval <> VUndef ->
           validation fuel h val key parent state current _store
           = Ret (<[le := OList (es ++ [VStr (_invalidTypeMsg h
                                                (js_get h state (VStr "path"))
                                                (typeof pval) (typeof cval) cval)])]> h,
                  VUndef))
        /\ (typeof pval = typeof cval \/ pval = VUndef ->
            isnode cval = false ->
              validation fuel h val key parent state current _store
              = Ret (fst (setprop h parent key cval), VUndef))).
Proof.
  intros Hs He Hl cval pval -> ->. unfold validation.
  set (cval := getprop h current key VUndef).
  set (pval := getprop h parent key VUndef).
  assert (Hst : is_undef state = false) by (by destruct state).
  rewrite Hst, orb_false_r.
  split; [|split].
  - by intros ->.
  - intros s Hp Hinc. destruct (is_undef cval); [done|]. rewrite Hp, Hinc. done.
  - intros Hc Hcmd.
    assert (Hcu : is_undef cval = false) by (by destruct cval).
    rewrite Hcu.
    assert (Hnocmd : String.eqb "string" (typeof pval)
                     && match pval with
                        | VStr s => str_includes S_DS s
                        | _ => false
                        end = false).
    { destruct pval as [| | | |s| |] eqn:Ep; try done.
      by rewrite (Hcmd s eq_refl). }
    rewrite Hnocmd. split.
    + intros Ht Hp.
      replace (String.eqb (typeof pval) (typeof cval)) with false
        by (symmetry; by apply String.eqb_neq).
      replace (is_undef pval) with false by (by destruct pval).
      cbn [negb andb]. rewrite (member_node _ _ _ Hs).
      cbn [mbind result_bind rbind].
      by rewrite (errs_push_list _ _ _ _ _ Hs He Hl).
    + intros Ht Hn. destruct (not_node_kinds h _ Hn) as [Hm Hli].
      rewrite Hm, Hli.
      destruct Ht as [Ht|Hp].
      * rewrite Ht, String.eqb_refl. reflexivity.
      * rewrite Hp. cbn [is_undef negb]. by rewrite andb_false_r.
Qed.


End Facts.

(** The closed statements below are about the program on the host
    [plain_host], unless another host is named. *)
#[local] Existing Instance plain_host.

(** ** Agreement with the repository's test data

    Entries of the [setprop], [getprop], [haskey] and [keysof] test
    sets of the repository, run on the model. *)

Example test_setprop_append_past_end :
  setprop [OList [num 27]] (VRef 0) (num 2) (num 28)
  = ([OList [num 27; num 28]], VRef 0).
Proof. vm_compute. reflexivity. Qed.

Example test_setprop_negative_prepends :
  setprop [OList [num 272]] (VRef 0) (VNum (num_of_Z (-2))) (num 282)
  = ([OList [num 282; num 272]], VRef 0).
Proof. vm_compute. reflexivity. Qed.

Example test_setprop_delete_first :
  setprop [OList [num 275]] (VRef 0) (num 0) VUndef
  = ([OList []], VRef 0).
Proof. vm_compute. reflexivity. Qed.

Example test_setprop_delete_out_of_range :
  setprop [OList [num 273]] (VRef 0) (num 2) VUndef
  = ([OList [num 273]], VRef 0).
Proof. vm_compute. reflexivity. Qed.

Example test_setprop_boolean_key :
  setprop [OList [num 30]] (VRef 0) (VBool true) (num 31)
  = ([OList [num 30]], VRef 0).
Proof. vm_compute. reflexivity. Qed.

Example test_setprop_map_number_key :
  setprop [OMap [("x", num 17)]] (VRef 0) (num 0) (num 0)
  = ([OMap [("x", num 17); ("0", num 0)]], VRef 0).
Proof. vm_compute. reflexivity. Qed.

Example test_setprop_map_delete :
  setprop [OMap [("x", num 33); ("y", num 34)]] (VRef 0) (VStr "y") VUndef
  = ([OMap [("x", num 33)]], VRef 0).
Proof. vm_compute. reflexivity. Qed.

Example test_getprop_number_key_on_map :
  getprop [OMap [("2", VStr "x")]] (VRef 0) (num 2) VUndef = VStr "x".
Proof. vm_compute. reflexivity. Qed.

Example test_getprop_string_index_on_list :
  getprop [OList [VStr "a"]] (VRef 0) (VStr "0") VUndef = VStr "a".
Proof. vm_compute. reflexivity. Qed.

Example test_getprop_alt_on_scalar :
  getprop [] (num 11) (num 12) (num 13) = num 13.
Proof. vm_compute. reflexivity. Qed.

Example test_haskey_list :
  haskey [OList [num 3]] (VRef 0) (VStr "0") = true
  /\ haskey [OList [num 3]] (VRef 0) (VStr "1") = false.
Proof. split; vm_compute; reflexivity. Qed.

Example test_keysof_sorted :
  keysof keys_store (VRef 0) = ["`$A`"; "`$Z`"; "a"; "b"].
Proof. vm_compute. reflexivity. Qed.

(** The two merges the specification lists: [merge([{a:1}, {a:2,b:3}])]
    and [merge([{a:{x:1}}, {a:{y:2}}])], read back from the first
    element of the list. *)
Example test_merge_precedence :
  exists h',
    merge 4
      [OMap [("a", num 1)]; OMap [("a", num 2); ("b", num 3)]; OList [VRef 0; VRef 1]]
      (VRef 2) = Ret (h', VRef 0)
    /\ h' !! 0 = Some (OMap [("a", num 2); ("b", num 3)]).
Proof. eexists. split; [vm_compute; reflexivity|reflexivity]. Qed.

Example test_merge_deep_union :
  exists h',
    merge 4
      [OMap [("a", VRef 1)]; OMap [("x", num 1)];
       OMap [("a", VRef 3)]; OMap [("y", num 2)]; OList [VRef 0; VRef 2]]
      (VRef 4) = Ret (h', VRef 0)
    /\ h' !! 0 = Some (OMap [("a", VRef 1)])
    /\ h' !! 1 = Some (OMap [("x", num 1); ("y", num 2)]).
Proof. eexists. split; [vm_compute; reflexivity|split; reflexivity]. Qed.

(** The nested [$MERGE] of the example below comes out the same on any
    larger recursion budget. *)
Lemma transform_MERGE_nested_any_fuel (fuel : nat) :
  8 <= fuel ->
  exists h',
    transform_MERGE fuel merge_store
      (VRef 0) (VFun "transform_MERGE") (VRef 2) = Ret (h', VStr "`$MERGE`")
    /\ h' !! 1 = Some (OMap [("a", num 1)]).
Proof.
  intros Hle.
  destruct (transform_MERGE 8 merge_store
              (VRef 0) (VFun "transform_MERGE") (VRef 2)) as [[h' v]| |] eqn:E;
    [|vm_compute in E; discriminate..].
  exists h'. rewrite (transform_MERGE_fuel_mono _ _ _ _ _ _ _ Hle E).
  vm_compute in E. injection E as <- <-. split; reflexivity.
Qed.

(** Entries of the [escre], [joinurl] and [typify] test sets. *)

Example test_escre_plain : escre (VStr "a0_") = Ret "a0_".
Proof. reflexivity. Qed.

Example test_escre_specials :
  escre (VStr ".*+?^${}()|[]\") = Ret "\.\*\+\?\^\$\{\}\(\)\|\[\]\\".
Proof. reflexivity. Qed.

Example test_joinurl_skips_null :
  joinurl [VStr "a"; VNull; VStr "b"] = Ret "a/b".
Proof. reflexivity. Qed.

Example test_joinurl_both_slashes :
  joinurl [VStr "a/"; VStr "//b"] = Ret "a/b".
Proof. reflexivity. Qed.

Example test_joinurl_inner_run :
  joinurl [VStr "a"; VStr "b"; VStr "c//d"] = Ret "a/b/c/d".
Proof. reflexivity. Qed.

Example test_joinurl_leading_slashes_of_first :
  joinurl [VStr "//a"; VStr "/b"] = Ret "//a/b".
Proof. reflexivity. Qed.

(** The last entry of the [joinurl] set expects
    [https://www.example.com/a/b/c/d]: the code collapses the two
    slashes after the colon as it does any first run. *)
Example test_joinurl_scheme :
  joinurl [VStr "https://www.example.com/"; VStr "/a"; VStr "/b/"; VStr "/c"; VStr "d"]
  = Ret "https:/www.example.com/a/b/c/d".
Proof. reflexivity. Qed.

Example test_typify :
  map (_typify [OMap [("a", num 1)]; OList [num 1]])
    [VRef 0; VRef 1; num 1; VStr "a"; VBool true; VNull; VUndef]
  = ["object"; "array"; "number"; "string"; "boolean"; "null"; "null"].
Proof. reflexivity. Qed.

(** ** Worked examples *)

(** C1 (the code departs from it).  [inject] visits the keys without
    [$] in the order [Object.keys] reports them, which is the order in
    which they were written, not sorted order; only the keys with [$]
    are sorted.  The same map written [b] first and written [a] first
    is visited in two different orders. *)
Theorem origkeys_plain_keys_in_insertion_order :
  origkeys keys_store (VRef 0)
  = [VStr "b"; VStr "a"; VStr "`$A`"; VStr "`$Z`"]
  /\ origkeys keys_store_a_first (VRef 0)
     = [VStr "a"; VStr "b"; VStr "`$A`"; VStr "`$Z`"].
Proof. split; vm_compute; reflexivity. Qed.

(** C2 (the code departs from it).  With the empty string as its
    argument, [$MERGE] merges [current.$TOP], not [store.$TOP]: below
    the top level of the specification [current] is the data, whose
    [$TOP] is absent, and nothing is merged into the parent; handed the
    store as [current], the same call merges the data.  And a literal
    of the parent does not always win: the literal [a: {x: 1}] is lost
    to a merge source holding [a: []]. *)
Theorem transform_MERGE_reads_current_top :
  (exists h',
      transform_MERGE 8 merge_store
        (VRef 0) (VFun "transform_MERGE") (VRef 2) = Ret (h', VStr "`$MERGE`")
      /\ h' !! 1 = Some (OMap [("a", num 1)]))
  /\ (exists h',
         transform_MERGE 8 merge_store
           (VRef 0) (VFun "transform_MERGE") (VRef 3) = Ret (h', VStr "`$MERGE`")
         /\ h' !! 1 = Some (OMap [("a", num 1); ("b", num 2)]))
  /\ (exists h',
         transform_MERGE 8 merge_kind_store
           (VRef 0) (VFun "transform_MERGE") (VRef 5) = Ret (h', VStr "`$MERGE`")
         /\ h' !! 1 = Some (OMap [("a", VRef 4)])
         /\ h' !! 4 = Some (OList [])).
Proof.
  repeat split; eexists; (split; [vm_compute; reflexivity|]); repeat split; reflexivity.
Qed.

(** C4 (the code departs from it).  [getprop] reads [val[key]], and
    that finds what a map inherits as well as what it holds.  After
    [setprop ({}, 'toString', absent)] the key is still there for
    [haskey]: the map never had such an entry, and the function
    [Object.prototype.toString] is found in its place.  Under
    [__proto__] the value is not read back: [setprop ({}, '__proto__', 1)]
    makes no entry, and [getprop] finds [Object.prototype]. *)
Theorem haskey_finds_inherited_members :
  haskey (setprop [OMap []] (VRef 0) (VStr "toString") VUndef).1
    (VRef 0) (VStr "toString") = true
  /\ getprop (setprop [OMap []] (VRef 0) (VStr "toString") VUndef).1
       (VRef 0) (VStr "toString") VUndef
     = VFun "Object.prototype.toString"
  /\ (setprop [OMap []] (VRef 0) (VStr "__proto__") (num 1)).1 = [OMap []]
  /\ getprop (setprop [OMap []] (VRef 0) (VStr "__proto__") (num 1)).1
       (VRef 0) (VStr "__proto__") VUndef
     <> num 1.
Proof. repeat split; vm_compute; (reflexivity || discriminate). Qed.

(** C6 (the code departs from it).  Nodes of different kinds are
    merged below the top level.  The replacement of one kind by the
    other is applied to the elements of the merged list only; further
    down [merger] writes the children of the later node into whatever
    node the accumulator holds at that path.
    [merge([{a: {x: 1}}, {a: [1, 2]}])] leaves [a] a map, with the
    elements of the list added under the keys [0] and [1], where the
    later list should have won; and [merge([{a: [1, 2]}, {a: {x: 1}}])]
    leaves [a] the list it was, where the later map should have. *)
Theorem merge_nested_kinds_are_merged :
  (exists h',
      merge 4
        [OMap [("a", VRef 1)]; OMap [("x", num 1)];
         OMap [("a", VRef 3)]; OList [num 1; num 2]; OList [VRef 0; VRef 2]]
        (VRef 4) = Ret (h', VRef 0)
      /\ h' !! 0 = Some (OMap [("a", VRef 1)])
      /\ h' !! 1 = Some (OMap [("x", num 1); ("0", num 1); ("1", num 2)]))
  /\ (exists h',
         merge 4
           [OMap [("a", VRef 1)]; OList [num 1; num 2];
            OMap [("a", VRef 3)]; OMap [("x", num 1)]; OList [VRef 0; VRef 2]]
           (VRef 4) = Ret (h', VRef 0)
         /\ h' !! 0 = Some (OMap [("a", VRef 1)])
         /\ h' !! 1 = Some (OList [num 1; num 2])).
Proof.
  split; eexists; (split; [vm_compute; reflexivity|split; reflexivity]).
Qed.

(** C8 (the code departs from it).  With [collecterrs] supplied
    [validate] can still raise.  In
    [validate ({a: 1}, {a: '`$ONE`'}, undefined, [])] the command
    [$ONE] is the value of a key of a map; [validate_ONE] takes its
    parent for the list of alternatives and calls [parent.slice (1)],
    which a map does not have: the TypeError passes through the engine
    and through [validate], and nothing is appended to the list the
    caller supplied. *)
Theorem validate_raises_despite_collecterrs :
  validate (JS := engine_host printing_host 8) 8 one_store
    (VRef 0) (VRef 1) VUndef (VRef 2)
  = Throw "TypeError: parent.slice is not a function".
Proof. vm_compute. reflexivity. Qed.

(** C7, as it was stated, fails.  An absent path does not yield the
    store: [getpath] gives absent.  And with an absent store a local
    path is not resolved from [current]. *)
Lemma getpath_absent_path_counterexample :
  getpath top_store (PathOther VUndef) (VRef 0) VUndef VUndef
  <> Ret (top_store,
          if haskey top_store (VRef 0) VUndef
          then js_get top_store (VRef 0) VUndef else VRef 0)
  /\ getpath top_store (PathStr ".a") VUndef (VRef 1) VUndef
     <> Ret (top_store, resolve_from top_store (VRef 1) [VStr "a"]).
Proof. split; vm_compute; discriminate. Qed.

Lemma setprop_list_no_holes_witness :
  setprop abc_store (VRef 0) (VStr "1") VUndef
  = ([OList [VStr "a"; VStr "c"]], VRef 0)
  /\ setprop abc_store (VRef 0) (VStr "1") (VStr "z")
     = ([OList [VStr "a"; VStr "z"; VStr "c"]], VRef 0).
Proof.
  pose proof (setprop_list_no_holes abc_store 0 _
                (VStr "1") (VStr "z") 1 eq_refl eq_refl eq_refl
                ltac:(discriminate)) as (H1 & _ & _ & H4).
  split; [apply H1 | apply H4]; cbn; lia.
Defined.

Lemma setprop_list_nan_key_noop_witness :
  iskey (VStr "x") = true
  /\ setprop abc_store (VRef 0) (VStr "x") (num 1)
     = (abc_store, VRef 0).
Proof.
  apply (setprop_list_nan_key_noop abc_store 0 _ "x" (num 1)
           eq_refl ltac:(discriminate) eq_refl).
Defined.

Lemma merge_identity_witness :
  merge 0 [OList []] (VRef 0)
  = Ret ([OList []], VUndef)
  /\ merge 0 [OList [num 1]] (VRef 0)
     = Ret ([OList [num 1]], num 1).
Proof.
  split.
  - apply (proj1 (merge_identity 0 [OList []] 0 VUndef)).
    reflexivity.
  - apply (proj2 (merge_identity 0 [OList [num 1]] 0 (num 1))).
    reflexivity.
Defined.

Lemma merge_non_list_passthrough_witness :
  merge 0 x_store (VRef 0) = Ret (x_store, VRef 0).
Proof.
  apply (merge_non_list_passthrough 0 x_store (VRef 0)).
  reflexivity.
Defined.

Lemma getpath_empty_and_local_witness :
  getpath top_store (PathStr "") (VRef 0) (VRef 1) VUndef
  = Ret (top_store, VRef 0)
  /\ getpath top_store (PathStr ".a") (VRef 0) (VRef 1) VUndef
     = Ret (top_store, num 1).
Proof.
  pose proof (getpath_empty_and_local top_store)
    as H.
  split.
  - apply (proj1 (H (PathStr "") (VRef 0) (VRef 1) VUndef (or_introl eq_refl))).
    reflexivity.
  - apply (proj2 (H (PathStr ".a") (VRef 0) (VRef 1) VUndef (or_introl eq_refl))
             (VStr "a") []); reflexivity.
Defined.

(** ** Worked examples of the further properties *)


Lemma merge_later_elements_win_witness :
  merge 0 (mixed_store ++ [OList [VRef 0; VRef 1; num 5]]) (VRef 3)
  = Ret ((mixed_store ++ [OList [VRef 0; VRef 1; num 5]]) ++ [OMap []], num 5).
Proof.
  apply (merge_later_elements_win 0 (mixed_store ++ [OList [VRef 0; VRef 1; num 5]])
           3 (VRef 0) [VRef 1; num 5] eq_refl);
    [discriminate|discriminate|].
  split; [right; right; right; split; reflexivity|].
  split; [left; reflexivity|exact I].
Defined.

(** The engine at work.
    [transform ({a: 1}, {x: '`a`', y: 'n=`a`', z: '`$COPY`', a: '`$COPY`',
    d: '`$DELETE`'})] gives [{x: 1, y: 'n=1', a: 1}]. *)
Example transform_injects_and_runs_commands :
  exists h' out,
    transform (JS := engine_host printing_host 8) 8
      [ OMap [("a", num 1)];
        OMap [("x", VStr "`a`"); ("y", VStr "n=`a`"); ("z", VStr "`$COPY`");
              ("a", VStr "`$COPY`"); ("d", VStr "`$DELETE`")] ]
      (VRef 0) (VRef 1) VUndef VUndef
    = Ret (h', out)
    /\ map_entries h' out = [("x", num 1); ("y", VStr "n=1"); ("a", num 1)].
Proof. eexists _, _. split; [vm_compute; reflexivity|reflexivity]. Qed.

(** Inside a list [$ONE] works as meant:
    [validate ({a: true}, {a: ['`$ONE`', '`$STRING`', '`$NUMBER`']},
    undefined, errs)] reports one error into [errs], and with the data
    [{a: 1}] none. *)
Example validate_ONE_inside_a_list :
  (exists h' out,
     validate (JS := engine_host printing_host 8) 8
       [ OMap [("a", VBool true)]; OMap [("a", VRef 2)];
         OList [VStr "`$ONE`"; VStr "`$STRING`"; VStr "`$NUMBER`"]; OList [] ]
       (VRef 0) (VRef 1) VUndef (VRef 3)
     = Ret (h', out)
     /\ h' !! 3
        = Some (OList [VStr "Expected one of string, number at a, found boolean: true"]))
  /\ (exists h' out,
        validate (JS := engine_host printing_host 8) 8
          [ OMap [("a", num 1)]; OMap [("a", VRef 2)];
            OList [VStr "`$ONE`"; VStr "`$STRING`"; VStr "`$NUMBER`"]; OList [] ]
          (VRef 0) (VRef 1) VUndef (VRef 3)
        = Ret (h', out)
        /\ h' !! 3 = Some (OList [])
        /\ map_entries h' out = [("a", num 1)]).
Proof.
  split; eexists _, _; (split; [vm_compute; reflexivity|]); [|split]; reflexivity.
Qed.

Lemma validate_around_the_engine_witness :
  validate (JS := engine_host printing_host 8) 8 number_store
    (VRef 0) (VRef 1) VUndef VUndef
  = Throw ("Invalid data: " +:+ "Expected number at a, found string: x"
           +:+ S_NL +:+ "Expected number at b, found string: y")
  /\ exists h3 out,
       validate (JS := engine_host printing_host 8) 8 number_store
         (VRef 0) (VRef 1) VUndef (VRef 2)
       = Ret (h3, out)
       /\ h3 !! 2 = Some (OList (map VStr number_errors))
       /\ map_entries h3 out = [("a", VStr "x"); ("b", VStr "y")].
Proof.
  split.
  - pose proof (validate_around_the_engine (JS := engine_host printing_host 8) 8
                  number_store (VRef 0) (VRef 1) VUndef VUndef _ _ _ _
                  eq_refl eq_refl) as (_ & _ & _ & H).
    edestruct H as [_ H2]; [vm_compute; reflexivity|reflexivity|reflexivity|].
    apply (H2 number_errors); [reflexivity|discriminate|reflexivity].
  - pose proof (validate_around_the_engine (JS := engine_host printing_host 8) 8
                  number_store (VRef 0) (VRef 1) VUndef (VRef 2) _ _ _ _
                  eq_refl eq_refl) as (_ & _ & _ & H).
    edestruct H as [H1 _]; [vm_compute; reflexivity|reflexivity|reflexivity|].
    eexists _, _. split; [apply H1; right; reflexivity|].
    split; reflexivity.
Defined.

Lemma setprop_map_other_keys_witness :
  getprop (setprop x_store (VRef 0) (VStr "y") (num 2)).1
    (VRef 0) (VStr "x") VUndef
  = getprop x_store (VRef 0) (VStr "x") VUndef.
Proof.
  apply (setprop_map_other_keys x_store 0 _ "y" "x" (num 2) VUndef
           eq_refl); discriminate.
Defined.

Lemma setprop_list_never_leaves_holes_witness :
  exists ys,
    (setprop abc_store (VRef 0) (num 7) (VStr "z")).1 !! 0
    = Some (OList ys)
    /\ Forall (fun v => v <> VUndef) ys.
Proof.
  destruct (setprop_list_never_leaves_holes abc_store 0 _
              (num 7) (VStr "z") eq_refl) as (ys & H1 & H2 & _).
  - repeat constructor; discriminate.
  - exists ys. split; [exact H1|exact H2].
Defined.

Lemma setprop_getprop_list_round_trip_witness :
  getprop (setprop abc_store (VRef 0) (num 1) (VStr "z")).1
    (VRef 0) (num 1) VUndef
  = VStr "z".
Proof.
  destruct (setprop_getprop_list_round_trip abc_store 0 _ 1
              (VStr "z") VUndef eq_refl) as [H _]; [discriminate|reflexivity|].
  apply H. cbn. lia.
Defined.

Lemma keysof_sorted_whatever_the_insertion_order_witness :
  keysof keys_store_a_first (VRef 0) = keysof keys_store (VRef 0).
Proof.
  destruct (keysof_sorted_whatever_the_insertion_order keys_store 0 _ eq_refl)
    as (_ & _ & H).
  apply (H keys_store_a_first 0 _ eq_refl).
  cbn. etrans; [apply perm_swap|]. apply perm_skip, perm_swap.
Defined.

Lemma items_of_list_witness :
  items abc_store (VRef 0)
  = [("0", VStr "a"); ("1", VStr "b"); ("2", VStr "c")].
Proof.
  rewrite (items_of_list abc_store 0 _ eq_refl); reflexivity.
Defined.

Lemma getpath_absolute_retries_under_base_witness :
  getpath base_store (PathStr "a") (VRef 0) VUndef (VRef 2)
  = Ret (base_store, num 1).
Proof.
  exact (getpath_absolute_retries_under_base base_store
           (PathStr "a") (VRef 0) VUndef (VRef 2) (VStr "a") []
           (or_intror eq_refl) eq_refl eq_refl eq_refl).
Defined.

Lemma pathify_then_split_round_trip_witness :
  path_parts (PathStr (pathify [] (PathList [VStr "a"; VStr "b"]) None))
  = Some [VStr "a"; VStr "b"].
Proof.
  destruct (pathify_then_split_round_trip [] ["a"; "b"])
    as [H _]; [discriminate|repeat constructor|exact H].
Defined.

Lemma clone_never_touches_the_original_witness :
  exists ext v, clone 2 x_store (VRef 0) = Ret (x_store ++ ext, v).
Proof.
  destruct (clone 2 x_store (VRef 0)) as [[h' v]| |] eqn:E; try discriminate E.
  destruct (clone_never_touches_the_original 2 x_store h' (VRef 0) v E)
    as ((ext & ->) & _).
  by exists ext, v.
Defined.

Lemma injecthandler_calls_only_commands_witness :
  injecthandler directive_store (VRef 0) (num 5) (VRef 2)
    (VStr "a") VUndef
  = Ret ((setprop directive_store (VRef 1) (VStr "a") (num 5)).1,
         num 5).
Proof.
  exact (injecthandler_calls_only_commands directive_store
           (VRef 0) (num 5) (VRef 2) (VStr "a") VUndef eq_refl (or_introl eq_refl)).
Defined.



Lemma transform_KEY_sources_witness :
  exists h' v,
    transform_KEY directive_store (VRef 0) VUndef (VRef 2)
    = Ret (h', v)
    /\ haskey h' (VRef 1) (VStr S_DKEY) = false.
Proof.
  destruct (transform_KEY_sources directive_store
              (VRef 0) VUndef (VRef 2) 1 _ eq_refl eq_refl eq_refl) as [_ H].
  destruct (H eq_refl) as [Hk _].
  destruct (Hk (VStr "n") eq_refl ltac:(discriminate)) as (h' & H1 & H2 & _).
  exists h'. eexists. split; [exact H1|exact H2].
Defined.

Lemma validate_typeof_checkers_witness :
  validate_NUMBER directive_store (VRef 0) VUndef (VRef 2)
  = Ret (directive_store, num 7)
  /\ exists msg,
       validate_BOOLEAN directive_store (VRef 0) VUndef (VRef 2)
       = Ret (<[4 := OList [VStr msg]]> directive_store, VUndef).
Proof.
  destruct (validate_typeof_checkers directive_store
              (VRef 0) VUndef (VRef 2) 4 [] eq_refl eq_refl eq_refl _ _
              eq_refl eq_refl) as [H _].
  split.
  - apply (H "number"). apply elem_of_cons. by left.
  - eexists. apply (H "boolean"). apply elem_of_cons. right.
    apply elem_of_cons. by left.
Defined.

Lemma validate_STRING_rejects_the_empty_string_witness :
  exists msg,
    validate_STRING directive_store (VRef 0) VUndef (VRef 2)
    = Ret (<[4 := OList [VStr msg]]> directive_store, VUndef).
Proof.
  destruct (validate_STRING_rejects_the_empty_string
              directive_store (VRef 0) VUndef (VRef 2) 4 [] eq_refl eq_refl eq_refl
              _ _ eq_refl eq_refl) as (_ & _ & H).
  eexists. apply H. discriminate.
Defined.

Lemma validate_OBJECT_and_ARRAY_witness :
  exists msg,
    validate_OBJECT directive_store (VRef 0) VUndef (VRef 2)
    = Ret (<[4 := OList [VStr msg]]> directive_store, VUndef).
Proof.
  destruct (validate_OBJECT_and_ARRAY directive_store
              (VRef 0) VUndef (VRef 2) 4 [] eq_refl eq_refl eq_refl _ _
              eq_refl eq_refl) as [H _].
  eexists. exact H.
Defined.

Lemma walk_observer_leaves_plain_data_witness :
  exists n,
    walk 3 counting_visitor 0 mixed_store (VRef 2) VUndef VUndef []
    = Ret (n, mixed_store, VRef 2).
Proof.
  apply (walk_observer_leaves_plain_data counting_visitor
           mixed_store).
  - intros [|[|[|l]]] o H; cbn in H; try discriminate H;
      injection H as <-; cbn; repeat constructor; try discriminate.
  - intros st key val parent path. by eexists.
  - cbn. repeat constructor.
Defined.

Lemma merge_two_flat_maps_witness :
  exists h' ma',
    merge 2 flat_store (VRef 0) = Ret (h', VRef 1)
    /\ h' !! 1 = Some (OMap ma')
    /\ assoc_find "a" ma' = Some (num 2)
    /\ assoc_find "b" ma' = Some (num 4)
    /\ assoc_find "c" ma' = Some (num 3).
Proof.
  destruct (merge_two_flat_maps 2 flat_store
              0 1 2 _ _ eq_refl eq_refl eq_refl)
    as (h' & ma' & H1 & H2 & H3 & _).
  - discriminate.
  - repeat constructor; discriminate.
  - lia.
  - exists h', ma'. split; [exact H1|]. split; [exact H2|].
    split; [|split]; rewrite H3 by discriminate; reflexivity.
Defined.

Lemma joinurl_collapses_the_first_run_witness :
  joinurl [VStr "https://www.example.com/"] = Ret "https:/www.example.com".
Proof.
  exact (joinurl_collapses_the_first_run "https:" "www.example.com/"
           ltac:(discriminate) ltac:(repeat constructor; discriminate)).
Defined.

Lemma injectstr_command_digits_are_discarded_witness :
  _injectstr top_store (VStr "`$COPY12`")
    (VRef 0) VUndef VUndef
  = _injectstr top_store (VStr "`$COPY`")
      (VRef 0) VUndef VUndef.
Proof.
  exact (injectstr_command_digits_are_discarded
           top_store (VRef 0) VUndef VUndef "COPY" "12"
           ltac:(discriminate) ltac:(repeat constructor) ltac:(repeat constructor)).
Defined.

Lemma injectstr_interpolates_witness :
  _injectstr top_store (VStr "n=`$TOP.a`!")
    (VRef 0) VUndef VUndef
  = Ret (top_store, VStr "n=1!").
Proof.
  pose proof (injectstr_interpolates top_store
                (VRef 0) VUndef "n=" "$TOP.a" "!" (num 1)) as H.
  assert (Ha : backtick_free "n=") by (repeat constructor; discriminate).
  assert (Hb : backtick_free "!") by (repeat constructor; discriminate).
  assert (Hm : backtick_free "$TOP.a") by (repeat constructor; discriminate).
  assert (Hne : "$TOP.a" <> "") by discriminate.
  assert (Hab : "n=" <> "" \/ "!" <> "") by (left; discriminate).
  specialize (H Ha Hb Hm Hne Hab).
  change "n=`$TOP.a`!" with ("n=" +:+ "`" +:+ "$TOP.a" +:+ "`" +:+ "!").
  rewrite H by (vm_compute; reflexivity).
  vm_compute. reflexivity.
Defined.

Lemma validation_of_a_leaf_witness :
  validation 0 directive_store (num 1) (VStr "d")
    (VRef 1) (VRef 0) (VRef 2) VUndef
  = Ret ((setprop directive_store (VRef 1) (VStr "d") (num 2)).1,
         VUndef).
Proof.
  destruct (validation_of_a_leaf 0 directive_store
              (num 1) (VStr "d") (VRef 1) (VRef 0) (VRef 2) VUndef 4 []
              eq_refl eq_refl eq_refl _ _ eq_refl eq_refl) as (_ & _ & H).
  destruct H as [_ H]; [discriminate|discriminate|].
  apply H; [by left|reflexivity].
Defined.

